(** * strct: the reflective scanner and the string coercion engine

    A shallow embedding of the Go package [strct] (jobbitz/strct): the field
    scanner [Scan] / [ScanAll] and the coercion routines [Parse] /
    [ParseHard], over a model of the fragment of Go's [reflect], [fmt],
    [strconv], [strings], [time] and [regexp] packages that the code calls.

    Three revisions of the package are embedded:
    - [Module Base]: src/base.go ([Scan], [Parse], [ParseHard]);
    - [Module Strct]: the latest revision ([Scan], [ScanAll], [Parse],
      [ParseHard] with the file and database destinations).
    - [Module Oldest]: the oldest revision, which has the [Scan] of
      src/base.go and, under the name [Parse], what became [ParseHard]. *)

From Stdlib Require Import ZArith String Ascii List Bool Lia.
From Stdlib Require Import Floats.SpecFloat DecimalString HexadecimalString.
From stdpp Require Import base option list.

Set Warnings "-register-all".

Local Open Scope string_scope.
Local Open Scope Z_scope.
Local Open Scope list_scope.

Local Notation "a +++ b" := (String.append a b)
  (at level 60, right associativity).

(** ** Go types as [reflect] sees them *)

Module reflect.

(** [reflect.Kind], in the order of the Go declaration. *)
Inductive Kind :=
| Invalid | Bool
| Int | Int8 | Int16 | Int32 | Int64
| Uint | Uint8 | Uint16 | Uint32 | Uint64 | Uintptr
| Float32 | Float64 | Complex64 | Complex128
| Array | Chan | Func | Interface | Map | Ptr | Slice | String | Struct
| UnsafePointer.

Definition Kind_eqb (a b : Kind) : bool :=
  match a, b with
  | Invalid, Invalid | Bool, Bool | Int, Int | Int8, Int8 | Int16, Int16
  | Int32, Int32 | Int64, Int64 | Uint, Uint | Uint8, Uint8 | Uint16, Uint16
  | Uint32, Uint32 | Uint64, Uint64 | Uintptr, Uintptr | Float32, Float32
  | Float64, Float64 | Complex64, Complex64 | Complex128, Complex128
  | Array, Array | Chan, Chan | Func, Func | Interface, Interface | Map, Map
  | Ptr, Ptr | Slice, Slice | String, String | Struct, Struct
  | UnsafePointer, UnsafePointer => true
  | _, _ => false
  end.

End reflect.

(** A Go type descriptor ([reflect.Type]).  Defined types are referred to by
    package path and name and resolved through the type declarations of the
    program (see [Env]), so that recursive types ([type Node struct { Next
    *Node }]) have finite descriptors. *)
Inductive rtype :=
| TBasic (k : reflect.Kind)            (* predeclared bool, int, ..., string *)
| TNamed (pkg name : string)           (* a defined type, e.g. time.Duration *)
| TPtr (elem : rtype)
| TSlice (elem : rtype)
| TArray (len : nat) (elem : rtype)
| TStruct (fields : list StructField)
| TInterface (methods : list string)
| TOther (k : reflect.Kind) (zero : string)
    (* chan, func and map types: the package never looks inside them; [zero]
       is the text fmt prints for their zero value *)
with StructField :=
| mkStructField (Name PkgPath : string) (Typ : rtype) (Tag : string)
                (Index : nat) (Anonymous : bool).

Definition sfName (f : StructField) := let 'mkStructField n _ _ _ _ _ := f in n.
Definition sfPkgPath (f : StructField) := let 'mkStructField _ p _ _ _ _ := f in p.
Definition sfType (f : StructField) := let 'mkStructField _ _ t _ _ _ := f in t.
Definition sfTag (f : StructField) := let 'mkStructField _ _ _ t _ _ := f in t.
Definition sfIndex (f : StructField) := let 'mkStructField _ _ _ _ i _ := f in i.
Definition sfAnonymous (f : StructField) := let 'mkStructField _ _ _ _ _ a := f in a.

(** [PkgPath] is empty exactly for exported fields (reflect.StructField). *)
Definition IsExported (f : StructField) : bool :=
  match sfPkgPath f with EmptyString => true | _ => false end.

Fixpoint strings_eqb (xs ys : list string) : bool :=
  match xs, ys with
  | [], [] => true
  | x :: xs', y :: ys' => String.eqb x y && strings_eqb xs' ys'
  | _, _ => false
  end.

(** Identity of type descriptors, as compared by [switch fv.Type()]. *)
Fixpoint rtype_eqb (a b : rtype) {struct a} : bool :=
  let fix fields_eqb (xs ys : list StructField) {struct xs} : bool :=
    match xs, ys with
    | [], [] => true
    | mkStructField n p t g i an :: xs', mkStructField n' p' t' g' i' an' :: ys' =>
        String.eqb n n' && String.eqb p p' && rtype_eqb t t' && String.eqb g g'
        && Nat.eqb i i' && Bool.eqb an an' && fields_eqb xs' ys'
    | _, _ => false
    end in
  match a, b with
  | TBasic k, TBasic k' => reflect.Kind_eqb k k'
  | TNamed p n, TNamed p' n' => String.eqb p p' && String.eqb n n'
  | TPtr e, TPtr e' => rtype_eqb e e'
  | TSlice e, TSlice e' => rtype_eqb e e'
  | TArray n e, TArray n' e' => Nat.eqb n n' && rtype_eqb e e'
  | TStruct fs, TStruct fs' => fields_eqb fs fs'
  | TInterface ms, TInterface ms' =>
      strings_eqb ms ms'
  | TOther k z, TOther k' z' => reflect.Kind_eqb k k' && String.eqb z z'
  | _, _ => false
  end.

(** ** Go values and the store *)

(** Go [error] values, by the shape that produced them. *)
Inductive error :=
| errorString (msg : string)           (* errors.New, fmt.Errorf *)
| NumError (Func Num Err : string)     (* *strconv.NumError *)
| timeError (format : string) (args : list string)
                                       (* errors.New of package time; each %q
                                          of [format] is a quoted argument *)
| PathError (Op Path Err : string)     (* *os.PathError *)
| sqlUnknownDriver (driver : string).  (* sql: unknown driver %q (forgotten import?) *)

Definition addr := nat.

(** A variable: a heap cell, or a component of one (a struct field or an
    array element), reached by a path of indices. *)
Record loc := Loc { base : addr; path : list nat }.

Definition float := spec_float.

Inductive value :=
| VBool (b : bool)
| VInt (n : Z)                         (* all signed integer kinds *)
| VUint (n : Z)                        (* all unsigned integer kinds *)
| VFloat (f : float)
| VString (s : string)                 (* a Go string: a sequence of bytes *)
| VPtr (p : option loc)                (* nil, or the address of a variable *)
| VSlice (s : option (list value))     (* nil, or the elements *)
| VArr (es : list value)
| VStruct (fs : list value)
| VIface (d : option (rtype * value))  (* nil, or dynamic type and value *)
| VFile (name : string)                (* the os.File behind an *os.File *)
| VDB (driver dsn : string)            (* the sql.DB behind an *sql.DB *)
| VOpaque (text : string).             (* chan, func, map, complex: only the
                                          text fmt prints for it is kept *)

(** The store: the cells allocated so far; an address is an index. *)
Abbreviation heap := (list value).

Definition children (v : value) : option (list value) :=
  match v with
  | VStruct fs => Some fs
  | VArr es => Some es
  | VSlice (Some es) => Some es
  | _ => None
  end.

Definition with_children (v : value) (cs : list value) : value :=
  match v with
  | VStruct _ => VStruct cs
  | VArr _ => VArr cs
  | VSlice (Some _) => VSlice (Some cs)
  | _ => v
  end.

Fixpoint get_path (v : value) (p : list nat) : option value :=
  match p with
  | [] => Some v
  | i :: p' =>
      match children v with
      | Some cs => match cs !! i with
                   | Some c => get_path c p'
                   | None => None
                   end
      | None => None
      end
  end.

Fixpoint set_path (v : value) (p : list nat) (new : value) : option value :=
  match p with
  | [] => Some new
  | i :: p' =>
      match children v with
      | Some cs => match cs !! i with
                   | Some c => match set_path c p' new with
                               | Some c' => Some (with_children v (<[i:=c']> cs))
                               | None => None
                               end
                   | None => None
                   end
      | None => None
      end
  end.

Definition load (h : heap) (l : loc) : option value :=
  match h !! base l with
  | Some c => get_path c (path l)
  | None => None
  end.

Definition store (h : heap) (l : loc) (v : value) : option heap :=
  match h !! base l with
  | Some c => match set_path c (path l) v with
              | Some c' => Some (<[base l := c']> h)
              | None => None
              end
  | None => None
  end.

(** [new(T)] / the backing store of [reflect.MakeSlice]: a fresh cell. *)
Definition alloc (h : heap) (v : value) : addr * heap := (length h, h ++ [v]).

(** A value of type [interface{}]: nil, or a dynamic type with its value. *)
Definition iface := option (rtype * value).

(** ** The program environment

    What the package consumes from its surroundings: the type declarations
    and formatting methods of the program that calls it, the floating-point
    routines of [strconv], the file system behind [os.Open] and the driver
    registry behind [sql.Open]. *)
Record Env := {
  (** underlying type of the defined type [pkg.name] *)
  typedecl : string -> string -> option rtype;
  (** the text produced by the [Format], [Error] or [String] method of a
      value of the given type, when the type has one (fmt's handleMethods) *)
  fmt_method : rtype -> value -> heap -> option string;
  (** [strconv.ParseFloat s bitSize] *)
  strconv_ParseFloat : string -> Z -> float + error;
  (** [strconv.FormatFloat f 'g' (-1) bitSize], what fmt prints for [%v] *)
  strconv_FormatFloat : float -> Z -> string;
  (** [os.Open name]: [None] when the file opens, else the error *)
  os_Open : string -> option error;
  (** [sql.Open driver dsn]: [None] when the driver is registered and
      accepts the data source name, else the error *)
  sql_Open : string -> string -> option error
}.

(** ** Results of running Go code *)

Inductive abort :=
| GoPanic (msg : string)   (* a run-time panic *)
| IllTyped                 (* the store does not fit the handle's type:
                              impossible in a Go program *)
| OutOfFuel.               (* the recursion budget of the model ran out *)

Inductive outcome (A : Type) :=
| Ret (a : A)
| Abort (r : abort).
Arguments Ret {A} a.
Arguments Abort {A} r.

(** Code that reads and writes the store. *)
Definition M (A : Type) := heap -> outcome A * heap.

Definition retM {A} (a : A) : M A := fun h => (Ret a, h).
Definition abortM {A} (r : abort) : M A := fun h => (Abort r, h).
Definition bindM {A B} (m : M A) (k : A -> M B) : M B :=
  fun h => match m h with
           | (Ret a, h') => k a h'
           | (Abort r, h') => (Abort r, h')
           end.
Definition liftO {A} (o : outcome A) : M A := fun h => (o, h).
Definition readM {A} (f : heap -> outcome A) : M A := fun h => (f h, h).

Notation "'let*' x ':=' m 'in' k" := (bindM m (fun x => k))
  (at level 10, x name, m at level 100, k at level 200, only parsing).

(** A Go function of result type [error]: [Ret None] is a nil error. *)
Definition result := outcome (option error).

(** ** [reflect.Value] *)

(** The read-only bits of a [reflect.Value]'s flag word; [flagAddr] is the
    constructor [Ref] and the kind is read off the type. *)
Record flag := Flag { flagStickyRO : bool; flagEmbedRO : bool }.

Definition flag0 : flag := Flag false false.
Definition flagRO (fl : flag) : bool := flagStickyRO fl || flagEmbedRO fl.

Inductive Value :=
| ZeroValue                                  (* reflect.Value{} *)
| Imm (typ : rtype) (v : value) (fl : flag)  (* a value that is not addressable *)
| Ref (typ : rtype) (l : loc) (fl : flag).   (* an addressable variable *)

Section Reflect.
Context (E : Env).

Definition underlying (t : rtype) : option rtype :=
  match t with
  | TNamed p n => typedecl E p n
  | _ => Some t
  end.

Definition kind_of_literal (t : rtype) : reflect.Kind :=
  match t with
  | TBasic k => k
  | TNamed _ _ => reflect.Invalid
  | TPtr _ => reflect.Ptr
  | TSlice _ => reflect.Slice
  | TArray _ _ => reflect.Array
  | TStruct _ => reflect.Struct
  | TInterface _ => reflect.Interface
  | TOther k _ => k
  end.

Definition kind_of (t : rtype) : reflect.Kind :=
  match underlying t with
  | Some u => kind_of_literal u
  | None => reflect.Invalid
  end.

(** [Type.PkgPath] and [Type.Name]. *)
Definition PkgPath (t : rtype) : string :=
  match t with TNamed p _ => p | _ => EmptyString end.

Definition kind_name (k : reflect.Kind) : string :=
  match k with
  | reflect.Invalid => "invalid" | reflect.Bool => "bool"
  | reflect.Int => "int" | reflect.Int8 => "int8" | reflect.Int16 => "int16"
  | reflect.Int32 => "int32" | reflect.Int64 => "int64"
  | reflect.Uint => "uint" | reflect.Uint8 => "uint8"
  | reflect.Uint16 => "uint16" | reflect.Uint32 => "uint32"
  | reflect.Uint64 => "uint64" | reflect.Uintptr => "uintptr"
  | reflect.Float32 => "float32" | reflect.Float64 => "float64"
  | reflect.Complex64 => "complex64" | reflect.Complex128 => "complex128"
  | reflect.Array => "array" | reflect.Chan => "chan" | reflect.Func => "func"
  | reflect.Interface => "interface" | reflect.Map => "map"
  | reflect.Ptr => "ptr" | reflect.Slice => "slice"
  | reflect.String => "string" | reflect.Struct => "struct"
  | reflect.UnsafePointer => "unsafe.Pointer"
  end.

Definition Name (t : rtype) : string :=
  match t with
  | TNamed _ n => n
  | TBasic k => kind_name k
  | _ => EmptyString
  end.

(** [Type.Bits] on a 64-bit platform; Go panics for kinds without a size. *)
Definition Bits (t : rtype) : Z :=
  match kind_of t with
  | reflect.Int | reflect.Uint | reflect.Uintptr => 64
  | reflect.Int8 | reflect.Uint8 => 8
  | reflect.Int16 | reflect.Uint16 => 16
  | reflect.Int32 | reflect.Uint32 | reflect.Float32 => 32
  | reflect.Int64 | reflect.Uint64 | reflect.Float64 | reflect.Complex64 => 64
  | reflect.Complex128 => 128
  | _ => 0
  end.

Definition struct_fields (t : rtype) : list StructField :=
  match underlying t with
  | Some (TStruct fs) => fs
  | _ => []
  end.

Definition elem_type (t : rtype) : option rtype :=
  match underlying t with
  | Some (TPtr e) | Some (TSlice e) | Some (TArray _ e) => Some e
  | _ => None
  end.

Definition ValueOf (obj : iface) : Value :=
  match obj with
  | None => ZeroValue
  | Some (t, v) => Imm t v flag0
  end.

Definition Kind (v : Value) : reflect.Kind :=
  match v with
  | ZeroValue => reflect.Invalid
  | Imm t _ _ | Ref t _ _ => kind_of t
  end.

Definition Type_ (v : Value) : outcome rtype :=
  match v with
  | ZeroValue => Abort (GoPanic "reflect: call of reflect.Value.Type on zero Value")
  | Imm t _ _ | Ref t _ _ => Ret t
  end.

Definition flag_of (v : Value) : flag :=
  match v with
  | ZeroValue => flag0
  | Imm _ _ fl | Ref _ _ fl => fl
  end.

(** The Go value a [reflect.Value] stands for, in the current store. *)
Definition value_of (v : Value) (h : heap) : outcome value :=
  match v with
  | ZeroValue => Abort (GoPanic "reflect: call on zero Value")
  | Imm _ x _ => Ret x
  | Ref _ l _ => match load h l with
                 | Some x => Ret x
                 | None => Abort IllTyped
                 end
  end.

Definition CanSet (v : Value) : bool :=
  match v with
  | Ref _ _ fl => negb (flagRO fl)
  | _ => false
  end.

(** Go panics on the zero Value; the scanner only asks this of the result of
    [Addr], which is never the zero Value. *)
Definition CanInterface (v : Value) : bool :=
  match v with
  | ZeroValue => false
  | Imm _ _ fl | Ref _ _ fl => negb (flagRO fl)
  end.

Definition IsNil (v : Value) (h : heap) : outcome bool :=
  match value_of v h with
  | Ret (VPtr None) | Ret (VSlice None) | Ret (VIface None) => Ret true
  | Ret (VPtr (Some _)) | Ret (VSlice (Some _)) | Ret (VIface (Some _)) => Ret false
  | Ret (VOpaque _) => Ret false
  | Ret _ => Abort (GoPanic "reflect: call of reflect.Value.IsNil on a value that cannot be nil")
  | Abort r => Abort r
  end.

(** [Value.Elem]: the variable a pointer points to (addressable, read-only
    bits kept), or the value inside an interface. *)
Definition Elem (v : Value) (h : heap) : outcome Value :=
  match v with
  | ZeroValue => Abort (GoPanic "reflect: call of reflect.Value.Elem on zero Value")
  | Imm t _ fl | Ref t _ fl =>
      match kind_of t with
      | reflect.Ptr =>
          match value_of v h with
          | Ret (VPtr None) => Ret ZeroValue
          | Ret (VPtr (Some l)) =>
              match elem_type t with
              | Some e => Ret (Ref e l fl)
              | None => Abort IllTyped
              end
          | Ret _ => Abort IllTyped
          | Abort r => Abort r
          end
      | reflect.Interface =>
          match value_of v h with
          | Ret (VIface None) => Ret ZeroValue
          | Ret (VIface (Some (t', x))) => Ret (Imm t' x (Flag (flagRO fl) false))
          | Ret _ => Abort IllTyped
          | Abort r => Abort r
          end
      | _ => Abort (GoPanic "reflect: call of reflect.Value.Elem on a value that is neither pointer nor interface")
      end
  end.

Definition NumField (v : Value) : nat :=
  match v with
  | ZeroValue => 0%nat
  | Imm t _ _ | Ref t _ _ => length (struct_fields t)
  end.

(** [Value.Field i] of a struct: the field inherits the sticky read-only bit
    and addressability of the struct, and an unexported field is read-only
    (embedded: [flagEmbedRO], else [flagStickyRO]). *)
Definition field_flag (parent : flag) (sf : StructField) : flag :=
  if IsExported sf then Flag (flagStickyRO parent) false
  else if sfAnonymous sf then Flag (flagStickyRO parent) true
  else Flag true false.

Definition Field (v : Value) (i : nat) : outcome Value :=
  match v with
  | ZeroValue => Abort (GoPanic "reflect: call of reflect.Value.Field on zero Value")
  | Imm t x fl =>
      match struct_fields t !! i with
      | None => Abort (GoPanic "reflect: Field index out of range")
      | Some sf =>
          match get_path x [i] with
          | Some c => Ret (Imm (sfType sf) c (field_flag fl sf))
          | None => Abort IllTyped
          end
      end
  | Ref t l fl =>
      match struct_fields t !! i with
      | None => Abort (GoPanic "reflect: Field index out of range")
      | Some sf => Ret (Ref (sfType sf) (Loc (base l) (path l ++ [i])) (field_flag fl sf))
      end
  end.

(** [Value.Addr]: a pointer to an addressable variable, read-only bits kept. *)
Definition Addr (v : Value) : outcome Value :=
  match v with
  | Ref t l fl => Ret (Imm (TPtr t) (VPtr (Some l)) fl)
  | _ => Abort (GoPanic "reflect.Value.Addr of unaddressable value")
  end.

(** [Value.Interface]: the value boxed as [interface{}]; for a value of
    interface kind, the interface's own contents. *)
Definition Interface (v : Value) (h : heap) : outcome iface :=
  match v with
  | ZeroValue => Abort (GoPanic "reflect: call of reflect.Value.Interface on zero Value")
  | Imm t _ fl | Ref t _ fl =>
      if flagRO fl
      then Abort (GoPanic "reflect.Value.Interface: cannot return value obtained from unexported field or method")
      else match value_of v h with
           | Ret x =>
               match kind_of t, x with
               | reflect.Interface, VIface d => Ret d
               | reflect.Interface, _ => Abort IllTyped
               | _, _ => Ret (Some (t, x))
               end
           | Abort r => Abort r
           end
  end.

End Reflect.

(** ** The Go standard library functions the package calls

    Go strings are byte sequences; a [string] here is the sequence of its
    bytes. *)

Definition byte_of (c : ascii) : Z := Z.of_N (N_of_ascii c).

Definition is_digit (c : ascii) : bool := (48 <=? byte_of c) && (byte_of c <=? 57).

(** [lower c = c | ('x' - 'X')] of strconv. *)
Definition lower (c : ascii) : Z := Z.lor (byte_of c) 32.

Fixpoint rev_string (acc s : string) : string :=
  match s with
  | EmptyString => acc
  | String c s' => rev_string (String c acc) s'
  end.

Module strings.

(** [strings.Split s sep] for a separator of one byte: the pieces between
    the occurrences of [sep]; a string without [sep] is its only piece. *)
Fixpoint Split (s : string) (sep : ascii) : list string :=
  match s with
  | EmptyString => [EmptyString]
  | String c s' =>
      if Ascii.eqb c sep then EmptyString :: Split s' sep
      else match Split s' sep with
           | p :: ps => String c p :: ps
           | [] => [String c EmptyString]
           end
  end.

(** The bytes '\t', '\n', '\v', '\f', '\r' and ' '. *)
Definition asciiSpace (c : ascii) : bool :=
  let b := byte_of c in ((9 <=? b) && (b <=? 13)) || (b =? 32).

(** UTF-8 encodings of the other runes of [unicode.IsSpace]: U+0085 and
    U+00A0 (two bytes); U+1680, U+2000..U+200A, U+2028, U+2029, U+202F,
    U+205F and U+3000 (three bytes). *)
Definition space2 (c1 c2 : ascii) : bool :=
  (byte_of c1 =? 194) && ((byte_of c2 =? 133) || (byte_of c2 =? 160)).

Definition space3 (c1 c2 c3 : ascii) : bool :=
  let a := byte_of c1 in let b := byte_of c2 in let c := byte_of c3 in
  ((a =? 225) && (b =? 154) && (c =? 128))
  || ((a =? 226) && (b =? 128)
      && (((128 <=? c) && (c <=? 138)) || (c =? 168) || (c =? 169) || (c =? 175)))
  || ((a =? 226) && (b =? 129) && (c =? 159))
  || ((a =? 227) && (b =? 128) && (c =? 128)).

(** Drop the white-space runes at the front; [m2] and [m3] recognise the
    two- and three-byte ones in the order the bytes are met. *)
Fixpoint trim_front (m2 : ascii -> ascii -> bool)
    (m3 : ascii -> ascii -> ascii -> bool) (s : string) : string :=
  match s with
  | EmptyString => EmptyString
  | String c1 s1 =>
      if asciiSpace c1 then trim_front m2 m3 s1
      else match s1 with
           | EmptyString => s
           | String c2 s2 =>
               if m2 c1 c2 then trim_front m2 m3 s2
               else match s2 with
                    | EmptyString => s
                    | String c3 s3 =>
                        if m3 c1 c2 c3 then trim_front m2 m3 s3 else s
                    end
           end
  end.

Definition TrimLeftSpace (s : string) : string := trim_front space2 space3 s.

Definition TrimRightSpace (s : string) : string :=
  rev_string EmptyString
    (trim_front (fun a b => space2 b a) (fun a b c => space3 c b a)
       (rev_string EmptyString s)).

(** [strings.TrimSpace]: all leading and trailing white space, as defined by
    Unicode, removed. *)
Definition TrimSpace (s : string) : string := TrimRightSpace (TrimLeftSpace s).

End strings.

Module strconv.

Definition syntaxError (fn str : string) : error := NumError fn str "invalid syntax".
Definition rangeError (fn str : string) : error := NumError fn str "value out of range".

Definition ParseBool (str : string) : bool + error :=
  if String.eqb str "1" || String.eqb str "t" || String.eqb str "T"
     || String.eqb str "true" || String.eqb str "TRUE" || String.eqb str "True"
  then inl true
  else if String.eqb str "0" || String.eqb str "f" || String.eqb str "F"
     || String.eqb str "false" || String.eqb str "FALSE" || String.eqb str "False"
  then inl false
  else inr (syntaxError "ParseBool" str).

Definition maxUint64 : Z := 2 ^ 64 - 1.

(** [underscoreOK]: underscores only between digits, or between a base
    prefix and a digit.  [i] is the kind of the previous character:
    ['0'] digit or base prefix, ['_'] underscore, ['^'] start, ['!'] other. *)
Inductive prev_char := pc_start | pc_digit | pc_underscore | pc_other.

Fixpoint underscoreOK_loop (hex : bool) (i : prev_char) (s : string) : bool :=
  match s with
  | EmptyString => match i with pc_underscore => false | _ => true end
  | String c s' =>
      if is_digit c || (hex && (97 <=? lower c) && (lower c <=? 102))
      then underscoreOK_loop hex pc_digit s'
      else if byte_of c =? 95
      then match i with
           | pc_digit => underscoreOK_loop hex pc_underscore s'
           | _ => false
           end
      else match i with
           | pc_underscore => false
           | _ => underscoreOK_loop hex pc_other s'
           end
  end.

Definition underscoreOK (s : string) : bool :=
  let s := match s with
           | String c s' => if (byte_of c =? 45) || (byte_of c =? 43) then s' else s
           | _ => s
           end in
  match s with
  | String c0 (String c1 s') =>
      if (byte_of c0 =? 48)
         && ((lower c1 =? 98) || (lower c1 =? 111) || (lower c1 =? 120))
      then underscoreOK_loop (lower c1 =? 120) pc_digit s'
      else underscoreOK_loop false pc_start s
  | _ => underscoreOK_loop false pc_start s
  end.

(** The digit loop of [ParseUint]: [n] is the value so far, [us] whether an
    underscore was seen. *)
Fixpoint ParseUint_loop (s0 : string) (base0 : bool) (base cutoff maxVal : Z)
    (n : Z) (us : bool) (s : string) : Z * bool + error :=
  match s with
  | EmptyString => inl (n, us)
  | String c s' =>
      if (byte_of c =? 95) && base0
      then ParseUint_loop s0 base0 base cutoff maxVal n true s'
      else
        let d := if is_digit c then Some (byte_of c - 48)
                 else if (97 <=? lower c) && (lower c <=? 122)
                 then Some (lower c - 97 + 10)
                 else None in
        match d with
        | None => inr (syntaxError "ParseUint" s0)
        | Some d =>
            if d >=? base then inr (syntaxError "ParseUint" s0)
            else if n >=? cutoff then inr (rangeError "ParseUint" s0)
            else
              let n := n * base in
              let n1 := (n + d) mod 2 ^ 64 in
              if (n1 <? n) || (n1 >? maxVal) then inr (rangeError "ParseUint" s0)
              else ParseUint_loop s0 base0 base cutoff maxVal n1 us s'
        end
  end.

(** [strconv.ParseUint s 0 bitSize] (base 0: the base is taken from the
    prefix [0b], [0o], [0x] or [0], and underscores may separate digits),
    for [1 <= bitSize <= 64]. *)
Definition ParseUint0 (s : string) (bitSize : Z) : Z + error :=
  match s with
  | EmptyString => inr (syntaxError "ParseUint" s)
  | String c0 rest =>
      let '(base, digits) :=
        if byte_of c0 =? 48 then
          match rest with
          | String c1 (String c2 r2) =>
              if lower c1 =? 98 then (2, String c2 r2)
              else if lower c1 =? 111 then (8, String c2 r2)
              else if lower c1 =? 120 then (16, String c2 r2)
              else (8, rest)
          | _ => (8, rest)
          end
        else (10, s) in
      let cutoff := maxUint64 / base + 1 in
      let maxVal := 2 ^ bitSize - 1 in
      match ParseUint_loop s true base cutoff maxVal 0 false digits with
      | inr e => inr e
      | inl (n, us) =>
          if us && negb (underscoreOK s) then inr (syntaxError "ParseUint" s)
          else inl n
      end
  end.

Definition is_range_error (e : error) : bool :=
  match e with
  | NumError _ _ err => String.eqb err "value out of range"
  | _ => false
  end.

(** [strconv.ParseInt s 0 bitSize]. *)
Definition ParseInt0 (s0 : string) (bitSize : Z) : Z + error :=
  match s0 with
  | EmptyString => inr (syntaxError "ParseInt" s0)
  | String c rest =>
      let '(neg, s) :=
        if byte_of c =? 43 then (false, rest)
        else if byte_of c =? 45 then (true, rest)
        else (false, s0) in
      let cutoff := 2 ^ (bitSize - 1) in
      let check (un : Z) : Z + error :=
        if negb neg && (un >=? cutoff) then inr (rangeError "ParseInt" s0)
        else if neg && (un >? cutoff) then inr (rangeError "ParseInt" s0)
        else inl (if neg then - un else un) in
      match ParseUint0 s bitSize with
      | inl un => check un
      | inr e =>
          if is_range_error e then check (2 ^ bitSize - 1)
          else inr (syntaxError "ParseInt" s0)
      end
  end.

End strconv.

(** IEEE 754 binary64 arithmetic, for the places where Go computes in
    [float64]. *)
Module f64.
Definition of_Z (z : Z) : float := binary_normalize 53 1024 z 0 false.
Definition mul : float -> float -> float := SFmul 53 1024.
Definition div : float -> float -> float := SFdiv 53 1024.
(** The conversion [uint64(x)] of a non-negative finite [x]: truncation. *)
Definition trunc (x : float) : Z :=
  match x with
  | S754_finite s m e =>
      let v := if 0 <=? e then Z.pos m * 2 ^ e else Z.pos m / 2 ^ (- e) in
      if s then - v else v
  | _ => 0
  end.
End f64.

Module time.

Definition invalid (orig : string) : error :=
  timeError "time: invalid duration %q" [orig].

(** [leadingInt]: the leading [0-9]* of [s] as a number, and the rest. *)
Fixpoint leadingInt (x : Z) (s : string) : option (Z * string) :=
  match s with
  | EmptyString => Some (x, s)
  | String c s' =>
      if negb (is_digit c) then Some (x, s)
      else if x >? 2 ^ 63 / 10 then None
      else let x := x * 10 + byte_of c - 48 in
           if x >? 2 ^ 63 then None else leadingInt x s'
  end.

(** [leadingFraction]: the leading [0-9]* of [s] as the numerator [x] of a
    fraction [x / scale]; digits past the precision of [x] are dropped. *)
Fixpoint leadingFraction (x : Z) (scale : float) (overflow : bool) (s : string)
  : Z * float * string :=
  match s with
  | EmptyString => (x, scale, s)
  | String c s' =>
      if negb (is_digit c) then (x, scale, s)
      else if overflow then leadingFraction x scale true s'
      else if x >? (2 ^ 63 - 1) / 10 then leadingFraction x scale true s'
      else let y := x * 10 + byte_of c - 48 in
           if y >? 2 ^ 63 then leadingFraction x scale true s'
           else leadingFraction y (f64.mul scale (f64.of_Z 10)) false s'
  end.

(** The unit: everything up to the next ['.'] or digit. *)
Fixpoint span_unit (s : string) : string * string :=
  match s with
  | EmptyString => (EmptyString, s)
  | String c s' =>
      if (byte_of c =? 46) || is_digit c then (EmptyString, s)
      else let '(u, r) := span_unit s' in (String c u, r)
  end.

(** U+00B5 (micro sign) and U+03BC (Greek mu), in UTF-8. *)
Definition micro : string :=
  String (ascii_of_nat 194) (String (ascii_of_nat 181) EmptyString).
Definition mu : string :=
  String (ascii_of_nat 206) (String (ascii_of_nat 188) EmptyString).

Definition Nanosecond : Z := 1.
Definition Microsecond : Z := 1000 * Nanosecond.
Definition Millisecond : Z := 1000 * Microsecond.
Definition Second : Z := 1000 * Millisecond.
Definition Minute : Z := 60 * Second.
Definition Hour : Z := 60 * Minute.

Definition unitMap (u : string) : option Z :=
  if String.eqb u "ns" then Some Nanosecond
  else if String.eqb u "us" then Some Microsecond
  else if String.eqb u (micro +++ "s") then Some Microsecond
  else if String.eqb u (mu +++ "s") then Some Microsecond
  else if String.eqb u "ms" then Some Millisecond
  else if String.eqb u "s" then Some Second
  else if String.eqb u "m" then Some Minute
  else if String.eqb u "h" then Some Hour
  else None.

(** The loop [for s != ""] of [ParseDuration]: one [number unit] group per
    round; every round consumes at least one byte, which [fuel] counts. *)
Fixpoint ParseDuration_loop (fuel : nat) (orig : string) (d : Z) (s : string)
  : Z + error :=
  match s, fuel with
  | EmptyString, _ => inl d
  | _, O => inr (invalid orig)
  | String c _, S fuel' =>
      if negb ((byte_of c =? 46) || is_digit c) then inr (invalid orig)
      else
        match leadingInt 0 s with
        | None => inr (invalid orig)
        | Some (v, s1) =>
            let pre := negb (String.length s =? String.length s1)%nat in
            let '(f, scale, s2, post) :=
              match s1 with
              | String c1 r =>
                  if byte_of c1 =? 46
                  then let '(f, scale, r') := leadingFraction 0 (f64.of_Z 1) false r in
                       (f, scale, r', negb (String.length r =? String.length r')%nat)
                  else (0, f64.of_Z 1, s1, false)
              | EmptyString => (0, f64.of_Z 1, s1, false)
              end in
            if negb pre && negb post then inr (invalid orig)
            else
              let '(u, s3) := span_unit s2 in
              match u with
              | EmptyString => inr (timeError "time: missing unit in duration %q" [orig])
              | _ =>
                  match unitMap u with
                  | None => inr (timeError "time: unknown unit %q in duration %q" [u; orig])
                  | Some unit =>
                      if v >? 2 ^ 63 / unit then inr (invalid orig)
                      else
                        let v := v * unit in
                        let v := if f >? 0
                                 then v + f64.trunc (f64.mul (f64.of_Z f)
                                                       (f64.div (f64.of_Z unit) scale))
                                 else v in
                        if (f >? 0) && (v >? 2 ^ 63) then inr (invalid orig)
                        else
                          let d := (d + v) mod 2 ^ 64 in
                          if d >? 2 ^ 63 then inr (invalid orig)
                          else ParseDuration_loop fuel' orig d s3
                  end
              end
        end
  end.

(** [time.ParseDuration]: a signed sequence of decimal numbers, each with an
    optional fraction and a unit suffix; the result is in nanoseconds. *)
Definition ParseDuration (orig : string) : Z + error :=
  let '(neg, s) :=
    match orig with
    | String c s' =>
        if (byte_of c =? 45) || (byte_of c =? 43) then (byte_of c =? 45, s')
        else (false, orig)
    | EmptyString => (false, orig)
    end in
  if String.eqb s "0" then inl 0
  else match s with
       | EmptyString => inr (invalid orig)
       | _ =>
           match ParseDuration_loop (String.length s) orig 0 s with
           | inr e => inr e
           | inl d =>
               if neg then inl (- d)
               else if d >? 2 ^ 63 - 1 then inr (invalid orig)
               else inl d
           end
       end.

End time.

(** ** Floating point: [strconv.ParseFloat] and [strconv.FormatFloat] *)
Module atof.

(** The float of precision [prec] and exponent bound [emax] nearest to the
    rational [num / den] (ties to even), with the given sign. *)
Definition round_ratio (prec emax : Z) (neg : bool) (num den : Z) : float :=
  if num =? 0 then S754_zero neg
  else
    let k := Z.max 0 (prec + 2 + Z.log2 den - Z.log2 num) in
    let n := num * 2 ^ k in
    let q := n / den in
    let r := n mod den in
    let l := if r =? 0 then loc_Exact else loc_Inexact (Z.compare (2 * r) den) in
    binary_round_aux prec emax neg q (- k) l.

(** The state of [readFloat] while it reads the mantissa. *)
Record mantissa := Mant {
  sawdot : bool; sawdigits : bool; underscores : bool;
  nd : Z;      (* digits read, leading zeros apart *)
  dp : Z;      (* position of the point *)
  digits : Z   (* the digits read, as a number *)
}.

Fixpoint read_mantissa (hex : bool) (st : mantissa) (s : string) : mantissa * string :=
  match s with
  | EmptyString => (st, s)
  | String c s' =>
      if byte_of c =? 95 then
        read_mantissa hex (Mant (sawdot st) (sawdigits st) true (nd st) (dp st) (digits st)) s'
      else if byte_of c =? 46 then
        if sawdot st then (st, s)
        else read_mantissa hex (Mant true (sawdigits st) (underscores st) (nd st) (nd st) (digits st)) s'
      else if is_digit c then
        if (byte_of c =? 48) && (nd st =? 0)
        then read_mantissa hex (Mant (sawdot st) true (underscores st) (nd st) (dp st - 1) (digits st)) s'
        else read_mantissa hex
               (Mant (sawdot st) true (underscores st) (nd st + 1) (dp st)
                     (digits st * (if hex then 16 else 10) + (byte_of c - 48))) s'
      else if hex && (97 <=? lower c) && (lower c <=? 102) then
        read_mantissa hex
          (Mant (sawdot st) true (underscores st) (nd st + 1) (dp st)
                (digits st * 16 + (lower c - 97 + 10))) s'
      else (st, s)
  end.

(** The digits of the exponent; underscores are skipped and noted. *)
Fixpoint read_exponent (e : Z) (us : bool) (s : string) : Z * bool * string :=
  match s with
  | EmptyString => (e, us, s)
  | String c s' =>
      if byte_of c =? 95 then read_exponent e true s'
      else if is_digit c
      then read_exponent (if e <? 10000 then e * 10 + (byte_of c - 48) else e) us s'
      else (e, us, s)
  end.

(** [readFloat]: sign, base, digits and binary or decimal exponent of the
    number that [s] spells, when all of [s] is a well-formed number. *)
Definition readFloat (s : string) : option (bool * bool * Z * Z) :=
  let '(neg, s1) :=
    match s with
    | String c r => if byte_of c =? 43 then (false, r)
                    else if byte_of c =? 45 then (true, r) else (false, s)
    | EmptyString => (false, s)
    end in
  let '(hex, s2) :=
    match s1 with
    | String c0 (String c1 (String c2 r)) =>
        if (byte_of c0 =? 48) && (lower c1 =? 120) then (true, String c2 r) else (false, s1)
    | _ => (false, s1)
    end in
  let '(st, s3) := read_mantissa hex (Mant false false false 0 0 0) s2 in
  if negb (sawdigits st) then None
  else
    let dp0 := if sawdot st then dp st else nd st in
    let dp1 := if hex then dp0 * 4 else dp0 in
    let ndm := if hex then nd st * 4 else nd st in
    let expChar := if hex then 112 else 101 in
    let after (dp2 : Z) (us : bool) (rest : string) : option (bool * bool * Z * Z) :=
      match rest with
      | EmptyString =>
          if us && negb (strconv.underscoreOK s) then None
          else Some (neg, hex, digits st, if digits st =? 0 then 0 else dp2 - ndm)
      | _ => None
      end in
    match s3 with
    | String c r =>
        if lower c =? expChar then
          let '(esign, r1) :=
            match r with
            | String c' r' => if byte_of c' =? 43 then (1, r')
                              else if byte_of c' =? 45 then (-1, r') else (1, r)
            | EmptyString => (1, r)
            end in
          match r1 with
          | String d _ =>
              if is_digit d
              then let '(e, us, rest) := read_exponent 0 (underscores st) r1 in
                   after (dp1 + e * esign) us rest
              else None
          | EmptyString => None
          end
        else None
    | EmptyString => if hex then None else after dp1 (underscores st) s3
    end.

Fixpoint lower_string (s : string) : string :=
  match s with
  | EmptyString => EmptyString
  | String c s' =>
      String (if (65 <=? byte_of c) && (byte_of c <=? 90)
              then ascii_of_N (Z.to_N (byte_of c + 32)) else c)
             (lower_string s')
  end.

(** [special]: the spellings of the infinities and of NaN. *)
Definition special (s : string) : option float :=
  match s with
  | EmptyString => None
  | String c r =>
      let signed := (byte_of c =? 43) || (byte_of c =? 45) in
      let body := lower_string (if signed then r else s) in
      if String.eqb body "inf" || String.eqb body "infinity"
      then Some (S754_infinity (byte_of c =? 45))
      else if negb signed && String.eqb body "nan" then Some S754_nan
      else None
  end.

(** A float of the 32-bit format, seen as a [float64]. *)
Definition widen (x : float) : float :=
  match x with
  | S754_finite s m e => binary_normalize 53 1024 (if s then Z.neg m else Z.pos m) e s
  | _ => x
  end.

(** [strconv.ParseFloat s bitSize]: the nearest floating-point number of
    the given size (as a [float64]); out of range is an error. *)
Definition ParseFloat (s : string) (bitSize : Z) : float + error :=
  match special s with
  | Some x => inl x
  | None =>
      match readFloat s with
      | None => inr (strconv.syntaxError "ParseFloat" s)
      | Some (neg, hex, d, exp) =>
          let b := if hex then 2 else 10 in
          let '(num, den) := if 0 <=? exp then (d * b ^ exp, 1) else (d, b ^ (- exp)) in
          let x := if bitSize =? 32 then round_ratio 24 128 neg num den
                   else round_ratio 53 1024 neg num den in
          match x with
          | S754_infinity _ => inr (strconv.rangeError "ParseFloat" s)
          | _ => inl (widen x)
          end
      end
  end.

End atof.

Module ftoa.

(** A positive number as decimal digits. *)
Definition digit_string (n : Z) : string :=
  DecimalString.NilZero.string_of_uint (N.to_uint (Z.to_N n)).

(** The position of the decimal point of [num / den > 0]: the [dp] with
    [10^(dp-1) <= num/den < 10^dp]. *)
Fixpoint point_down (fuel : nat) (num den : Z) (k : Z) : Z :=
  match fuel with
  | O => k
  | S f => if num * 10 ^ k >=? den then 1 - k else point_down f num den (k + 1)
  end.

Definition point (num den : Z) : Z :=
  if num >=? den then Z.of_nat (String.length (digit_string (num / den)))
  else point_down 400 num den 1.

(** The shortest decimal, of at most [n] digits counted from [fuel], in the
    interval between [lo] and [up] (bounds included when [incl]) around
    [num / den]; among two of the same length, the nearer one, or the even
    one.  All quantities are fractions over [den]; [dp] is [point]. *)
Fixpoint shortest (fuel : nat) (incl : bool) (num lo up den dp n : Z) : Z * Z :=
  let sn := 10 ^ Z.max 0 (n - dp) in     (* the unit of the n-th digit is sd / sn *)
  let sd := 10 ^ Z.max 0 (dp - n) in
  let d := (num * sn) / (den * sd) in
  let down := d * den * sd in             (* times sn *)
  let upv := (d + 1) * den * sd in
  let okdown := (lo * sn <? down) || (incl && (lo * sn =? down)) in
  let okup := (upv <? up * sn) || (incl && (upv =? up * sn)) in
  let nearest :=
    match Z.compare (2 * num * sn) (down + upv) with
    | Lt => d
    | Gt => d + 1
    | Eq => if Z.even d then d else d + 1
    end in
  match fuel with
  | O => (d, n)
  | S f =>
      if okdown && okup then (nearest, n)
      else if okdown then (d, n)
      else if okup then (d + 1, n)
      else shortest f incl num lo up den dp (n + 1)
  end.

Fixpoint strip_zeros (fuel : nat) (d : Z) : Z :=
  match fuel with
  | O => d
  | S f => if (d mod 10 =? 0) && negb (d =? 0) then strip_zeros f (d / 10) else d
  end.

Fixpoint zeros (n : nat) : string :=
  match n with O => EmptyString | S n' => String "0" (zeros n') end.

Fixpoint drop_string (n : nat) (s : string) : string :=
  match n, s with
  | S n', String _ s' => drop_string n' s'
  | _, _ => s
  end.

Fixpoint take_string (n : nat) (s : string) : string :=
  match n, s with
  | S n', String c s' => String c (take_string n' s')
  | _, _ => EmptyString
  end.

(** [%e]: [d.ddde+xx], and [%f]: the digits with the point in place. *)
Definition fmtE (digs : string) (dp : Z) : string :=
  let e := dp - 1 in
  let es := digit_string (Z.abs e) in
  take_string 1 digs
  +++ (if (1 <? String.length digs)%nat then "." +++ drop_string 1 digs else EmptyString)
  +++ "e" +++ (if e <? 0 then "-" else "+")
  +++ (if (String.length es <? 2)%nat then "0" +++ es else es).

Definition fmtF (digs : string) (dp : Z) : string :=
  let nd := Z.of_nat (String.length digs) in
  if dp <=? 0 then
    "0." +++ zeros (Z.to_nat (- dp)) +++ digs
  else if nd <=? dp then digs +++ zeros (Z.to_nat (dp - nd))
  else take_string (Z.to_nat dp) digs +++ "." +++ drop_string (Z.to_nat dp) digs.

(** [strconv.FormatFloat f 'g' (-1) bitSize]: the shortest decimal that
    reads back as [f]; in [%e] form when the exponent is below -4 or at
    least 6, the precision assumed for the shortest form. *)
Definition FormatFloat (f : float) (bitSize : Z) : string :=
  let '(prec, emax) := if bitSize =? 32 then (24, 128) else (53, 1024) in
  let emin := 3 - emax - prec in
  match f with
  | S754_nan => "NaN"
  | S754_infinity s => if s then "-Inf" else "+Inf"
  | S754_zero s => if s then "-0" else "0"
  | S754_finite s m0 e0 =>
      match binary_normalize prec emax (Z.pos m0) e0 false with
      | S754_finite _ m e =>
          let m := Z.pos m in
          (* the neighbours are half a unit away, the lower one a quarter
             when [m] is a power of two above the smallest exponent *)
          let narrow := (m =? 2 ^ (prec - 1)) && (emin <? e) in
          (* everything in units of 2^(e-2) *)
          let num := 4 * m in
          let up := 4 * m + 2 in
          let lo := if narrow then 4 * m - 1 else 4 * m - 2 in
          let '(num, lo, up, den) :=
            if 0 <=? e - 2 then (num * 2 ^ (e - 2), lo * 2 ^ (e - 2), up * 2 ^ (e - 2), 1)
            else (num, lo, up, 2 ^ (2 - e)) in
          let dp := point num den in
          let '(d, n) := shortest 20 (Z.even m) num lo up den dp 1 in
          let dp := if d =? 10 ^ n then dp + 1 else dp in
          let digs := digit_string (strip_zeros 20 d) in
          let body := if (dp - 1 <? -4) || (dp - 1 >=? 6) then fmtE digs dp else fmtF digs dp in
          if s then "-" +++ body else body
      | _ => "NaN"
      end
  end.

End ftoa.

(** ** Regular expressions

    The fragment of Go's [regexp] syntax that the package's pattern uses,
    with leftmost-first (backtracking-order) submatch semantics. *)
Module regexp.

Inductive Regexp :=
| Class (p : ascii -> bool)          (* one character of a class *)
| Cat (a b : Regexp)                 (* a b *)
| Quest (r : Regexp)                 (* r?  greedy *)
| Plus (r : Regexp)                  (* r+  greedy *)
| Group (n : nat) (r : Regexp).      (* ( r ), capture number n *)

(** The text captured by each group so far (later entries win). *)
Definition captures := list (nat * string).

Fixpoint take_string (n : nat) (s : string) : string :=
  match n, s with
  | S n', String c s' => String c (take_string n' s')
  | _, _ => EmptyString
  end.

(** [run r s cs k]: match [r] at the front of [s], trying the alternatives
    in priority order, and hand the rest of the input to [k]; the first
    alternative on which [k] succeeds decides. *)
Fixpoint run (r : Regexp) (s : string) (cs : captures)
    (k : string -> captures -> option captures) {struct r} : option captures :=
  match r with
  | Class p =>
      match s with
      | String c s' => if p c then k s' cs else None
      | EmptyString => None
      end
  | Cat a b => run a s cs (fun s' cs' => run b s' cs' k)
  | Quest a =>
      match run a s cs k with
      | Some res => Some res
      | None => k s cs
      end
  | Plus a =>
      (* after one [a], as many more as possible; an iteration that
         consumes nothing ends the repetition *)
      let fix more (fuel : nat) (s1 : string) (cs1 : captures) : option captures :=
        match fuel with
        | O => k s1 cs1
        | S fuel' =>
            match run a s1 cs1
                    (fun s2 cs2 =>
                       if (String.length s2 <? String.length s1)%nat
                       then more fuel' s2 cs2 else None) with
            | Some res => Some res
            | None => k s1 cs1
            end
        end in
      run a s cs (more (String.length s))
  | Group n a =>
      run a s cs (fun s' cs' =>
        k s' ((n, take_string (String.length s - String.length s') s) :: cs'))
  end.

Fixpoint lookup_capture (n : nat) (cs : captures) : string :=
  match cs with
  | [] => EmptyString
  | (m, t) :: cs' => if Nat.eqb m n then t else lookup_capture n cs'
  end.

(** Try the start positions from left to right. *)
Fixpoint search (r : Regexp) (s : string) : option captures :=
  match run (Group 0 r) s [] (fun _ cs => Some cs) with
  | Some cs => Some cs
  | None => match s with
            | EmptyString => None
            | String _ s' => search r s'
            end
  end.

(** [Regexp.FindStringSubmatch] for a pattern with [ngroups] groups:
    the leftmost match and the text of each group (empty for a group that
    took no part), or nil. *)
Definition FindStringSubmatch (r : Regexp) (ngroups : nat) (s : string)
  : option (list string) :=
  match search r s with
  | None => None
  | Some cs => Some (map (fun n => lookup_capture n cs) (seq 0 (S ngroups)))
  end.

(** [\w]: [0-9A-Za-z_]. *)
Definition word (c : ascii) : bool :=
  let b := byte_of c in
  ((48 <=? b) && (b <=? 57)) || ((65 <=? b) && (b <=? 90))
  || ((97 <=? b) && (b <=? 122)) || (b =? 95).

Definition is_byte (b : Z) (c : ascii) : bool := byte_of c =? b.

End regexp.

(** The pattern [((\w+)\/)?([\w\W\d]+)] of [ParseHard].  The class
    [[\w\W\d]] holds every character. *)
Definition dsn_pattern : regexp.Regexp :=
  regexp.Cat
    (regexp.Quest
       (regexp.Group 1
          (regexp.Cat (regexp.Group 2 (regexp.Plus (regexp.Class regexp.word)))
                      (regexp.Class (regexp.is_byte 47)))))
    (regexp.Group 3
       (regexp.Plus
          (regexp.Class (fun c => regexp.word c || negb (regexp.word c) || is_digit c)))).

(** ** [fmt.Sprint] of one operand (the verb [%v]) *)
Module fmt.
Section Sprint.
Context (E : Env) (h : heap).

Definition fmtInteger (n : Z) : string :=
  DecimalString.NilZero.string_of_int (Z.to_int n).

(** The model gives every variable an arbitrary non-zero address. *)
Definition address (l : loc) : N :=
  824633720832 + 65536 * N.of_nat (base l)
  + 8 * N.of_nat (fold_right (fun i a => S (i + a)) O (path l)).

Definition fmtPointer (l : loc) : string :=
  "0x" +++ HexadecimalString.NilZero.string_of_uint (N.to_hex_uint (address l)).

Definition nilAngleString : string := "<nil>".

(** [printValue] at depth greater than zero, or at depth zero when [top] is
    set: there the methods of the operand have been tried already.  An
    operand reached through an unexported field cannot be boxed, so its
    methods are not called. *)
Fixpoint printValue (top : bool) (fl : flag) (t : rtype) (x : value) {struct x}
  : string :=
  match (if top || flagRO fl then None else fmt_method E t x h) with
  | Some s => s
  | None =>
      match x with
      | VBool b => if b then "true" else "false"
      | VInt n => fmtInteger n
      | VUint n => fmtInteger n
      | VFloat f =>
          strconv_FormatFloat E f
            (match kind_of E t with reflect.Float32 => 32 | _ => 64 end)
      | VString s => s
      | VPtr None => nilAngleString
      | VPtr (Some l) => fmtPointer l
      | VSlice None => "[]"
      | VSlice (Some es) | VArr es =>
          let et := match elem_type E t with
                    | Some e => e
                    | None => TBasic reflect.Invalid
                    end in
          "[" +++ String.concat " " (map (printValue false fl et) es) +++ "]"
      | VStruct fs =>
          let fix fields (sfs : list StructField) (vs : list value) {struct vs}
            : list string :=
            match vs with
            | [] => []
            | v :: vs' =>
                match sfs with
                | sf :: sfs' =>
                    printValue false (field_flag fl sf) (sfType sf) v :: fields sfs' vs'
                | [] => printValue false fl (TBasic reflect.Invalid) v :: fields [] vs'
                end
            end in
          "{" +++ String.concat " " (fields (struct_fields E t) fs) +++ "}"
      | VIface None => nilAngleString
      | VIface (Some (t', x')) => printValue false (Flag (flagRO fl) false) t' x'
      | VFile _ => "{0xc000010000}"   (* an os.File holds one pointer *)
      | VDB _ _ => "{...}"            (* the many fields of an sql.DB, abridged *)
      | VOpaque text => text
      end
  end.

(** The operand types [printArg] formats without looking for methods. *)
Definition simple_type (t : rtype) : bool :=
  match t with
  | TBasic reflect.Bool | TBasic reflect.String
  | TBasic reflect.Int | TBasic reflect.Int8 | TBasic reflect.Int16
  | TBasic reflect.Int32 | TBasic reflect.Int64
  | TBasic reflect.Uint | TBasic reflect.Uint8 | TBasic reflect.Uint16
  | TBasic reflect.Uint32 | TBasic reflect.Uint64 | TBasic reflect.Uintptr
  | TBasic reflect.Float32 | TBasic reflect.Float64
  | TBasic reflect.Complex64 | TBasic reflect.Complex128
  | TSlice (TBasic reflect.Uint8) => true
  | _ => false
  end.

(** [fmt.Sprint(a)]: [printArg] with verb [v].  A pointer to an array,
    slice, struct or map is followed once, at the top level only. *)
Definition Sprint (a : iface) : string :=
  match a with
  | None => nilAngleString
  | Some (t, x) =>
      if simple_type t then printValue true flag0 t x
      else
        match fmt_method E t x h with
        | Some s => s
        | None =>
            match x, elem_type E t with
            | VPtr (Some l), Some e =>
                match kind_of E e, load h l with
                | (reflect.Array | reflect.Slice | reflect.Struct | reflect.Map), Some px =>
                    "&" +++ printValue false flag0 e px
                | _, _ => fmtPointer l
                end
            | _, _ => printValue true flag0 t x
            end
        end
  end.

End Sprint.
End fmt.

(** ** Writing through a [reflect.Value] *)

Section Setters.
Context (E : Env).

(** The zero value of a type; [n] bounds the nesting of declared types. *)
Definition zero_basic (k : reflect.Kind) : value :=
  match k with
  | reflect.Bool => VBool false
  | reflect.Int | reflect.Int8 | reflect.Int16 | reflect.Int32 | reflect.Int64 => VInt 0
  | reflect.Uint | reflect.Uint8 | reflect.Uint16 | reflect.Uint32
  | reflect.Uint64 | reflect.Uintptr => VUint 0
  | reflect.Float32 | reflect.Float64 => VFloat (S754_zero false)
  | reflect.Complex64 | reflect.Complex128 => VOpaque "(0+0i)"
  | reflect.String => VString EmptyString
  | _ => VPtr None
  end.

Fixpoint Zero (n : nat) (t : rtype) {struct n} : option value :=
  match n with
  | O => None
  | S n' =>
      match t with
      | TBasic k => Some (zero_basic k)
      | TNamed p nm =>
          match typedecl E p nm with
          | Some u => Zero n' u
          | None => None
          end
      | TPtr _ => Some (VPtr None)
      | TSlice _ => Some (VSlice None)
      | TArray len e =>
          match Zero n' e with
          | Some z => Some (VArr (replicate len z))
          | None => None
          end
      | TStruct fs =>
          let fix all (fs : list StructField) : option (list value) :=
            match fs with
            | [] => Some []
            | sf :: fs' =>
                match Zero n' (sfType sf), all fs' with
                | Some z, Some zs => Some (z :: zs)
                | _, _ => None
                end
            end in
          match all fs with
          | Some zs => Some (VStruct zs)
          | None => None
          end
      | TInterface _ => Some (VIface None)
      | TOther _ z => Some (VOpaque z)
      end
  end.

(** [mustBeAssignable]: the variable behind a settable [Value]. *)
Definition mustBeAssignable (fv : Value) : outcome loc :=
  match fv with
  | Ref _ l fl =>
      if flagRO fl
      then Abort (GoPanic "reflect: reflect.Value.Set using value obtained using unexported field")
      else Ret l
  | _ => Abort (GoPanic "reflect: reflect.Value.Set using unaddressable value")
  end.

Definition assign (fv : Value) (x : value) : M unit :=
  fun h =>
    match mustBeAssignable fv with
    | Abort r => (Abort r, h)
    | Ret l => match store h l x with
               | Some h' => (Ret tt, h')
               | None => (Abort IllTyped, h)
               end
    end.

(** The conversions [int8(x)] ... [int64(x)] and [uint8(x)] ... [uint64(x)]
    that [SetInt] and [SetUint] apply for the kind of the destination. *)
Definition wrap_signed (bits x : Z) : Z :=
  (x + 2 ^ (bits - 1)) mod 2 ^ bits - 2 ^ (bits - 1).
Definition wrap_unsigned (bits x : Z) : Z := x mod 2 ^ bits.

Definition type_of (fv : Value) : rtype :=
  match fv with
  | ZeroValue => TBasic reflect.Invalid
  | Imm t _ _ | Ref t _ _ => t
  end.

Definition SetBool (fv : Value) (x : bool) : M unit := assign fv (VBool x).
Definition SetInt (fv : Value) (x : Z) : M unit :=
  assign fv (VInt (wrap_signed (Bits E (type_of fv)) x)).
Definition SetUint (fv : Value) (x : Z) : M unit :=
  assign fv (VUint (wrap_unsigned (Bits E (type_of fv)) x)).
(** [strconv.ParseFloat] with bit size 32 returns a number that converts to
    [float32] without changing its value, so [SetFloat] stores it as it is. *)
Definition SetFloat (fv : Value) (x : float) : M unit := assign fv (VFloat x).
Definition SetString (fv : Value) (x : string) : M unit := assign fv (VString x).

(** [fv.Set(x)]: [x] must not come from an unexported field; a destination
    of interface kind receives [x] boxed with its type. *)
Definition Set_ (fv x : Value) : M unit :=
  fun h =>
    match mustBeAssignable fv with
    | Abort r => (Abort r, h)
    | Ret _ =>
        if flagRO (flag_of x)
        then (Abort (GoPanic "reflect: reflect.Value.Set using value obtained using unexported field"), h)
        else match value_of x h with
             | Abort r => (Abort r, h)
             | Ret vx =>
                 match kind_of E (type_of fv) with
                 | reflect.Interface =>
                     match kind_of E (type_of x), vx with
                     | reflect.Interface, _ => assign fv vx h
                     | _, _ => assign fv (VIface (Some (type_of x, vx))) h
                     end
                 | _ => assign fv vx h
                 end
             end
    end.

(** [reflect.MakeSlice typ len len]: a slice of [len] zero elements.  The
    model keeps the new slice in a fresh cell of the store: its elements
    are variables, as the elements of a Go slice are. *)
Definition MakeSlice (depth : nat) (typ : rtype) (len : nat) : M Value :=
  fun h =>
    match elem_type E typ with
    | None => (Abort (GoPanic "reflect.MakeSlice of non-slice type"), h)
    | Some et =>
        match Zero depth et with
        | None => (Abort OutOfFuel, h)
        | Some z =>
            let '(a, h') := alloc h (VSlice (Some (replicate len z))) in
            (Ret (Ref typ (Loc a []) flag0), h')
        end
    end.

(** [slice.Index i]: the [i]-th element, a variable. *)
Definition Index (v : Value) (i : nat) : M Value :=
  fun h =>
    match v with
    | Ref t l fl =>
        match elem_type E t, load h (Loc (base l) (path l ++ [i])) with
        | Some et, Some _ => (Ret (Ref et (Loc (base l) (path l ++ [i])) (Flag (flagRO fl) false)), h)
        | Some _, None => (Abort (GoPanic "reflect: slice index out of range"), h)
        | None, _ => (Abort IllTyped, h)
        end
    | _ => (Abort IllTyped, h)
    end.

(** ** Files and databases *)

Definition os_File : rtype := TNamed "os" "File".
Definition sql_DB : rtype := TNamed "database/sql" "DB".
Definition io_Reader : rtype := TNamed "io" "Reader".
Definition io_Writer : rtype := TNamed "io" "Writer".
Definition io_ReadWriter : rtype := TNamed "io" "ReadWriter".
Definition io_ReadCloser : rtype := TNamed "io" "ReadCloser".
Definition io_WriteCloser : rtype := TNamed "io" "WriteCloser".
Definition io_ReadWriteCloser : rtype := TNamed "io" "ReadWriteCloser".

(** [os.Open name]: a new [*os.File], or the error of the file system. *)
Definition os_Open_ (name : string) : M (Value + error) :=
  fun h =>
    match os_Open E name with
    | Some err => (Ret (inr err), h)
    | None =>
        let '(a, h') := alloc h (VFile name) in
        (Ret (inl (Imm (TPtr os_File) (VPtr (Some (Loc a []))) flag0)), h')
    end.

(** [sql.Open driver dsn]: a new [*sql.DB], or the error of the driver
    registry. *)
Definition sql_Open_ (driver dsn : string) : M (Value + error) :=
  fun h =>
    match sql_Open E driver dsn with
    | Some err => (Ret (inr err), h)
    | None =>
        let '(a, h') := alloc h (VDB driver dsn) in
        (Ret (inl (Imm (TPtr sql_DB) (VPtr (Some (Loc a []))) flag0)), h')
    end.

End Setters.

(** ** Callbacks and their trace *)

(** The calls the scanner makes to its callbacks, with their arguments. *)
Inductive event :=
| OnStruct (sf : StructField)
| OnProperty (sf : StructField) (v : Value).

(** Scanner code: it reads and writes the store and calls back. *)
Definition T (A : Type) := heap -> outcome A * heap * list event.

Definition retT {A} (a : A) : T A := fun h => (Ret a, h, []).
Definition abortT {A} (r : abort) : T A := fun h => (Abort r, h, []).
Definition bindT {A B} (m : T A) (k : A -> T B) : T B :=
  fun h => match m h with
           | (Ret a, h1, t1) => let '(r, h2, t2) := k a h1 in (r, h2, t1 ++ t2)
           | (Abort r, h1, t1) => (Abort r, h1, t1)
           end.
Definition liftT {A} (o : outcome A) : T A := fun h => (o, h, []).
Definition readT {A} (f : heap -> outcome A) : T A := fun h => (f h, h, []).
(** Calling a callback puts the call on the trace, whatever it returns. *)
Definition call {A} (ev : event) (m : M A) : T A :=
  fun h => let '(r, h') := m h in (r, h', [ev]).

Notation "'let+' x ':=' m 'in' k" := (bindT m (fun x => k))
  (at level 10, x name, m at level 100, k at level 200, only parsing).

(** [for i := from; i < from + n; i++ { body i }], where the body yields
    [Some err] for [return err] and [None] to go on with the next round. *)
Fixpoint for_range (body : nat -> T (option error)) (n from : nat) : T (option error) :=
  match n with
  | O => retT None
  | S n' =>
      let+ err := body from in
      match err with
      | Some e => retT (Some e)
      | None => for_range body n' (S from)
      end
  end.

(** [ErrNoPtr] gets thrown if the inserted object is not a pointer or a
    struct type. *)
Definition ErrNoPtr : error := errorString "insert is not a pointer or a struct".

Definition field_meta (E : Env) (t : rtype) (i : nat) : outcome StructField :=
  match struct_fields E t !! i with
  | Some sf => Ret sf
  | None => Abort (GoPanic "reflect: Field index out of bounds")
  end.

Definition is_Struct (k : reflect.Kind) : bool := reflect.Kind_eqb k reflect.Struct.
Definition is_Ptr (k : reflect.Kind) : bool := reflect.Kind_eqb k reflect.Ptr.

(** The texts for which [Parse] takes a variable to be unset. *)
Definition empty_text_base (s : string) : bool :=
  String.eqb s "false" || String.eqb s "0" || String.eqb s "[]"
  || String.eqb s EmptyString.

Definition empty_text (s : string) : bool :=
  String.eqb s "false" || String.eqb s "0" || String.eqb s "[]"
  || String.eqb s EmptyString || String.eqb s "<nil>".

Definition is_Duration (t : rtype) : bool :=
  String.eqb (PkgPath t) "time" && String.eqb (Name t) "Duration".

(** [for i, part := range parts { body i part }]. *)
Fixpoint range_parts (body : nat -> string -> M (option error)) (i : nat)
    (parts : list string) : M (option error) :=
  match parts with
  | [] => retM None
  | part :: rest =>
      let* err := body i part in
      match err with
      | Some e => retM (Some e)
      | None => range_parts body (S i) rest
      end
  end.

(** The body of the loop over the parts of a list:
    [part = strings.TrimSpace(part); in := slice.Index(i); Parse(part, &in)]. *)
Definition slice_part (E : Env) (Parse : string -> Value -> M (option error))
    (slice : Value) (i : nat) (part : string) : M (option error) :=
  let part := strings.TrimSpace part in
  let* in_ := Index E slice i in
  Parse part in_.

(** ** The latest revision of the package *)
Module Strct.
Section Strct.
Context (E : Env).

Section Scanner.
Context (onStruct : StructField -> M (option error)).
Context (onProperty : StructField -> Value -> M (option error)).

(** After the switch:
    [if !f.CanSet() { continue }; return-if-error onProperty(t.Field(i), &f)]. *)
Definition after_switch (sf : StructField) (f : Value) : T (option error) :=
  if negb (CanSet f) then retT None
  else call (OnProperty sf f) (onProperty sf f).

(** [case reflect.Struct]: skip the field when its address cannot be
    boxed; else [onStruct], the recursive call, and on to [after_switch]. *)
Definition case_Struct (ScanAll_rec : iface -> T (option error))
    (sf : StructField) (f : Value) : T (option error) :=
  let+ a := liftT (Addr f) in
  if negb (CanInterface a) then retT None
  else
    let+ err := call (OnStruct sf) (onStruct sf) in
    match err with
    | Some e => retT (Some e)
    | None =>
        let+ obj := readT (Interface E a) in
        let+ err := ScanAll_rec obj in
        match err with
        | Some e => retT (Some e)
        | None => after_switch sf f
        end
    end.

(** One round of the loop over the fields of [rv]; [ScanAll_rec] is the
    recursive call. *)
Definition ScanAll_field (ScanAll_rec : iface -> T (option error))
    (rv : Value) (t : rtype) (i : nat) : T (option error) :=
  let+ f := liftT (Field E rv i) in
  let+ sf := liftT (field_meta E t i) in
  match Kind E f with
  | reflect.Ptr =>
      let+ e := readT (Elem E f) in
      if negb (is_Struct (Kind E e)) then after_switch sf f   (* break *)
      else case_Struct ScanAll_rec sf e                     (* f = f.Elem(); fallthrough *)
  | reflect.Struct => case_Struct ScanAll_rec sf f
  | _ => after_switch sf f
  end.

(** [ScanAll] scans each struct's attribute.  [depth] bounds the nesting of
    the recursive calls: Go has no bound, and a cyclic object makes it
    recurse for ever. *)
Fixpoint ScanAll (depth : nat) (obj : iface) {struct depth} : T (option error) :=
  let rv := ValueOf obj in
  if negb (is_Ptr (Kind E rv)) then retT (Some ErrNoPtr)
  else
    let+ isnil := readT (IsNil rv) in
    if isnil : bool then retT (Some ErrNoPtr)
    else
      let+ rv := readT (Elem E rv) in
      if negb (is_Struct (Kind E rv)) then retT (Some ErrNoPtr)
      else
        let+ t := liftT (Type_ rv) in
        for_range
          (ScanAll_field
             (match depth with
              | O => fun _ => abortT OutOfFuel
              | S d => ScanAll d
              end) rv t)
          (NumField E rv) 0.

End Scanner.

(** [Scan] scans the properties of the given object struct. *)
Definition Scan (onProperty : StructField -> Value -> M (option error))
    (depth : nat) (obj : iface) : T (option error) :=
  ScanAll (fun f => retM None) onProperty depth obj.

(** The body of [Parse], with [ParseHard] passed in. *)
Definition Parse_with (ParseHard : string -> Value -> M (option error))
    (val : string) (fv : Value) : M (option error) :=
  let* a := readM (Interface E fv) in
  let* text := readM (fun h => Ret (fmt.Sprint E h a)) in
  if empty_text text then ParseHard val fv
  else retM None.

Definition is_file_type (t : rtype) : bool :=
  rtype_eqb t (TPtr os_File) || rtype_eqb t io_Reader || rtype_eqb t io_Writer
  || rtype_eqb t io_ReadWriter || rtype_eqb t io_ReadCloser
  || rtype_eqb t io_WriteCloser || rtype_eqb t io_ReadWriteCloser.

(** [m[i]] of the submatches; indexing nil panics. *)
Definition submatch (m : option (list string)) (i : nat) : outcome string :=
  match m with
  | Some ms => match ms !! i with
               | Some s => Ret s
               | None => Abort (GoPanic "index out of range")
               end
  | None => Abort (GoPanic "index out of range")
  end.

(** [ParseHard] sets a string as value to the given value and overrides
    previous values.  [depth] bounds the nesting of the calls for the
    elements of slices. *)
Fixpoint ParseHard (depth : nat) (val : string) (fv : Value) {struct depth}
  : M (option error) :=
  if String.eqb val EmptyString then retM None
  else
    match Kind E fv with
    | reflect.Bool =>
        match strconv.ParseBool val with
        | inr err => retM (Some err)
        | inl v => let* _ := SetBool fv v in retM None
        end
    | reflect.Float32 | reflect.Float64 =>
        match strconv_ParseFloat E val (Bits E (type_of fv)) with
        | inr err => retM (Some err)
        | inl v => let* _ := SetFloat fv v in retM None
        end
    | reflect.Int | reflect.Int8 | reflect.Int16 | reflect.Int32 | reflect.Int64 =>
        if is_Duration (type_of fv) then
          match time.ParseDuration val with
          | inr err => retM (Some err)
          | inl v => let* _ := SetInt E fv v in retM None
          end
        else
          match strconv.ParseInt0 val (Bits E (type_of fv)) with
          | inr err => retM (Some err)
          | inl v => let* _ := SetInt E fv v in retM None
          end
    | reflect.Uint | reflect.Uint8 | reflect.Uint16 | reflect.Uint32 | reflect.Uint64 =>
        match strconv.ParseUint0 val (Bits E (type_of fv)) with
        | inr err => retM (Some err)
        | inl v => let* _ := SetUint E fv v in retM None
        end
    | reflect.String =>
        let* _ := SetString fv val in retM None
    | reflect.Slice =>
        let parts := strings.Split val ";"%char in
        let* slice := MakeSlice E (S depth) (type_of fv) (length parts) in
        let* err :=
          range_parts
            (slice_part E
               (Parse_with (match depth with
                            | O => fun _ _ => abortM OutOfFuel
                            | S d => ParseHard d
                            end)) slice)
            0 parts in
        match err with
        | Some e => retM (Some e)
        | None => let* _ := Set_ E fv slice in retM None
        end
    | reflect.Interface | reflect.Ptr =>
        if is_file_type (type_of fv) then
          let* r := os_Open_ E val in
          match r with
          | inr err => retM (Some err)
          | inl file => let* _ := Set_ E fv file in retM None
          end
        else if rtype_eqb (type_of fv) (TPtr sql_DB) then
          let m := regexp.FindStringSubmatch dsn_pattern 3 val in
          let* dvr := liftO (submatch m 2) in
          let* cs := liftO (submatch m 3) in
          let dvr := if String.eqb dvr EmptyString then "postgres" else dvr in
          let* r := sql_Open_ E dvr cs in
          match r with
          | inr err => retM (Some err)
          | inl db => let* _ := Set_ E fv db in retM None
          end
        else retM None
    | _ => retM None
    end.

(** [Parse] sets a string as value to the reflected value. *)
Definition Parse (depth : nat) (val : string) (fv : Value) : M (option error) :=
  Parse_with (ParseHard depth) val fv.

End Strct.
End Strct.

(** ** The revision of src/base.go *)
Module Base.
Section Base.
Context (E : Env).

Section Scanner.
Context (action : StructField -> Value -> M (option error)).

(** After the switch:
    [if !f.CanSet() { continue }; return-if-error action(t.Field(i), &f)]. *)
Definition after_switch (sf : StructField) (f : Value) : T (option error) :=
  if negb (CanSet f) then retT None
  else call (OnProperty sf f) (action sf f).

(** [case reflect.Struct]: skip the field when its address cannot be
    boxed; else the recursive call, and on to [after_switch]. *)
Definition case_Struct (Scan_rec : iface -> T (option error))
    (sf : StructField) (f : Value) : T (option error) :=
  let+ a := liftT (Addr f) in
  if negb (CanInterface a) then retT None
  else
    let+ obj := readT (Interface E a) in
    let+ err := Scan_rec obj in
    match err with
    | Some e => retT (Some e)
    | None => after_switch sf f
    end.

(** One round of the loop over the fields of [rv]. *)
Definition Scan_field (Scan_rec : iface -> T (option error))
    (rv : Value) (t : rtype) (i : nat) : T (option error) :=
  let+ f := liftT (Field E rv i) in
  let+ sf := liftT (field_meta E t i) in
  match Kind E f with
  | reflect.Ptr =>
      let+ e := readT (Elem E f) in
      if negb (is_Struct (Kind E e)) then after_switch sf f   (* break *)
      else case_Struct Scan_rec sf e                        (* f = f.Elem(); fallthrough *)
  | reflect.Struct => case_Struct Scan_rec sf f
  | _ => after_switch sf f
  end.

(** [Scan] scans each struct's attribute. *)
Fixpoint Scan (depth : nat) (obj : iface) {struct depth} : T (option error) :=
  let rv := ValueOf obj in
  if negb (is_Ptr (Kind E rv)) then retT (Some ErrNoPtr)
  else
    let+ isnil := readT (IsNil rv) in
    if isnil : bool then retT (Some ErrNoPtr)
    else
      let+ rv := readT (Elem E rv) in
      if negb (is_Struct (Kind E rv)) then retT (Some ErrNoPtr)
      else
        let+ t := liftT (Type_ rv) in
        for_range
          (Scan_field
             (match depth with
              | O => fun _ => abortT OutOfFuel
              | S d => Scan d
              end) rv t)
          (NumField E rv) 0.

End Scanner.

(** The body of [Parse], with [ParseHard] passed in. *)
Definition Parse_with (ParseHard : string -> Value -> M (option error))
    (val : string) (fv : Value) : M (option error) :=
  let* a := readM (Interface E fv) in
  let* currVal := readM (fun h => Ret (fmt.Sprint E h a)) in
  if negb (empty_text_base currVal) then retM None
  else ParseHard val fv.

(** [ParseHard] sets a string as value to the given value and overrides
    previous values. *)
Fixpoint ParseHard (depth : nat) (val : string) (fv : Value) {struct depth}
  : M (option error) :=
  if String.eqb val EmptyString then retM None
  else
    match Kind E fv with
    | reflect.Bool =>
        match strconv.ParseBool val with
        | inr err => retM (Some err)
        | inl v => let* _ := SetBool fv v in retM None
        end
    | reflect.Float32 | reflect.Float64 =>
        match strconv_ParseFloat E val (Bits E (type_of fv)) with
        | inr err => retM (Some err)
        | inl v => let* _ := SetFloat fv v in retM None
        end
    | reflect.Int | reflect.Int8 | reflect.Int16 | reflect.Int32 | reflect.Int64 =>
        if is_Duration (type_of fv) then
          match time.ParseDuration val with
          | inr err => retM (Some err)
          | inl v => let* _ := SetInt E fv v in retM None
          end
        else
          match strconv.ParseInt0 val (Bits E (type_of fv)) with
          | inr err => retM (Some err)
          | inl v => let* _ := SetInt E fv v in retM None
          end
    | reflect.Uint | reflect.Uint8 | reflect.Uint16 | reflect.Uint32 | reflect.Uint64 =>
        match strconv.ParseUint0 val (Bits E (type_of fv)) with
        | inr err => retM (Some err)
        | inl v => let* _ := SetUint E fv v in retM None
        end
    | reflect.String =>
        let* _ := SetString fv val in retM None
    | reflect.Slice =>
        let parts := strings.Split val ";"%char in
        let* slice := MakeSlice E (S depth) (type_of fv) (length parts) in
        let* err :=
          range_parts
            (slice_part E
               (Parse_with (match depth with
                            | O => fun _ _ => abortM OutOfFuel
                            | S d => ParseHard d
                            end)) slice)
            0 parts in
        match err with
        | Some e => retM (Some e)
        | None => let* _ := Set_ E fv slice in retM None
        end
    | _ => retM None
    end.

(** [Parse] sets a string as value to the reflected value. *)
Definition Parse (depth : nat) (val : string) (fv : Value) : M (option error) :=
  Parse_with (ParseHard depth) val fv.

End Base.
End Base.

(** ** A concrete environment

    The declarations of the standard library types that the package names,
    [Duration.String], the floating-point routines above, a file system
    holding the given files and a driver registry holding the given
    drivers. *)
Module world.

(** [fmtFrac]: the fraction of [v / 10^prec] without trailing zeros (and
    without the point when it is zero), and the integral part. *)
Fixpoint fmtFrac_loop (prec : nat) (v : Z) (print : bool) (acc : string)
  : string * Z * bool :=
  match prec with
  | O => (acc, v, print)
  | S p =>
      let digit := v mod 10 in
      let print := print || negb (digit =? 0) in
      fmtFrac_loop p (v / 10) print
        (if print then String (ascii_of_N (Z.to_N (48 + digit))) acc else acc)
  end.

Definition fmtFrac (v : Z) (prec : nat) : string * Z :=
  let '(acc, v', print) := fmtFrac_loop prec v false EmptyString in
  (if print then "." +++ acc else acc, v').

(** [time.Duration.String]: [72h3m0.5s]; below one second, [1.5ms]. *)
Definition Duration_String (d : Z) : string :=
  let u := Z.abs d in
  let body :=
    if u <? time.Second then
      if u =? 0 then "0s"
      else if u <? time.Microsecond then ftoa.digit_string u +++ "ns"
      else if u <? time.Millisecond then
        let '(fr, q) := fmtFrac u 3 in ftoa.digit_string q +++ fr +++ time.micro +++ "s"
      else
        let '(fr, q) := fmtFrac u 6 in ftoa.digit_string q +++ fr +++ "ms"
    else
      let '(fr, q) := fmtFrac u 9 in
      let secs := ftoa.digit_string (q mod 60) +++ fr +++ "s" in
      let mins := q / 60 in
      if 0 <? mins then
        let hours := mins / 60 in
        (if 0 <? hours then ftoa.digit_string hours +++ "h" else EmptyString)
        +++ ftoa.digit_string (mins mod 60) +++ "m" +++ secs
      else secs in
  if d <? 0 then "-" +++ body else body.

Definition Duration : rtype := TNamed "time" "Duration".

Definition decls (pkg name : string) : option rtype :=
  if String.eqb pkg "time" && String.eqb name "Duration" then Some (TBasic reflect.Int64)
  else if String.eqb pkg "os" && String.eqb name "File"
  then Some (TStruct [mkStructField "file" "os" (TPtr (TNamed "os" "file"))
                        EmptyString 0 true])
  else if String.eqb pkg "database/sql" && String.eqb name "DB"
  then Some (TStruct [])   (* the fields of sql.DB, all unexported, left out *)
  else if String.eqb pkg "io" && String.eqb name "Reader" then Some (TInterface ["Read"])
  else if String.eqb pkg "io" && String.eqb name "Writer" then Some (TInterface ["Write"])
  else if String.eqb pkg "io" && String.eqb name "ReadWriter"
  then Some (TInterface ["Read"; "Write"])
  else if String.eqb pkg "io" && String.eqb name "ReadCloser"
  then Some (TInterface ["Close"; "Read"])
  else if String.eqb pkg "io" && String.eqb name "WriteCloser"
  then Some (TInterface ["Close"; "Write"])
  else if String.eqb pkg "io" && String.eqb name "ReadWriteCloser"
  then Some (TInterface ["Close"; "Read"; "Write"])
  else None.

(** Of the types above only [time.Duration] has a [String] method; it is
    in the method set of [*time.Duration] too, where a nil receiver makes
    fmt print [<nil>]. *)
Definition methods (t : rtype) (x : value) (h : heap) : option string :=
  if rtype_eqb t Duration then
    match x with VInt n => Some (Duration_String n) | _ => None end
  else if rtype_eqb t (TPtr Duration) then
    match x with
    | VPtr None => Some "<nil>"
    | VPtr (Some l) =>
        match load h l with
        | Some (VInt n) => Some (Duration_String n)
        | _ => None
        end
    | _ => None
    end
  else None.

Definition mem (s : string) (l : list string) : bool := existsb (String.eqb s) l.

(** [program] holds the type declarations of the calling program. *)
Definition go (program : string -> string -> option rtype)
    (files drivers : list string) : Env :=
  {| typedecl := fun pkg name =>
       match program pkg name with
       | Some t => Some t
       | None => decls pkg name
       end;
     fmt_method := methods;
     strconv_ParseFloat := atof.ParseFloat;
     strconv_FormatFloat := ftoa.FormatFloat;
     os_Open := fun name =>
       if mem name files then None
       else Some (PathError "open" name "no such file or directory");
     sql_Open := fun driver dsn =>
       if mem driver drivers then None else Some (sqlUnknownDriver driver) |}.

End world.

(** ** The package's own test, [TestScanAndParse] *)
Module test.

Definition dq : string := String (ascii_of_nat 34) EmptyString.

(** [StructTag.Get key] for tags in the conventional format
    [key:"value" key:"value"] without escapes in the values. *)
Fixpoint until_byte (b : Z) (s : string) : option (string * string) :=
  match s with
  | EmptyString => None
  | String c s' =>
      if byte_of c =? b then Some (EmptyString, s')
      else match until_byte b s' with
           | Some (u, r) => Some (String c u, r)
           | None => None
           end
  end.

Fixpoint Tag_Get (fuel : nat) (tag key : string) : string :=
  match fuel with
  | O => EmptyString
  | S fuel' =>
      match until_byte 58 (strings.TrimLeftSpace tag) with
      | Some (name, String q rest) =>
          if byte_of q =? 34 then
            match until_byte 34 rest with
            | Some (v, rest') => if String.eqb name key then v else Tag_Get fuel' rest' key
            | None => EmptyString
            end
          else EmptyString
      | _ => EmptyString
      end
  end.

Definition tag (v : string) : string := "default:" +++ dq +++ v +++ dq.

Definition testObj : rtype :=
  TStruct
    [ mkStructField "Empty" EmptyString (TBasic reflect.Int) EmptyString 0 false;
      mkStructField "Str" EmptyString (TBasic reflect.String) (tag "test") 1 false;
      mkStructField "shouldNotRead" "strct" (TBasic reflect.String) (tag "SHOULDNOTREAD") 2 false;
      mkStructField "ShouldNotOverWrite" EmptyString (TBasic reflect.String) (tag "override") 3 false;
      mkStructField "Bool" EmptyString (TBasic reflect.Bool) (tag "true") 4 false;
      mkStructField "Flt" EmptyString (TBasic reflect.Float64) (tag "4.5") 5 false;
      mkStructField "Int" EmptyString (TBasic reflect.Int) (tag "4") 6 false;
      mkStructField "Sli" EmptyString (TSlice (TBasic reflect.Int)) (tag "1;2;3") 7 false;
      mkStructField "File" EmptyString io_Reader (tag "./base.go") 8 false ].

Definition program (pkg name : string) : option rtype :=
  if String.eqb pkg "strct" && String.eqb name "testObj" then Some testObj else None.

Definition env : Env := world.go program ["./base.go"] [].

(** [obj := new(testObj); obj.ShouldNotOverWrite = "another test"]. *)
Definition heap0 : heap :=
  [ VStruct [ VInt 0; VString EmptyString; VString EmptyString;
              VString "another test"; VBool false; VFloat (S754_zero false);
              VInt 0; VSlice None; VIface None ] ].

Definition obj : iface :=
  Some (TPtr (TNamed "strct" "testObj"), VPtr (Some (Loc 0%nat []))).

(** The callback of the test. *)
Definition action (sf : StructField) (value : Value) : M (option error) :=
  let tagVal := Tag_Get 8 (sfTag sf) "default" in
  if String.eqb tagVal EmptyString then retM None
  else if String.eqb tagVal "SHOULDNOTREAD" then retM None
  else Strct.Parse env 4 tagVal value.

End test.

(** * The vocabulary of the properties *)

Definition trace_of {A} (x : outcome A * heap * list event) : list event := snd x.

(** Scanner code all of whose callback calls satisfy [P]. *)
Definition calls {A} (P : event -> Prop) (m : T A) : Prop :=
  forall h, Forall P (trace_of (m h)).

(** The roots that are not a reference to a record: nil, a value of another
    kind than pointer, a nil pointer, a pointer to something else than a
    struct. *)
Inductive malformed_root (E : Env) : iface -> Prop :=
| root_nil : malformed_root E None
| root_not_reference t v :
    kind_of E t <> reflect.Ptr -> malformed_root E (Some (t, v))
| root_nil_reference t :
    kind_of E t = reflect.Ptr -> malformed_root E (Some (t, VPtr None))
| root_reference_to_non_record t l e :
    kind_of E t = reflect.Ptr -> elem_type E t = Some e ->
    kind_of E e <> reflect.Struct -> malformed_root E (Some (t, VPtr (Some l))).

Definition ScanAll_rec E onStruct onProperty (depth : nat) : iface -> T (option error) :=
  match depth with
  | O => fun _ => abortT OutOfFuel
  | S d => Strct.ScanAll E onStruct onProperty d
  end.

Definition Scan_rec E action (depth : nat) : iface -> T (option error) :=
  match depth with
  | O => fun _ => abortT OutOfFuel
  | S d => Base.Scan E action d
  end.

(** The rounds [from], ..., [from + n - 1] of the loop of [ScanAll] over
    the fields of the struct variable [l] of type [t], which the root
    points to. *)
Definition ScanAll_rounds E onStruct onProperty (depth : nat) (t : rtype) (l : loc)
    (n from : nat) : T (option error) :=
  for_range
    (Strct.ScanAll_field E onStruct onProperty (ScanAll_rec E onStruct onProperty depth)
       (Ref t l flag0) t)
    n from.

(** The same rounds of the loop of [Scan] of src/base.go. *)
Definition Scan_rounds E action (depth : nat) (t : rtype) (l : loc) (n from : nat)
  : T (option error) :=
  for_range (Base.Scan_field E action (Scan_rec E action depth) (Ref t l flag0) t) n from.

(** A loop that has made the calls [before] and now runs the round
    [round]: when the round returns nil, the rounds [rest] follow in the
    store that it left; else the loop ends with the round. *)
Definition then_round (before : list event) (round : result * heap * list event)
    (rest : T (option error)) : result * heap * list event :=
  match round with
  | (Ret None, h1, calls) =>
      let '(r, h2, after) := rest h1 in (r, h2, before ++ calls ++ after)
  | (r, h1, calls) => (r, h1, before ++ calls)
  end.

(** What every call of a callback satisfies: the field it is about is
    exported, and the [Value] handed to [onProperty] is settable. *)
Definition settable_call (ev : event) : Prop :=
  match ev with
  | OnStruct sf => IsExported sf = true
  | OnProperty sf v => IsExported sf = true /\ CanSet v = true
  end.

(** The [Value] of field [i] of the struct variable [l]. *)
Definition field_value (l : loc) (fl : flag) (i : nat) (sf : StructField) : Value :=
  Ref (sfType sf) (Loc (base l) (path l ++ [i])) (field_flag fl sf).

(** A field that is a reference with no record behind it: a nil pointer,
    or a pointer to something that is not a struct. *)
Inductive no_record_behind (E : Env) (h : heap) : Value -> Prop :=
| nil_reference t l fl :
    kind_of E t = reflect.Ptr -> load h l = Some (VPtr None) ->
    no_record_behind E h (Ref t l fl)
| reference_to_non_record t l fl l' et :
    kind_of E t = reflect.Ptr -> load h l = Some (VPtr (Some l')) ->
    elem_type E t = Some et -> kind_of E et <> reflect.Struct ->
    no_record_behind E h (Ref t l fl).

(** A field [f] with the record [g] behind it: [f] is a struct itself, or
    a non-nil pointer to the struct [g]. *)
Inductive record_behind (E : Env) (h : heap) : Value -> Value -> Prop :=
| direct_record t l fl :
    kind_of E t = reflect.Struct ->
    record_behind E h (Ref t l fl) (Ref t l fl)
| referenced_record t l fl l' et :
    kind_of E t = reflect.Ptr -> load h l = Some (VPtr (Some l')) ->
    elem_type E t = Some et -> kind_of E et = reflect.Struct ->
    record_behind E h (Ref t l fl) (Ref et l' fl).

(** The pointer [f.Addr().Interface()] to the record [g]. *)
Definition pointer_to (g : Value) : iface :=
  match g with
  | Ref t l _ => Some (TPtr t, VPtr (Some l))
  | _ => None
  end.

Definition signed_kind (k : reflect.Kind) : bool :=
  match k with
  | reflect.Int | reflect.Int8 | reflect.Int16 | reflect.Int32 | reflect.Int64 => true
  | _ => false
  end.

(** Store the number [v], or return the error of the conversion:
    [v, err := ...; if err != nil { return err }; fv.SetInt(v); return nil]. *)
Definition set_int_or_fail E (fv : Value) (r : Z + error) (h : heap)
  : result * heap :=
  match r with
  | inr err => (Ret (Some err), h)
  | inl v =>
      match SetInt E fv v h with
      | (Ret _, h') => (Ret None, h')
      | (Abort a, h') => (Abort a, h')
      end
  end.

(** What [ParseHard] amounts to when it opens a database for the variable
    [l]: the error of [sql.Open driver dsn], or else a new [sql.DB] for
    this driver and data source name in a fresh cell, and the variable
    pointing to it. *)
Definition opens_database E (l : loc) (h : heap) (driver dsn : string)
    (res : result * heap) : Prop :=
  match sql_Open E driver dsn with
  | Some err => res = (Ret (Some err), h)
  | None =>
      forall hs, store h l (VPtr (Some (Loc (length h) []))) = Some hs ->
                 res = (Ret None, hs ++ [VDB driver dsn])
  end.

(** [local n m]: run in a store of at least [n] cells, [m] only adds cells
    and leaves the first [n] cells as they are; when it returns a value,
    the value satisfies [Q]. *)
Definition local {A} (n : nat) (Q : A -> Prop) (m : M A) : Prop :=
  forall h r h',
    (n <= length h)%nat -> m h = (r, h') ->
    (length h <= length h')%nat
    /\ (forall a, (a < n)%nat -> h' !! a = h !! a)
    /\ (forall x, r = Ret x -> Q x).

(** A [Value] that does not stand for one of the first [n] cells. *)
Definition based_above (n : nat) (v : Value) : Prop :=
  match v with
  | Ref _ l _ => (n <= base l)%nat
  | _ => True
  end.

Definition any {A} (x : A) : Prop := True.

(** The recursive call of [ParseHard] for the elements of a list. *)
Definition Strct_ParseHard_rec E (depth : nat) : string -> Value -> M (option error) :=
  match depth with
  | O => fun _ _ => abortM OutOfFuel
  | S d => Strct.ParseHard E d
  end.

Definition Base_ParseHard_rec E (depth : nat) : string -> Value -> M (option error) :=
  match depth with
  | O => fun _ _ => abortM OutOfFuel
  | S d => Base.ParseHard E d
  end.

(** The list case of [ParseHard], with the parsing of an element passed in. *)
Definition list_case E (parse : string -> Value -> M (option error))
    (depth : nat) (val : string) (fv : Value) : M (option error) :=
  let parts := strings.Split val ";"%char in
  let* slice := MakeSlice E (S depth) (type_of fv) (length parts) in
  let* err := range_parts (slice_part E parse slice) 0 parts in
  match err with
  | Some e => retM (Some e)
  | None => let* _ := Set_ E fv slice in retM None
  end.

(** The error of an element of the list: the loop over the parts, run on
    the new slice, stops at a part with the error [e], in the store [h1]. *)
Definition element_error E (parse : string -> Value -> M (option error))
    (depth : nat) (val : string) (fv : Value) (h : heap) (e : error) (h1 : heap)
  : Prop :=
  exists slice h0,
    MakeSlice E (S depth) (type_of fv) (length (strings.Split val ";"%char)) h
      = (Ret slice, h0)
    /\ range_parts (slice_part E parse slice) 0 (strings.Split val ";"%char) h0
       = (Ret (Some e), h1).

(** The coercion of a part of the text fails: in the new slice, the loop
    over the parts before the part [k] returns nil and leaves the store
    [hk], in which the coercion of the part [k] into its element returns
    the error [e] and leaves the store [h1]. *)
Definition part_fails E (parse : string -> Value -> M (option error))
    (depth : nat) (val : string) (fv : Value) (h : heap) (e : error) (h1 : heap)
  : Prop :=
  let parts := strings.Split val ";"%char in
  exists slice h0 k part hk,
    MakeSlice E (S depth) (type_of fv) (length parts) h = (Ret slice, h0)
    /\ parts !! k = Some part
    /\ range_parts (slice_part E parse slice) 0 (take k parts) h0 = (Ret None, hk)
    /\ slice_part E parse slice k part hk = (Ret (Some e), h1).

(** The list rule as the description has it: split the text on [;], trim
    each part, coerce each part with [Parse] into an element of a fresh
    sequence of as many zero elements as there are parts, and assign the
    sequence. *)
Fixpoint coerce_each E (parse : string -> Value -> M (option error))
    (fresh : Value) (i : nat) (texts : list string) : M (option error) :=
  match texts with
  | [] => retM None
  | text :: rest =>
      let* element := Index E fresh i in
      let* err := parse text element in
      match err with
      | Some e => retM (Some e)
      | None => coerce_each E parse fresh (S i) rest
      end
  end.

Definition list_rule E (parse : string -> Value -> M (option error))
    (depth : nat) (val : string) (fv : Value) : M (option error) :=
  let texts := map strings.TrimSpace (strings.Split val ";"%char) in
  let* fresh := MakeSlice E (S depth) (type_of fv) (length texts) in
  let* err := coerce_each E parse fresh 0 texts in
  match err with
  | Some e => retM (Some e)
  | None => let* _ := Set_ E fv fresh in retM None
  end.

(** What a part of the text puts into an [int] element that holds zero:
    nothing when the part is empty, else the integer it spells. *)
Definition int_text (text : string) : option Z :=
  if String.eqb text EmptyString then Some 0
  else match strconv.ParseInt0 text 64 with
       | inl n => Some (wrap_signed 64 n)
       | inr _ => None
       end.

Definition int_slice : rtype := TSlice (TBasic reflect.Int).

Module examples.

Definition program (pkg name : string) : option rtype :=
  if String.eqb pkg "main" && String.eqb name "Inner"
  then Some (TStruct [mkStructField "X" EmptyString (TBasic reflect.Int) EmptyString 0 false])
  else if String.eqb pkg "main" && String.eqb name "Outer"
  then Some (TStruct
               [ mkStructField "Name" EmptyString (TBasic reflect.String) EmptyString 0 false;
                 mkStructField "Inner" EmptyString (TNamed "main" "Inner") EmptyString 1 false;
                 mkStructField "Next" EmptyString (TPtr (TNamed "main" "Inner")) EmptyString 2 false;
                 mkStructField "hidden" "main" (TNamed "main" "Inner") EmptyString 3 false ])
  else None.

Definition env : Env := world.go program [] ["mysql"; "postgres"].

Definition Outer : rtype := TNamed "main" "Outer".

(** An [Outer] whose [Next] is nil. *)
Definition heap1 : heap :=
  [ VStruct [ VString EmptyString; VStruct [VInt 0]; VPtr None; VStruct [VInt 0] ] ].

Definition outer : loc := Loc 0%nat [].

Definition sfInner : StructField :=
  mkStructField "Inner" EmptyString (TNamed "main" "Inner") EmptyString 1 false.
Definition sfNext : StructField :=
  mkStructField "Next" EmptyString (TPtr (TNamed "main" "Inner")) EmptyString 2 false.
Definition sfX : StructField :=
  mkStructField "X" EmptyString (TBasic reflect.Int) EmptyString 0 false.

Definition nothing (sf : StructField) : M (option error) := retM None.
Definition nothing2 (sf : StructField) (v : Value) : M (option error) := retM None.

Definition flag_var : Value := Ref (TBasic reflect.Bool) (Loc 0%nat []) flag0.
Definition ints_var : Value := Ref int_slice (Loc 0%nat []) flag0.

End examples.

(** ** What [ParseHard] may write

    A discipline for code that writes the store: [fr_pre] is what is known
    of the store before, [fr_step] relates the store before and after, and
    [fr_dest] tells the [Value]s through which the code may write. *)
Record frame := Frame {
  fr_pre : heap -> Prop;
  fr_step : heap -> heap -> Prop;
  fr_dest : Value -> Prop }.

Record frame_laws (F : frame) : Prop := {
  fr_refl : forall h, fr_step F h h;
  fr_trans : forall h1 h2 h3, fr_step F h1 h2 -> fr_step F h2 h3 -> fr_step F h1 h3;
  fr_keep : forall h h', fr_pre F h -> fr_step F h h' -> fr_pre F h';
  fr_alloc : forall h c, fr_pre F h -> fr_step F h (h ++ [c]);
  fr_fresh : forall h t fl, fr_pre F h -> fr_dest F (Ref t (Loc (length h) []) fl);
  fr_store : forall h t l fl x h',
    fr_pre F h -> fr_dest F (Ref t l fl) -> flagRO fl = false ->
    store h l x = Some h' -> fr_step F h h';
  fr_index : forall t l fl t' i,
    fr_dest F (Ref t l fl) ->
    fr_dest F (Ref t' (Loc (base l) (path l ++ [i])) (Flag (flagRO fl) false)) }.

(** [framed F Q m]: run in a store that [F] knows, [m] changes the store as
    [F] allows; when it returns a value, the value satisfies [Q]. *)
Definition framed {A} (F : frame) (Q : A -> Prop) (m : M A) : Prop :=
  forall h r h',
    fr_pre F h -> m h = (r, h') ->
    fr_step F h h' /\ (forall x, r = Ret x -> Q x).

(** The elements of [slice] may be written through. *)
Definition elements_dest (F : frame) E (slice : Value) : Prop :=
  forall i h in_ h', Index E slice i h = (Ret in_, h') -> fr_dest F in_.

(** Two paths that part ways: from some point on they lead into different
    children. *)
Definition diverge (p q : list nat) : Prop :=
  exists r i j p' q', p = r ++ i :: p' /\ q = r ++ j :: q' /\ i <> j.

(** Two variables that do not overlap: in different cells, or in the same
    cell on paths that part ways. *)
Definition apart (l l2 : loc) : Prop :=
  base l <> base l2 \/ diverge (path l) (path l2).

(** The variable [l'] is [l] or a part of it. *)
Definition inside (l l' : loc) : Prop :=
  base l' = base l /\ exists ext, path l' = path l ++ ext.

(** Writing only inside the variable [l] and in cells from [n] on: the
    variables of the first [n] cells that do not overlap [l] keep their
    values. *)
Definition frame_outside (l : loc) (n : nat) : frame :=
  Frame (fun h => (n <= length h)%nat)
        (fun h h' =>
           (length h <= length h')%nat
           /\ forall l2, (base l2 < n)%nat -> apart l l2 -> load h' l2 = load h l2)
        (fun v => match v with
                  | Ref _ l' _ => (n <= base l')%nat \/ inside l l'
                  | _ => True
                  end).

(** Writing only in cells from [n] on, whatever is tried through read-only
    [Value]s. *)
Definition frame_readonly (n : nat) : frame :=
  Frame (fun h => (n <= length h)%nat)
        (fun h h' =>
           (length h <= length h')%nat
           /\ forall a, (a < n)%nat -> h' !! a = h !! a)
        (fun v => match v with
                  | Ref _ l fl => (n <= base l)%nat \/ flagRO fl = true
                  | _ => True
                  end).

(** A cell that keeps its shape: a struct, array or slice with as many
    children as before; any other value as it was. *)
Definition same_shape (c c' : value) : Prop :=
  match children c with
  | Some cs => exists cs', c' = with_children c cs' /\ length cs' = length cs
  | None => c' = c
  end.

(** Writing that never replaces the cell [a] as a whole. *)
Definition frame_shape (a : addr) : frame :=
  Frame (fun h => (a < length h)%nat)
        (fun h h' =>
           (length h <= length h')%nat
           /\ forall c, h !! a = Some c -> exists c', h' !! a = Some c' /\ same_shape c c')
        (fun v => match v with
                  | Ref _ l _ => base l <> a \/ path l <> []
                  | _ => True
                  end).

(** The number of occurrences of the byte [c] in [s]. *)
Fixpoint count_byte (c : ascii) (s : string) : nat :=
  match s with
  | EmptyString => 0%nat
  | String c' s' => ((if Ascii.eqb c' c then 1 else 0) + count_byte c s')%nat
  end.

Module frames.

(** A struct variable with an integer and a string field. *)
Definition pair_heap : heap := [VStruct [VInt 0; VString "x"]].
Definition first : Value := Ref (TBasic reflect.Int) (Loc 0%nat [0%nat]) flag0.
Definition hidden : Value := Ref (TBasic reflect.Int) (Loc 0%nat [0%nat]) (Flag true false).

End frames.

(** The unsigned integer kinds that [ParseHard] sets ([uintptr] is not one
    of them). *)
Definition unsigned_kind (k : reflect.Kind) : bool :=
  match k with
  | reflect.Uint | reflect.Uint8 | reflect.Uint16 | reflect.Uint32 | reflect.Uint64 => true
  | _ => false
  end.

(** ** The pattern for database destinations *)

(** What [p+] amounts to before the continuation [k]: after the first
    byte, the longest run of bytes of [p] first, then the shorter ones. *)
Fixpoint star (p : ascii -> bool) (k : string -> regexp.captures -> option regexp.captures)
    (s : string) (cs : regexp.captures) : option regexp.captures :=
  match s with
  | EmptyString => k s cs
  | String c s' =>
      if p c then match star p k s' cs with
                  | Some res => Some res
                  | None => k s cs
                  end
      else k s cs
  end.

(** The longest prefix of [s] of bytes of [p], and the rest. *)
Fixpoint span (p : ascii -> bool) (s : string) : string * string :=
  match s with
  | EmptyString => (EmptyString, EmptyString)
  | String c s' =>
      if p c then let '(w, r) := span p s' in (String c w, r)
      else (EmptyString, s)
  end.

(** The driver and the data source name that a text selects: the leading
    run of word characters when a slash and something more follow it, and
    what follows the slash; else no driver, and the whole text. *)
Definition dsn_parts (val : string) : string * string :=
  match span regexp.word val with
  | (String c w, String c1 (String c2 r)) =>
      if regexp.is_byte 47 c1 then (String c w, String c2 r) else (EmptyString, val)
  | _ => (EmptyString, val)
  end.

(** The kinds of destination that both revisions of [ParseHard] set. *)
Definition parsed_kind (k : reflect.Kind) : bool :=
  match k with
  | reflect.Bool | reflect.Float32 | reflect.Float64 | reflect.String | reflect.Slice => true
  | _ => signed_kind k || unsigned_kind k
  end.

(** What [ParseHard] amounts to when it opens a file for the variable [l]
    of type [t]: the error of [os.Open name], or else a new [os.File] for
    this name in a fresh cell, and the variable pointing to it (boxed, for
    a variable of interface type). *)
Definition opens_file E (t : rtype) (l : loc) (h : heap) (name : string)
    (res : result * heap) : Prop :=
  match os_Open E name with
  | Some err => res = (Ret (Some err), h)
  | None =>
      let file := VPtr (Some (Loc (length h) [])) in
      forall hs,
        store h l (match kind_of E t with
                   | reflect.Interface => VIface (Some (TPtr os_File, file))
                   | _ => file
                   end) = Some hs ->
        res = (Ret None, hs ++ [VFile name])
  end.

(** ** The scanner and its callbacks *)

Definition result_of {A} (x : outcome A * heap * list event) : outcome A := fst (fst x).
Definition heap_of {A} (x : outcome A * heap * list event) : heap := snd (fst x).

(** Code that keeps the property [I] of the store. *)
Definition keeps {A} (I : heap -> Prop) (m : M A) : Prop :=
  forall h, I h -> I (snd (m h)).

Definition keepsT {A} (I : heap -> Prop) (m : T A) : Prop :=
  forall h, I h -> I (heap_of (m h)).

(** The callback that a call on the trace went to. *)
Definition answer (onStruct : StructField -> M (option error))
    (onProperty : StructField -> Value -> M (option error)) (ev : event)
  : M (option error) :=
  match ev with
  | OnStruct sf => onStruct sf
  | OnProperty sf v => onProperty sf v
  end.

(** The scan ended with the last call on the trace: that call returned the
    error [e] and left the store [h1]. *)
Definition stopped_by onStruct onProperty (e : error) (h1 : heap) (tr : list event)
  : Prop :=
  exists before ev h0,
    tr = before ++ [ev] /\ answer onStruct onProperty ev h0 = (Ret (Some e), h1).

(** The store after the calls [tr], made one after the other from the
    store [h] on, when every one of them returns nil; [None] when one of
    them does not. *)
Fixpoint replay onStruct onProperty (h : heap) (tr : list event) : option heap :=
  match tr with
  | [] => Some h
  | ev :: rest =>
      match answer onStruct onProperty ev h with
      | (Ret None, h1) => replay onStruct onProperty h1 rest
      | _ => None
      end
  end.

(** How a scan that started in the store [h], made the calls [tr] and gave
    [r] in the store [h1] has ended.  Either its last call did not return
    nil: all calls before it returned nil, each run in the store that the
    one before left, and what the last call gave and left is what the scan
    gave and left.  Or every call returned nil, the store is as the last
    call left it, and the scan did not give an error. *)
Definition ended onStruct onProperty (h : heap) (r : result) (h1 : heap)
    (tr : list event) : Prop :=
  (exists before ev h0,
     tr = before ++ [ev]
     /\ replay onStruct onProperty h before = Some h0
     /\ answer onStruct onProperty ev h0 = (r, h1)
     /\ r <> Ret None)
  \/ (replay onStruct onProperty h tr = Some h1 /\ forall e, r <> Ret (Some e)).

(** Scanner code that ends so. *)
Definition ends_by_callback onStruct onProperty (m : T (option error)) : Prop :=
  forall h r h1 tr, m h = (r, h1, tr) -> ended onStruct onProperty h r h1 tr.

(** The calls of [onProperty] on a trace. *)
Definition is_property (ev : event) : bool :=
  match ev with
  | OnProperty _ _ => true
  | OnStruct _ => false
  end.

Definition properties (tr : list event) : list event := List.filter is_property tr.

(** [m'] does what [m] does, but for the calls of [onStruct]. *)
Definition but_for_onStruct {A} (m m' : T A) : Prop :=
  forall h, m' h = (result_of (m h), heap_of (m h), properties (trace_of (m h))).

(** A kind of field that the scanner does not look into. *)
Definition plain_kind (k : reflect.Kind) : bool := negb (is_Ptr k) && negb (is_Struct k).

(** The calls of [onProperty] for the exported ones of the fields [fs],
    which are the fields from index [i] on of the struct variable [l]. *)
Fixpoint offered (l : loc) (i : nat) (fs : list StructField) : list event :=
  match fs with
  | [] => []
  | sf :: rest =>
      (if IsExported sf then [OnProperty sf (field_value l flag0 i sf)] else [])
      ++ offered l (S i) rest
  end.

Module scans.

(** A record of plain fields, one of them unexported. *)
Definition Flat : rtype :=
  TStruct [ mkStructField "Name" EmptyString (TBasic reflect.String) EmptyString 0 false;
            mkStructField "secret" "main" (TBasic reflect.Int) EmptyString 1 false;
            mkStructField "Port" EmptyString (TBasic reflect.Int) EmptyString 2 false ].

Definition flat_heap : heap := [VStruct [VString EmptyString; VInt 0; VInt 0]].

Definition flat_obj : iface := Some (TPtr Flat, VPtr (Some (Loc 0%nat []))).

(** A callback that fails on the field [Port]. *)
Definition refuse_Port (sf : StructField) (v : Value) : M (option error) :=
  if String.eqb (sfName sf) "Port" then retM (Some (errorString "no port"))
  else retM None.

End scans.

(** ** The oldest revision of the package

    Its [Scan] is, word for word, the [Scan] of src/base.go; its [Parse] has
    no guard: it is what later became [ParseHard], and it parses the
    elements of a list with itself. *)
Module Oldest.
Section Oldest.
Context (E : Env).

(** [Parse] sets a string value to the given value. *)
Fixpoint Parse (depth : nat) (val : string) (fv : Value) {struct depth}
  : M (option error) :=
  if String.eqb val EmptyString then retM None
  else
    match Kind E fv with
    | reflect.Bool =>
        match strconv.ParseBool val with
        | inr err => retM (Some err)
        | inl v => let* _ := SetBool fv v in retM None
        end
    | reflect.Float32 | reflect.Float64 =>
        match strconv_ParseFloat E val (Bits E (type_of fv)) with
        | inr err => retM (Some err)
        | inl v => let* _ := SetFloat fv v in retM None
        end
    | reflect.Int | reflect.Int8 | reflect.Int16 | reflect.Int32 | reflect.Int64 =>
        if is_Duration (type_of fv) then
          match time.ParseDuration val with
          | inr err => retM (Some err)
          | inl v => let* _ := SetInt E fv v in retM None
          end
        else
          match strconv.ParseInt0 val (Bits E (type_of fv)) with
          | inr err => retM (Some err)
          | inl v => let* _ := SetInt E fv v in retM None
          end
    | reflect.Uint | reflect.Uint8 | reflect.Uint16 | reflect.Uint32 | reflect.Uint64 =>
        match strconv.ParseUint0 val (Bits E (type_of fv)) with
        | inr err => retM (Some err)
        | inl v => let* _ := SetUint E fv v in retM None
        end
    | reflect.String =>
        let* _ := SetString fv val in retM None
    | reflect.Slice =>
        let parts := strings.Split val ";"%char in
        let* slice := MakeSlice E (S depth) (type_of fv) (length parts) in
        let* err :=
          range_parts
            (slice_part E
               (match depth with
                | O => fun _ _ => abortM OutOfFuel
                | S d => Parse d
                end) slice)
            0 parts in
        match err with
        | Some e => retM (Some e)
        | None => let* _ := Set_ E fv slice in retM None
        end
    | _ => retM None
    end.

End Oldest.
End Oldest.

Module lists.

(** A variable of type [[]time.Duration], nil. *)
Definition durations : rtype := TSlice world.Duration.
Definition durations_var : Value := Ref durations (Loc 0%nat []) flag0.

End lists.

Module texts.

Definition string_slice : rtype := TSlice (TBasic reflect.String).
Definition strings_var : Value := Ref string_slice (Loc 0%nat []) flag0.

(** A string variable that holds the text [0]. *)
Definition text_var : Value := Ref (TBasic reflect.String) (Loc 0%nat []) flag0.

End texts.

(** The texts that [strconv.ParseBool] takes for true and for false. *)
Definition true_texts : list string := ["1"; "t"; "T"; "true"; "TRUE"; "True"].
Definition false_texts : list string := ["0"; "f"; "F"; "false"; "FALSE"; "False"].

(** ** Destinations that [ParseHard] sets by one assignment

    The types for which [ParseHard] of the latest revision has a case that
    ends in one assignment: the scalars, the file types and [*sql.DB]. *)
Definition sets_directly E (t : rtype) : bool :=
  match kind_of E t with
  | reflect.Bool | reflect.Float32 | reflect.Float64 | reflect.String => true
  | reflect.Interface | reflect.Ptr =>
      Strct.is_file_type t || rtype_eqb t (TPtr sql_DB)
  | k => signed_kind k || unsigned_kind k
  end.

(** Code that answers alike in the stores [h0] and [h1], and leaves the
    same store when the answer is nil. *)
Definition alike (h0 h1 : heap) (m : M (option error)) : Prop :=
  fst (m h0) = fst (m h1) /\ (fst (m h0) = Ret None -> m h0 = m h1).

(** * Properties *)

(** ** The standard library functions at known inputs *)

Example ParseInt0_ex1 : strconv.ParseInt0 "4" 64 = inl 4.
Proof. reflexivity. Qed.
Example ParseInt0_ex2 : strconv.ParseInt0 "-0x1F" 64 = inl (-31).
Proof. reflexivity. Qed.
Example ParseInt0_ex3 : strconv.ParseInt0 "128" 8 = inr (strconv.rangeError "ParseInt" "128").
Proof. reflexivity. Qed.
Example ParseInt0_ex4 : strconv.ParseInt0 "1_000" 64 = inl 1000.
Proof. reflexivity. Qed.
Example ParseInt0_ex5 : strconv.ParseInt0 "1__0" 64 = inr (strconv.syntaxError "ParseInt" "1__0").
Proof. reflexivity. Qed.
Example ParseInt0_ex6 : strconv.ParseInt0 " 1" 64 = inr (strconv.syntaxError "ParseInt" " 1").
Proof. reflexivity. Qed.
Example ParseDuration_ex1 : time.ParseDuration "1h30m" = inl 5400000000000.
Proof. vm_compute. reflexivity. Qed.
Example ParseDuration_ex2 : time.ParseDuration "1.5h" = inl 5400000000000.
Proof. vm_compute. reflexivity. Qed.
Example ParseDuration_ex3 : time.ParseDuration "-2.25s" = inl (-2250000000).
Proof. vm_compute. reflexivity. Qed.
Example ParseDuration_ex4 : time.ParseDuration "90" = inr (timeError "time: missing unit in duration %q" ["90"]).
Proof. vm_compute. reflexivity. Qed.
Example TrimSpace_ex1 : strings.TrimSpace " 2 " = "2".
Proof. reflexivity. Qed.
Example Split_ex1 : strings.Split "1 ; 2 ;3" ";"%char = ["1 "; " 2 "; "3"].
Proof. reflexivity. Qed.

Example ParseFloat_ex1 : atof.ParseFloat "4.5" 64 = inl (S754_finite false 5066549580791808 (-50)).
Proof. vm_compute. reflexivity. Qed.
Example ParseFloat_ex2 : atof.ParseFloat "1.8e308" 64 = inr (strconv.rangeError "ParseFloat" "1.8e308").
Proof. vm_compute. reflexivity. Qed.
Example FormatFloat_ex1 :
  map (fun s => match atof.ParseFloat s 64 with
                | inl f => ftoa.FormatFloat f 64
                | inr _ => EmptyString
                end)
      ["4.5"; "0.1"; "0"; "-0"; "1e21"; "123456789"; "100000"; "1000000";
       "0.00001"; "5e-324"; "9007199254740993"; "1e23"; "0x1p-2"]
  = ["4.5"; "0.1"; "0"; "-0"; "1e+21"; "1.23456789e+08"; "100000"; "1e+06";
     "1e-05"; "5e-324"; "9.007199254740992e+15"; "1e+23"; "0.25"].
Proof. vm_compute. reflexivity. Qed.
Example FormatFloat_ex2 :
  map (fun s => match atof.ParseFloat s 32 with
                | inl f => ftoa.FormatFloat f 32
                | inr _ => EmptyString
                end)
      ["0.1"; "16777217"; "3.4028235e38"; "1e-45"]
  = ["0.1"; "1.6777216e+07"; "3.4028235e+38"; "1e-45"].
Proof. vm_compute. reflexivity. Qed.

Example dsn_pattern_ex1 :
  regexp.FindStringSubmatch dsn_pattern 3 "mysql/user:pass@host/db"
  = Some ["mysql/user:pass@host/db"; "mysql/"; "mysql"; "user:pass@host/db"].
Proof. vm_compute. reflexivity. Qed.
Example dsn_pattern_ex2 :
  regexp.FindStringSubmatch dsn_pattern 3 "user:pass@host/db"
  = Some ["user:pass@host/db"; EmptyString; EmptyString; "user:pass@host/db"].
Proof. vm_compute. reflexivity. Qed.
Example dsn_pattern_ex3 :
  regexp.FindStringSubmatch dsn_pattern 3 "mysql/"
  = Some ["mysql/"; EmptyString; EmptyString; "mysql/"].
Proof. vm_compute. reflexivity. Qed.

Example Duration_String_ex :
  map world.Duration_String [0; 5400000000000; 1500000; -2250000000; 1; 1001000; 259380500000000]
  = ["0s"; "1h30m0s"; "1.5ms"; "-2.25s"; "1ns"; "1.001ms"; "72h3m0.5s"].
Proof. vm_compute. reflexivity. Qed.

(** The model runs the test of the package as the test expects: the tagged
    exported fields receive their defaults, the field set by hand keeps its
    value, and the unexported field is not visited. *)
Example TestScanAndParse :
  let '(r, h, tr) := Strct.Scan test.env test.action 4 test.obj test.heap0 in
  r = Ret None
  /\ h !! 0%nat
     = Some (VStruct
               [ VInt 0; VString "test"; VString EmptyString;
                 VString "another test"; VBool true;
                 VFloat (S754_finite false 5066549580791808 (-50));
                 VInt 4; VSlice (Some [VInt 1; VInt 2; VInt 3]);
                 VIface (Some (TPtr os_File, VPtr (Some (Loc 2%nat [])))) ])
  /\ h !! 2%nat = Some (VFile "./base.go")
  /\ map (fun ev => match ev with OnProperty sf _ => sfName sf | OnStruct sf => sfName sf end) tr
     = ["Empty"; "Str"; "ShouldNotOverWrite"; "Bool"; "Flt"; "Int"; "Sli"; "File"].
Proof. vm_compute. repeat split; reflexivity. Qed.

(** ** Traces of callback calls *)

Section Calls.
Context (P : event -> Prop).

Lemma calls_ret {A} (a : A) : calls P (retT a).
Proof. intros h. constructor. Qed.

Lemma calls_abort {A} r : calls P (@abortT A r).
Proof. intros h. constructor. Qed.

Lemma calls_lift {A} (o : outcome A) : calls P (liftT o).
Proof. intros h. constructor. Qed.

Lemma calls_read {A} (f : heap -> outcome A) : calls P (readT f).
Proof. intros h. constructor. Qed.

Lemma calls_call {A} ev (m : M A) : P ev -> calls P (call ev m).
Proof.
  intros Hev h. unfold call, trace_of. destruct (m h) as [r h'].
  cbn. repeat constructor. exact Hev.
Qed.

Lemma calls_bind {A B} (m : T A) (k : A -> T B) :
  calls P m -> (forall a, calls P (k a)) -> calls P (bindT m k).
Proof.
  intros Hm Hk h. unfold bindT, trace_of.
  specialize (Hm h). unfold trace_of in Hm.
  destruct (m h) as [[[a|r] h1] t1]; cbn in *.
  - specialize (Hk a h1). unfold trace_of in Hk.
    destruct (k a h1) as [[r2 h2] t2]. cbn in *.
    apply Forall_app. split; assumption.
  - assumption.
Qed.

Lemma calls_for_range body n from :
  (forall i, calls P (body i)) -> calls P (for_range body n from).
Proof.
  intros Hb. revert from. induction n as [|n IH]; intros from; cbn [for_range].
  - apply calls_ret.
  - apply calls_bind; [apply Hb|].
    intros [e|]; [apply calls_ret | apply IH].
Qed.

End Calls.

(** ** Kinds *)

Lemma Kind_eqb_eq a b : reflect.Kind_eqb a b = true <-> a = b.
Proof. split; [destruct a, b; cbn; congruence | intros ->; destruct b; reflexivity]. Qed.

Lemma is_Ptr_false k : k <> reflect.Ptr -> is_Ptr k = false.
Proof. intros H. destruct (is_Ptr k) eqn:Hk; [|reflexivity]. apply Kind_eqb_eq in Hk. contradiction. Qed.

Lemma is_Struct_false k : k <> reflect.Struct -> is_Struct k = false.
Proof. intros H. destruct (is_Struct k) eqn:Hk; [|reflexivity]. apply Kind_eqb_eq in Hk. contradiction. Qed.

(** ** The scanner on a malformed root *)

Lemma ScanAll_unfold E onStruct onProperty depth obj :
  Strct.ScanAll E onStruct onProperty depth obj
  = (let rv := ValueOf obj in
     if negb (is_Ptr (Kind E rv)) then retT (Some ErrNoPtr)
     else
       let+ isnil := readT (IsNil rv) in
       if isnil : bool then retT (Some ErrNoPtr)
       else
         let+ rv := readT (Elem E rv) in
         if negb (is_Struct (Kind E rv)) then retT (Some ErrNoPtr)
         else
           let+ t := liftT (Type_ rv) in
           for_range
             (Strct.ScanAll_field E onStruct onProperty
                (ScanAll_rec E onStruct onProperty depth) rv t)
             (NumField E rv) 0).
Proof. destruct depth; reflexivity. Qed.

Lemma Base_Scan_unfold E action depth obj :
  Base.Scan E action depth obj
  = (let rv := ValueOf obj in
     if negb (is_Ptr (Kind E rv)) then retT (Some ErrNoPtr)
     else
       let+ isnil := readT (IsNil rv) in
       if isnil : bool then retT (Some ErrNoPtr)
       else
         let+ rv := readT (Elem E rv) in
         if negb (is_Struct (Kind E rv)) then retT (Some ErrNoPtr)
         else
           let+ t := liftT (Type_ rv) in
           for_range
             (Base.Scan_field E action (Scan_rec E action depth) rv t)
             (NumField E rv) 0).
Proof. destruct depth; reflexivity. Qed.

Ltac malformed_root_case :=
  match goal with
  | H : malformed_root _ _ |- _ =>
      destruct H as [|t v Hk|t Hk|t l e Hk He Hs]; cbn [ValueOf Kind];
      [ reflexivity
      | rewrite (is_Ptr_false _ Hk); reflexivity
      | rewrite Hk; reflexivity
      | rewrite Hk; cbn; unfold bindT, readT, Elem; cbn; rewrite Hk, He; cbn;
        rewrite (is_Struct_false _ Hs); reflexivity ]
  end.

(** C2. A root that is not a reference, is a nil reference, or refers to
    something that is not a record makes [ScanAll] and [Scan] (of both
    revisions) return [ErrNoPtr], whose message is "insert is not a pointer
    or a struct", without calling [onStruct] or [onProperty] (the trace of
    calls is empty) and without touching the store. *)
Theorem malformed_root_ErrNoPtr E obj :
  malformed_root E obj ->
  forall onStruct onProperty depth h,
    Strct.ScanAll E onStruct onProperty depth obj h
      = (Ret (Some (errorString "insert is not a pointer or a struct")), h, [])
    /\ Strct.Scan E onProperty depth obj h = (Ret (Some ErrNoPtr), h, [])
    /\ Base.Scan E onProperty depth obj h = (Ret (Some ErrNoPtr), h, []).
Proof.
  intros H onStruct onProperty depth h.
  unfold Strct.Scan. rewrite !ScanAll_unfold, Base_Scan_unfold.
  change (errorString "insert is not a pointer or a struct") with ErrNoPtr.
  repeat split; malformed_root_case.
Qed.

(** ** Only settable fields are handed to the callbacks *)

Lemma calls_bind_lift {A B} (P : event -> Prop) (o : outcome A) (k : A -> T B) :
  (forall a, o = Ret a -> calls P (k a)) -> calls P (bindT (liftT o) k).
Proof.
  intros Hk h. unfold bindT, liftT. destruct o as [a|r]; cbn.
  - specialize (Hk a eq_refl h). unfold trace_of in *.
    destruct (k a h) as [[r2 h2] t2]. exact Hk.
  - constructor.
Qed.

Lemma calls_bind_read {A B} (P : event -> Prop) (f : heap -> outcome A) (k : A -> T B) :
  (forall h a, f h = Ret a -> Forall P (trace_of (k a h))) ->
  calls P (bindT (readT f) k).
Proof.
  intros Hk h. unfold bindT, readT. destruct (f h) as [a|r] eqn:Hf; cbn.
  - specialize (Hk h a Hf). unfold trace_of in *.
    destruct (k a h) as [[r2 h2] t2]. exact Hk.
  - constructor.
Qed.

(** The read-only bits of a field of a struct reached through a pointer
    that was passed in: set exactly for the unexported fields. *)
Lemma flagRO_field_flag sf : flagRO (field_flag flag0 sf) = negb (IsExported sf).
Proof. unfold field_flag. destruct (IsExported sf), (sfAnonymous sf); reflexivity. Qed.

Lemma CanSet_exported sf g :
  flag_of g = field_flag flag0 sf -> CanSet g = true -> IsExported sf = true.
Proof.
  intros Hfl Hset. destruct g as [|t v fl|t l fl]; cbn in *; try discriminate.
  subst fl. rewrite flagRO_field_flag, negb_involutive in Hset. exact Hset.
Qed.

Lemma Elem_Ptr E f h e :
  Kind E f = reflect.Ptr -> Elem E f h = Ret e ->
  e = ZeroValue \/ exists t l, e = Ref t l (flag_of f).
Proof.
  unfold Elem, Kind. intros Hk H.
  destruct f as [|t v fl|t l fl]; [discriminate| |]; rewrite Hk in H;
    (destruct (value_of _ h) as [[]|]; try discriminate;
     match goal with
     | H : match ?p with _ => _ end = _ |- _ => destruct p
     end; [destruct (elem_type E t)|]; inversion H; subst; cbn; eauto).
Qed.

Lemma Field_Ref E t l fl i f :
  Field E (Ref t l fl) i = Ret f ->
  exists sf, struct_fields E t !! i = Some sf
             /\ f = Ref (sfType sf) (Loc (base l) (path l ++ [i])) (field_flag fl sf).
Proof.
  cbn. destruct (struct_fields E t !! i) as [sf|]; [|discriminate].
  intros [= <-]. eauto.
Qed.

Lemma field_meta_Ret E t i sf :
  field_meta E t i = Ret sf <-> struct_fields E t !! i = Some sf.
Proof.
  unfold field_meta. destruct (struct_fields E t !! i); split; congruence.
Qed.

Lemma Strct_after_switch_calls onProperty sf g :
  flag_of g = field_flag flag0 sf ->
  calls settable_call (Strct.after_switch onProperty sf g).
Proof.
  intros Hfl. unfold Strct.after_switch.
  destruct (CanSet g) eqn:Hset; cbn [negb].
  - apply calls_call. cbn. split; [|exact Hset]. eapply CanSet_exported; eauto.
  - apply calls_ret.
Qed.

Lemma Base_after_switch_calls action sf g :
  flag_of g = field_flag flag0 sf ->
  calls settable_call (Base.after_switch action sf g).
Proof.
  intros Hfl. unfold Base.after_switch.
  destruct (CanSet g) eqn:Hset; cbn [negb].
  - apply calls_call. cbn. split; [|exact Hset]. eapply CanSet_exported; eauto.
  - apply calls_ret.
Qed.

Lemma Addr_CanInterface g a sf :
  flag_of g = field_flag flag0 sf -> Addr g = Ret a -> CanInterface a = true ->
  IsExported sf = true.
Proof.
  intros Hfl Ha Hc. destruct g as [|t v fl|t l fl]; try discriminate.
  injection Ha as <-. cbn in *. subst fl.
  rewrite flagRO_field_flag, negb_involutive in Hc. exact Hc.
Qed.

Lemma Strct_case_Struct_calls E onStruct onProperty rec sf g :
  flag_of g = field_flag flag0 sf ->
  (forall obj, calls settable_call (rec obj)) ->
  calls settable_call (Strct.case_Struct E onStruct onProperty rec sf g).
Proof.
  intros Hfl Hrec. unfold Strct.case_Struct.
  apply calls_bind_lift. intros a Ha.
  destruct (CanInterface a) eqn:Hc; cbn [negb]; [|apply calls_ret].
  apply calls_bind.
  { apply calls_call. cbn. eapply Addr_CanInterface; eauto. }
  intros [e|]; [apply calls_ret|].
  apply calls_bind; [apply calls_read|]. intros obj.
  apply calls_bind; [apply Hrec|].
  intros [e|]; [apply calls_ret|].
  apply Strct_after_switch_calls; assumption.
Qed.

Lemma Base_case_Struct_calls E action rec sf g :
  flag_of g = field_flag flag0 sf ->
  (forall obj, calls settable_call (rec obj)) ->
  calls settable_call (Base.case_Struct E action rec sf g).
Proof.
  intros Hfl Hrec. unfold Base.case_Struct.
  apply calls_bind_lift. intros a Ha.
  destruct (CanInterface a) eqn:Hc; cbn [negb]; [|apply calls_ret].
  apply calls_bind; [apply calls_read|]. intros obj.
  apply calls_bind; [apply Hrec|].
  intros [e|]; [apply calls_ret|].
  apply Base_after_switch_calls; assumption.
Qed.

(** The three ways a round of the loop goes on after the switch. *)
Ltac field_round after_lemma struct_lemma Hrec :=
  apply calls_bind_lift; intros f Hf;
  apply calls_bind_lift; intros sf Hsf;
  apply Field_Ref in Hf; destruct Hf as (sf' & Hsf' & ->);
  apply field_meta_Ret in Hsf;
  assert (sf' = sf) as -> by congruence;
  match goal with
  | |- calls _ (match Kind ?E ?f with _ => _ end) =>
      destruct (Kind E f) eqn:Hk;
      try (apply after_lemma; reflexivity);
      try (apply struct_lemma; [reflexivity | exact Hrec]);
      apply calls_bind_read; intros h e He;
      destruct (is_Struct (Kind E e)) eqn:Hs; cbn [negb];
      [ destruct (Elem_Ptr _ _ _ _ Hk He) as [-> | (t' & l' & ->)];
        [ discriminate | apply struct_lemma; [reflexivity | exact Hrec] ]
      | apply after_lemma; reflexivity ]
  end.

Lemma Strct_ScanAll_field_calls E onStruct onProperty rec t l i :
  (forall obj, calls settable_call (rec obj)) ->
  calls settable_call
    (Strct.ScanAll_field E onStruct onProperty rec (Ref t l flag0) t i).
Proof.
  intros Hrec. unfold Strct.ScanAll_field.
  field_round Strct_after_switch_calls Strct_case_Struct_calls Hrec.
Qed.

Lemma Base_Scan_field_calls E action rec t l i :
  (forall obj, calls settable_call (rec obj)) ->
  calls settable_call (Base.Scan_field E action rec (Ref t l flag0) t i).
Proof.
  intros Hrec. unfold Base.Scan_field.
  field_round Base_after_switch_calls Base_case_Struct_calls Hrec.
Qed.

(** The struct behind a well-formed root: an addressable variable without
    read-only bits, of the type that [Type] reports. *)
Lemma root_struct E obj h rv :
  is_Ptr (Kind E (ValueOf obj)) = true ->
  Elem E (ValueOf obj) h = Ret rv -> is_Struct (Kind E rv) = true ->
  exists t l, rv = Ref t l flag0.
Proof.
  intros Hp He Hs. apply Kind_eqb_eq in Hp.
  destruct (Elem_Ptr _ _ _ _ Hp He) as [-> | (t & l & ->)]; [discriminate|].
  destruct obj as [[t0 v0]|]; [|discriminate]. cbn. eauto.
Qed.

Lemma Strct_ScanAll_calls E onStruct onProperty depth :
  forall obj, calls settable_call (Strct.ScanAll E onStruct onProperty depth obj).
Proof.
  induction depth as [|d IH]; intros obj; rewrite ScanAll_unfold; cbv zeta;
    (destruct (is_Ptr (Kind E (ValueOf obj))) eqn:Hp; cbn [negb]; [|apply calls_ret];
     apply calls_bind; [apply calls_read|]; intros [|]; [apply calls_ret|];
     apply calls_bind_read; intros h rv Hrv;
     destruct (is_Struct (Kind E rv)) eqn:Hs; cbn [negb]; [|apply calls_ret];
     destruct (root_struct _ _ _ _ Hp Hrv Hs) as (t & l & ->);
     cbn [Type_]; apply calls_bind_lift; intros t' [= <-];
     apply calls_for_range; intros i;
     apply Strct_ScanAll_field_calls; cbn [ScanAll_rec]).
  - intros obj'; apply calls_abort.
  - exact IH.
Qed.

Lemma Base_Scan_calls E action depth :
  forall obj, calls settable_call (Base.Scan E action depth obj).
Proof.
  induction depth as [|d IH]; intros obj; rewrite Base_Scan_unfold; cbv zeta;
    (destruct (is_Ptr (Kind E (ValueOf obj))) eqn:Hp; cbn [negb]; [|apply calls_ret];
     apply calls_bind; [apply calls_read|]; intros [|]; [apply calls_ret|];
     apply calls_bind_read; intros h rv Hrv;
     destruct (is_Struct (Kind E rv)) eqn:Hs; cbn [negb]; [|apply calls_ret];
     destruct (root_struct _ _ _ _ Hp Hrv Hs) as (t & l & ->);
     cbn [Type_]; apply calls_bind_lift; intros t' [= <-];
     apply calls_for_range; intros i;
     apply Base_Scan_field_calls; cbn [Scan_rec]).
  - intros obj'; apply calls_abort.
  - exact IH.
Qed.

(** C3. In every run of [ScanAll] and of [Scan] (of both revisions), to
    whatever depth and whatever the callbacks do, each call of [onProperty]
    (and of [onStruct]) is about an exported field, and the [Value] handed
    to [onProperty] is settable: a field whose storage is not settable, as
    that of an unexported field, is never passed to the callback, whatever
    its tags are. *)
Theorem unsettable_fields_never_passed E onStruct onProperty depth obj h :
  Forall settable_call (trace_of (Strct.ScanAll E onStruct onProperty depth obj h))
  /\ Forall settable_call (trace_of (Strct.Scan E onProperty depth obj h))
  /\ Forall settable_call (trace_of (Base.Scan E onProperty depth obj h)).
Proof.
  repeat split.
  - apply Strct_ScanAll_calls.
  - apply Strct_ScanAll_calls.
  - apply Base_Scan_calls.
Qed.

(** ** A round of the loop, field by field *)

Lemma field_round_start E t l fl i sf :
  struct_fields E t !! i = Some sf ->
  Field E (Ref t l fl) i = Ret (field_value l fl i sf)
  /\ field_meta E t i = Ret sf.
Proof.
  intros Hsf. unfold field_meta. cbn. rewrite Hsf. split; reflexivity.
Qed.

Lemma no_record_Elem E h f :
  no_record_behind E h f ->
  Kind E f = reflect.Ptr
  /\ exists e, Elem E f h = Ret e /\ is_Struct (Kind E e) = false.
Proof.
  intros [t l fl Hk Hl | t l fl l' et Hk Hl He Hs]; cbn [Kind]; (split; [exact Hk|]);
    unfold Elem; rewrite Hk; cbn [value_of]; rewrite Hl.
  - exists ZeroValue. split; reflexivity.
  - rewrite He. eexists. split; [reflexivity|]. cbn. apply is_Struct_false. exact Hs.
Qed.

Lemma bindT_lift_ret {A B} (a : A) (k : A -> T B) h :
  bindT (liftT (Ret a)) k h = k a h.
Proof. unfold bindT, liftT. destruct (k a h) as [[r h2] t2]. reflexivity. Qed.

Lemma bindT_read_ret {A B} (f : heap -> outcome A) (k : A -> T B) h a :
  f h = Ret a -> bindT (readT f) k h = k a h.
Proof.
  intros Hf. unfold bindT, readT. rewrite Hf.
  destruct (k a h) as [[r h2] t2]. reflexivity.
Qed.

Lemma bindT_call {A B} ev (m : M A) (k : A -> T B) h :
  bindT (call ev m) k h
  = match m h with
    | (Ret a, h1) => let '(r, h2, t2) := k a h1 in (r, h2, ev :: t2)
    | (Abort r, h1) => (Abort r, h1, [ev])
    end.
Proof.
  unfold bindT, call. destruct (m h) as [[a|r] h1]; [|reflexivity].
  destruct (k a h1) as [[r2 h2] t2]. reflexivity.
Qed.

(** The first [i] rounds of a loop, the round [i], and the rounds after
    it. *)
Lemma for_range_split body k : forall i from h,
  for_range body (i + S k) from h
  = match for_range body i from h with
    | (Ret None, hi, before) =>
        then_round before (body (from + i)%nat hi) (for_range body k (S (from + i)))
    | other => other
    end.
Proof.
  induction i as [|i IH]; intros from h.
  - cbn [Nat.add for_range]. rewrite Nat.add_0_r. unfold bindT, retT, then_round.
    destruct (body from h) as [[[[e|]|a] h1] calls]; cbn [app]; rewrite ?app_nil_r;
      reflexivity.
  - cbn [Nat.add for_range]. unfold bindT at 1 2.
    destruct (body from h) as [[[[e|]|a] h1] calls]; try reflexivity.
    rewrite IH. rewrite Nat.add_succ_r.
    destruct (for_range body i (S from) h1) as [[[[e|]|a] hi] before]; try reflexivity.
    unfold then_round. cbn [Nat.add].
    destruct (body (S (from + i)) hi) as [[[[e|]|a] h2] round]; rewrite ?app_assoc;
      try reflexivity.
    destruct (for_range body k (S (S (from + i))) h2) as [[r h3] after].
    rewrite !app_assoc. reflexivity.
Qed.

Lemma record_root E t l h :
  kind_of E t = reflect.Struct ->
  let obj := Some (TPtr t, VPtr (Some l)) in
  is_Ptr (Kind E (ValueOf obj)) = true
  /\ IsNil (ValueOf obj) h = Ret false
  /\ Elem E (ValueOf obj) h = Ret (Ref t l flag0)
  /\ is_Struct (Kind E (Ref t l flag0)) = true.
Proof.
  intros Hk obj. repeat split.
  cbn [Kind]. rewrite Hk. reflexivity.
Qed.

(** On a pointer to a record, [ScanAll] is the loop over the fields. *)
Lemma Strct_ScanAll_record E onStruct onProperty depth t l h :
  kind_of E t = reflect.Struct ->
  Strct.ScanAll E onStruct onProperty depth (Some (TPtr t, VPtr (Some l))) h
  = ScanAll_rounds E onStruct onProperty depth t l (length (struct_fields E t)) 0 h.
Proof.
  intros Hk. destruct (record_root E t l h Hk) as (Hp & Hnil & Helem & Hs).
  rewrite ScanAll_unfold. cbv zeta. rewrite Hp. cbn [negb].
  rewrite (bindT_read_ret _ _ _ _ Hnil). cbv iota.
  rewrite (bindT_read_ret _ _ _ _ Helem). rewrite Hs. cbn [negb Type_].
  rewrite bindT_lift_ret. reflexivity.
Qed.

Lemma Base_Scan_record E action depth t l h :
  kind_of E t = reflect.Struct ->
  Base.Scan E action depth (Some (TPtr t, VPtr (Some l))) h
  = Scan_rounds E action depth t l (length (struct_fields E t)) 0 h.
Proof.
  intros Hk. destruct (record_root E t l h Hk) as (Hp & Hnil & Helem & Hs).
  rewrite Base_Scan_unfold. cbv zeta. rewrite Hp. cbn [negb].
  rewrite (bindT_read_ret _ _ _ _ Hnil). cbv iota.
  rewrite (bindT_read_ret _ _ _ _ Helem). rewrite Hs. cbn [negb Type_].
  rewrite bindT_lift_ret. reflexivity.
Qed.

(** A loop that reaches the round [i] after the calls [before]. *)
Lemma loop_reaches_round body n i h0 h before :
  (i < n)%nat ->
  for_range body i 0 h0 = (Ret None, h, before) ->
  for_range body n 0 h0
  = then_round before (body i h) (for_range body (n - S i) (S i)).
Proof.
  intros Hi Hbefore.
  replace n with (i + S (n - S i))%nat at 1 by lia.
  rewrite for_range_split, Hbefore. reflexivity.
Qed.

(** C5. A field that is a nil reference, or a reference to something that
    is not a record, is not recursed into and [onStruct] is not called for
    it, but the field itself is offered to [onProperty] once when it is
    settable.  The round of the loop on such a field, whatever the
    recursive call and [onStruct] are, is that one call of [onProperty]
    when the field is settable, and nothing when it is not; so for [Scan]
    of src/base.go.  And [ScanAll] and [Scan] of both revisions, run on a
    pointer to the record, do run this round: when the rounds on the
    fields before it have returned nil, the scan is these rounds, then the
    one call for the field (or nothing), and, when that call returns nil,
    the rounds on the fields after it. *)
Theorem reference_without_record_visited_once
    E onStruct onProperty rec t l fl i sf h :
  struct_fields E t !! i = Some sf ->
  no_record_behind E h (field_value l fl i sf) ->
  let f := field_value l fl i sf in
  let once := if CanSet f
              then let '(r, h') := onProperty sf f h in (r, h', [OnProperty sf f])
              else (Ret None, h, []) in
  Strct.ScanAll_field E onStruct onProperty rec (Ref t l fl) t i h = once
  /\ Base.Scan_field E onProperty rec (Ref t l fl) t i h = once
  /\ (fl = flag0 -> kind_of E t = reflect.Struct ->
      forall depth h0 before,
        let root := Some (TPtr t, VPtr (Some l)) in
        let n := (length (struct_fields E t) - S i)%nat in
        (ScanAll_rounds E onStruct onProperty depth t l i 0 h0 = (Ret None, h, before) ->
         Strct.ScanAll E onStruct onProperty depth root h0
         = then_round before once
             (ScanAll_rounds E onStruct onProperty depth t l n (S i)))
        /\ (ScanAll_rounds E (fun _ => retM None) onProperty depth t l i 0 h0
            = (Ret None, h, before) ->
            Strct.Scan E onProperty depth root h0
            = then_round before once
                (ScanAll_rounds E (fun _ => retM None) onProperty depth t l n (S i)))
        /\ (Scan_rounds E onProperty depth t l i 0 h0 = (Ret None, h, before) ->
            Base.Scan E onProperty depth root h0
            = then_round before once (Scan_rounds E onProperty depth t l n (S i)))).
Proof.
  intros Hsf Hno f once.
  assert (forall onS rec',
            Strct.ScanAll_field E onS onProperty rec' (Ref t l fl) t i h = once
            /\ Base.Scan_field E onProperty rec' (Ref t l fl) t i h = once) as Hround.
  { intros onS rec'.
    destruct (field_round_start E t l fl i sf Hsf) as [HF HM].
    destruct (no_record_Elem E h _ Hno) as (Hk & e & He & Hs).
    fold f in HF, Hk, He.
    unfold Strct.ScanAll_field, Base.Scan_field.
    rewrite HF, HM, !bindT_lift_ret, Hk. cbv iota.
    rewrite !(bindT_read_ret _ _ _ _ He), Hs. cbn [negb].
    unfold Strct.after_switch, Base.after_switch, once, call, retT.
    destruct (CanSet f); cbn [negb]; split; reflexivity. }
  split; [apply (Hround onStruct rec)|]. split; [apply (Hround onStruct rec)|].
  intros Hfl Hk depth h0 before root n.
  pose proof (lookup_lt_Some _ _ _ Hsf) as Hi.
  subst fl. unfold Strct.Scan, root.
  rewrite !Strct_ScanAll_record, Base_Scan_record by exact Hk.
  unfold ScanAll_rounds, Scan_rounds.
  split; [|split]; intros Hbefore;
    rewrite (loop_reaches_round _ _ _ _ _ _ Hi Hbefore);
    [ rewrite (proj1 (Hround _ _)) | rewrite (proj1 (Hround _ _)) | rewrite (proj2 (Hround onStruct _)) ];
    reflexivity.
Qed.

Lemma Interface_pointer E t l fl h :
  flagRO fl = false ->
  Interface E (Imm (TPtr t) (VPtr (Some l)) fl) h = Ret (Some (TPtr t, VPtr (Some l))).
Proof. intros Hro. cbn. rewrite Hro. reflexivity. Qed.

(** The round on a record [g] whose address can be boxed. *)
Lemma Strct_case_Struct_run E onStruct onProperty rec sf t l fl h :
  flagRO fl = false ->
  Strct.case_Struct E onStruct onProperty rec sf (Ref t l fl) h
  = match onStruct sf h with
    | (Ret None, h1) =>
        match rec (Some (TPtr t, VPtr (Some l))) h1 with
        | (Ret None, h2, nested) =>
            let '(r, h3) := onProperty sf (Ref t l fl) h2 in
            (r, h3, OnStruct sf :: nested ++ [OnProperty sf (Ref t l fl)])
        | (r, h2, nested) => (r, h2, OnStruct sf :: nested)
        end
    | (r, h1) => (r, h1, [OnStruct sf])
    end.
Proof.
  intros Hro. unfold Strct.case_Struct. cbn [Addr].
  rewrite bindT_lift_ret. cbn [CanInterface]. rewrite Hro. cbn [negb].
  rewrite bindT_call.
  destruct (onStruct sf h) as [[[e|]|r] h1]; try reflexivity.
  rewrite (bindT_read_ret _ _ _ _ (Interface_pointer E t l fl h1 Hro)).
  unfold bindT.
  destruct (rec (Some (TPtr t, VPtr (Some l))) h1) as [[[[e|]|r] h2] nested];
    try (cbn; rewrite ?app_nil_r; reflexivity).
  unfold Strct.after_switch. cbn [CanSet]. rewrite Hro. cbn [negb].
  unfold call. destruct (onProperty sf (Ref t l fl) h2) as [r h3]. reflexivity.
Qed.

(** C4. A round of [ScanAll]'s loop on a field with a record behind it
    (the field is a struct, or a non-nil pointer to one): when the field is
    exported, [onStruct] is called first with the field's metadata, then
    come the calls of the recursive [ScanAll] on the nested record, and
    only after all of them [onProperty] is called for the nested-record
    field itself; an error or a panic on the way ends the round with the
    calls made so far.  When the field is unexported, nothing is called. *)
Theorem nested_record_order E onStruct onProperty depth t l fl i sf h g :
  struct_fields E t !! i = Some sf ->
  record_behind E h (field_value l fl i sf) g ->
  Strct.ScanAll_field E onStruct onProperty
    (ScanAll_rec E onStruct onProperty depth) (Ref t l fl) t i h
  = if flagRO (field_flag fl sf) then (Ret None, h, [])
    else
      match onStruct sf h with
      | (Ret None, h1) =>
          match ScanAll_rec E onStruct onProperty depth (pointer_to g) h1 with
          | (Ret None, h2, nested) =>
              let '(r, h3) := onProperty sf g h2 in
              (r, h3, OnStruct sf :: nested ++ [OnProperty sf g])
          | (r, h2, nested) => (r, h2, OnStruct sf :: nested)
          end
      | (r, h1) => (r, h1, [OnStruct sf])
      end.
Proof.
  intros Hsf Hrec.
  destruct (field_round_start E t l fl i sf Hsf) as [HF HM].
  unfold Strct.ScanAll_field. rewrite HF, HM, !bindT_lift_ret.
  unfold field_value in *.
  inversion Hrec as [t0 l0 fl0 Hk | t0 l0 fl0 l' et Hk Hl He Hs]; subst; cbn [Kind].
  - rewrite Hk. cbv iota.
    destruct (flagRO (field_flag fl sf)) eqn:Hro.
    + unfold Strct.case_Struct. cbn [Addr]. rewrite bindT_lift_ret.
      cbn [CanInterface]. rewrite Hro. reflexivity.
    + rewrite Strct_case_Struct_run by exact Hro. reflexivity.
  - rewrite Hk. cbv iota.
    assert (Elem E (Ref (sfType sf) (Loc (base l) (path l ++ [i])) (field_flag fl sf)) h
            = Ret (Ref et l' (field_flag fl sf))) as HE.
    { unfold Elem. rewrite Hk. cbn [value_of]. rewrite Hl, He. reflexivity. }
    rewrite (bindT_read_ret _ _ _ _ HE). cbn [Kind]. rewrite Hs. cbn [is_Struct reflect.Kind_eqb negb].
    destruct (flagRO (field_flag fl sf)) eqn:Hro.
    + unfold Strct.case_Struct. cbn [Addr]. rewrite bindT_lift_ret.
      cbn [CanInterface]. rewrite Hro. reflexivity.
    + rewrite Strct_case_Struct_run by exact Hro. reflexivity.
Qed.

(** ** The store *)

Lemma children_with_children v cs0 cs :
  children v = Some cs0 -> children (with_children v cs) = Some cs.
Proof. destruct v as [| | | | | |[?|]| | | | | |]; cbn; congruence. Qed.

Lemma get_set_path p : forall c x c',
  set_path c p x = Some c' -> get_path c' p = Some x.
Proof.
  induction p as [|i p IH]; intros c x c'; cbn [set_path get_path].
  - congruence.
  - destruct (children c) as [cs|] eqn:Hc; [|discriminate].
    destruct (cs !! i) as [ci|] eqn:Hi; [|discriminate].
    destruct (set_path ci p x) as [ci'|] eqn:Hs; [|discriminate].
    intros [= <-]. cbn [get_path]. rewrite (children_with_children _ _ _ Hc).
    rewrite list_lookup_insert_eq; [|eapply lookup_lt_Some; eauto].
    eapply IH; eauto.
Qed.

Lemma load_store h l x h' : store h l x = Some h' -> load h' l = Some x.
Proof.
  unfold store, load. destruct (h !! base l) as [c|] eqn:Hc; [|discriminate].
  destruct (set_path c (path l) x) as [c'|] eqn:Hs; [|discriminate].
  intros [= <-]. rewrite list_lookup_insert_eq; [|eapply lookup_lt_Some; eauto].
  eapply get_set_path; eauto.
Qed.

Lemma store_cells h l x h' :
  store h l x = Some h' ->
  length h' = length h /\ forall a, a <> base l -> h' !! a = h !! a.
Proof.
  unfold store. destruct (h !! base l) as [c|]; [|discriminate].
  destruct (set_path c (path l) x) as [c'|]; [|discriminate].
  intros [= <-]. split; [apply length_insert|].
  intros a Ha. apply list_lookup_insert_ne. congruence.
Qed.

Lemma load_app h ext l v : load h l = Some v -> load (h ++ ext) l = Some v.
Proof.
  unfold load. destruct (h !! base l) as [c|] eqn:Hc; [|discriminate].
  rewrite (lookup_app_l_Some _ _ _ _ Hc). trivial.
Qed.

Lemma store_app h ext l x hs :
  store h l x = Some hs -> store (h ++ ext) l x = Some (hs ++ ext).
Proof.
  unfold store. destruct (h !! base l) as [c|] eqn:Hc; [|discriminate].
  rewrite (lookup_app_l_Some _ _ _ _ Hc).
  destruct (set_path c (path l) x) as [c'|]; [|discriminate].
  intros [= <-]. f_equal. apply insert_app_l. eapply lookup_lt_Some; eauto.
Qed.

Lemma load_fresh h c p : load (h ++ [c]) (Loc (length h) p) = get_path c p.
Proof. unfold load. cbn [base path]. rewrite list_lookup_middle by reflexivity. reflexivity. Qed.

Lemma store_fresh h c p x :
  store (h ++ [c]) (Loc (length h) p) x
  = match set_path c p x with
    | Some c' => Some (h ++ [c'])
    | None => None
    end.
Proof.
  unfold store. cbn [base path]. rewrite list_lookup_middle by reflexivity.
  destruct (set_path c p x) as [c'|]; [|reflexivity].
  f_equal. rewrite insert_app_r_alt by lia. rewrite Nat.sub_diag. reflexivity.
Qed.

Lemma set_path_twice p : forall c x0 c0 y,
  set_path c p x0 = Some c0 -> set_path c0 p y = set_path c p y.
Proof.
  induction p as [|i p IH]; intros c x0 c0 y; cbn [set_path].
  - reflexivity.
  - destruct (children c) as [cs|] eqn:Hc; [|discriminate].
    destruct (cs !! i) as [ci|] eqn:Hi; [|discriminate].
    destruct (set_path ci p x0) as [ci0|] eqn:Hs; [|discriminate].
    intros [= <-]. rewrite (children_with_children _ _ _ Hc).
    rewrite list_lookup_insert_eq by (eapply lookup_lt_Some; eauto).
    rewrite (IH _ _ _ y Hs).
    destruct (set_path ci p y) as [ci'|]; [|reflexivity].
    rewrite list_insert_insert_eq. destruct c as [| | | | | |[?|]| | | | | |]; reflexivity.
Qed.

Lemma cell_app (h ext : heap) (a : addr) c :
  h !! a = Some c -> (h ++ ext) !! a = Some c.
Proof. apply lookup_app_l_Some. Qed.

Lemma cell_insert_app (h ext : heap) (a : addr) c c0 :
  h !! a = Some c -> (<[a:=c0]> h ++ ext) !! a = Some c0.
Proof.
  intros Hc. apply lookup_app_l_Some. apply list_lookup_insert_eq.
  eapply lookup_lt_Some; eauto.
Qed.

Lemma cell_insert_twice (h ext : heap) (a : addr) c c0 c' :
  h !! a = Some c -> <[a:=c']> (<[a:=c0]> h ++ ext) = <[a:=c']> (h ++ ext).
Proof.
  intros Hc. pose proof (lookup_lt_Some _ _ _ Hc) as Hlt.
  rewrite !insert_app_l by (rewrite ?length_insert; exact Hlt).
  rewrite list_insert_insert_eq. reflexivity.
Qed.

(** A store into a variable wipes out what an earlier store put there. *)
Lemma store_twice h l x0 h0 y ext :
  store h l x0 = Some h0 ->
  length h0 = length h /\ store (h0 ++ ext) l y = store (h ++ ext) l y.
Proof.
  intros Hst. split; [apply (store_cells _ _ _ _ Hst)|].
  unfold store in *.
  destruct (h !! base l) as [c|] eqn:Hc; [|discriminate].
  destruct (set_path c (path l) x0) as [c0|] eqn:Hs; [|discriminate].
  injection Hst as <-.
  rewrite (cell_insert_app h ext (base l) c c0 Hc), (cell_app h ext (base l) c Hc).
  rewrite (set_path_twice _ _ _ _ y Hs).
  destruct (set_path c (path l) y) as [c'|]; [|reflexivity].
  rewrite (cell_insert_twice h ext (base l) c c0 c' Hc). reflexivity.
Qed.

(** ** [Parse] and its guard *)

Lemma Strct_Parse_with_run E hard val fv h a :
  Interface E fv h = Ret a ->
  Strct.Parse_with E hard val fv h
  = if empty_text (fmt.Sprint E h a) then hard val fv h else (Ret None, h).
Proof.
  intros Ha. unfold Strct.Parse_with, bindM, readM. rewrite Ha.
  destruct (empty_text _); reflexivity.
Qed.

Lemma Base_Parse_with_run E hard val fv h a :
  Interface E fv h = Ret a ->
  Base.Parse_with E hard val fv h
  = if empty_text_base (fmt.Sprint E h a) then hard val fv h else (Ret None, h).
Proof.
  intros Ha. unfold Base.Parse_with, bindM, readM. rewrite Ha.
  destruct (empty_text_base _); reflexivity.
Qed.

(** A settable variable that exists in the store can be boxed (and holds
    an interface value when its type is an interface type). *)
Lemma settable_boxable E t l fl h x :
  CanSet (Ref t l fl) = true -> load h l = Some x ->
  (kind_of E t = reflect.Interface -> exists d, x = VIface d) ->
  exists a, Interface E (Ref t l fl) h = Ret a.
Proof.
  cbn [CanSet]. intros Hset Hl Hi. unfold Interface.
  destruct (flagRO fl); [discriminate|]. cbn [value_of]. rewrite Hl.
  destruct (kind_of E t) eqn:Hk; eauto.
  destruct (Hi eq_refl) as [d ->]. eauto.
Qed.

(** The texts of the guard, one by one. *)
Lemma empty_text_spec s :
  empty_text s = true <-> In s ["false"; "0"; "[]"; EmptyString; "<nil>"].
Proof.
  unfold empty_text. rewrite !orb_true_iff, !String.eqb_eq. cbn [In].
  intuition congruence.
Qed.

(** *** [ParseHard] does not look at what the destination holds *)

Lemma store_over h l x0 h0 y :
  store h l x0 = Some h0 -> store h0 l y = store h l y.
Proof.
  intros Hst. pose proof (proj2 (store_twice h l x0 h0 y [] Hst)) as H.
  rewrite !app_nil_r in H. exact H.
Qed.

Lemma store_over_new h l x0 h0 y c :
  store h l x0 = Some h0 -> store (h0 ++ [c]) l y = store (h ++ [c]) l y.
Proof. intros Hst. exact (proj2 (store_twice h l x0 h0 y [c] Hst)). Qed.

Section Alike.
Context (E : Env) (t : rtype) (l : loc) (fl : flag) (h : heap) (x0 x1 : value)
        (h0 h1 : heap).
Context (Hro : flagRO fl = false)
        (Hst0 : store h l x0 = Some h0) (Hst1 : store h l x1 = Some h1).

Lemma alike_error err : alike h0 h1 (retM (Some err)).
Proof. split; [reflexivity | discriminate]. Qed.

Lemma alike_assign y : alike h0 h1 (bindM (assign (Ref t l fl) y) (fun _ => retM None)).
Proof.
  unfold alike, bindM, assign, retM. cbn [mustBeAssignable]. rewrite Hro.
  rewrite (store_over _ _ _ _ y Hst0), (store_over _ _ _ _ y Hst1).
  destruct (store h l y); split; (reflexivity || discriminate).
Qed.

Lemma alike_assign_new y c :
  alike (h0 ++ [c]) (h1 ++ [c]) (bindM (assign (Ref t l fl) y) (fun _ => retM None)).
Proof.
  unfold alike, bindM, assign, retM. cbn [mustBeAssignable]. rewrite Hro.
  rewrite (store_over_new _ _ _ _ y c Hst0), (store_over_new _ _ _ _ y c Hst1).
  destruct (store (h ++ [c]) l y); split; (reflexivity || discriminate).
Qed.

Lemma alike_Set_new tx x c :
  alike (h0 ++ [c]) (h1 ++ [c])
    (bindM (Set_ E (Ref t l fl) (Imm tx x flag0)) (fun _ => retM None)).
Proof.
  assert (forall k, Set_ E (Ref t l fl) (Imm tx x flag0) k
                    = match kind_of E t with
                      | reflect.Interface =>
                          match kind_of E tx with
                          | reflect.Interface => assign (Ref t l fl) x k
                          | _ => assign (Ref t l fl) (VIface (Some (tx, x))) k
                          end
                      | _ => assign (Ref t l fl) x k
                      end) as Hset.
  { intros k. unfold Set_. cbn [mustBeAssignable flag_of value_of type_of]. rewrite Hro.
    cbn [flagRO flag0 flagStickyRO flagEmbedRO orb].
    destruct (kind_of E t); reflexivity. }
  unfold alike, bindM. rewrite !Hset.
  destruct (kind_of E t); try apply alike_assign_new.
  destruct (kind_of E tx); apply alike_assign_new.
Qed.

Lemma alike_lift {A} (o : outcome A) (k : A -> M (option error)) :
  (forall a, alike h0 h1 (k a)) -> alike h0 h1 (bindM (liftO o) k).
Proof.
  intros Hk. unfold alike, bindM, liftO. destruct o as [a|r].
  - apply Hk.
  - split; [reflexivity | discriminate].
Qed.

Lemma alike_open name :
  alike h0 h1
    (let* r := os_Open_ E name in
     match r with
     | inr err => retM (Some err)
     | inl file => let* _ := Set_ E (Ref t l fl) file in retM None
     end).
Proof.
  pose proof (proj1 (store_twice h l x0 h0 x0 [] Hst0)) as Hlen0.
  pose proof (proj1 (store_twice h l x1 h1 x1 [] Hst1)) as Hlen1.
  unfold alike, bindM, os_Open_.
  destruct (os_Open E name); [split; [reflexivity | discriminate]|].
  cbn [alloc]. rewrite Hlen0, Hlen1.
  exact (alike_Set_new (TPtr os_File) (VPtr (Some (Loc (length h) []))) (VFile name)).
Qed.

Lemma alike_sql_Open driver dsn :
  alike h0 h1
    (let* r := sql_Open_ E driver dsn in
     match r with
     | inr err => retM (Some err)
     | inl db => let* _ := Set_ E (Ref t l fl) db in retM None
     end).
Proof.
  pose proof (proj1 (store_twice h l x0 h0 x0 [] Hst0)) as Hlen0.
  pose proof (proj1 (store_twice h l x1 h1 x1 [] Hst1)) as Hlen1.
  unfold alike, bindM, sql_Open_.
  destruct (sql_Open E driver dsn); [split; [reflexivity | discriminate]|].
  cbn [alloc]. rewrite Hlen0, Hlen1.
  exact (alike_Set_new (TPtr sql_DB) (VPtr (Some (Loc (length h) []))) (VDB driver dsn)).
Qed.

(** Two runs of [ParseHard] on stores that differ in what the destination
    holds: the answers are the same, and when the answer is nil the stores
    afterwards are the same too. *)
Lemma Strct_ParseHard_alike depth val :
  val <> EmptyString -> sets_directly E t = true ->
  alike h0 h1 (Strct.ParseHard E depth val (Ref t l fl)).
Proof.
  intros Hval Hsets. apply String.eqb_neq in Hval. unfold sets_directly in Hsets.
  destruct depth; cbn [Strct.ParseHard Kind type_of]; rewrite Hval;
    (destruct (kind_of E t) eqn:Hk; try discriminate Hsets;
     unfold SetBool, SetInt, SetUint, SetFloat, SetString;
     repeat match goal with
            | |- alike _ _ (retM (Some _)) => apply alike_error
            | |- alike _ _ (bindM (assign _ _) _) => apply alike_assign
            | |- alike _ _ (bindM (liftO _) _) => apply alike_lift; intros ?
            | |- alike _ _ (bindM (os_Open_ _ _) _) => apply alike_open
            | |- alike _ _ (bindM (sql_Open_ _ _ _) _) => apply alike_sql_Open
            | |- alike _ _ (if Strct.is_file_type ?t then _ else _) =>
                destruct (Strct.is_file_type t); [|cbn [orb] in Hsets; rewrite Hsets]
            | |- alike _ _ (match ?x with _ => _ end) => destruct x
            | |- alike _ _ (if ?x then _ else _) => destruct x
            | |- alike _ _ _ => progress cbv zeta
            end).
Qed.

End Alike.


(** ** The empty text *)

Lemma Strct_ParseHard_empty E depth fv h :
  Strct.ParseHard E depth EmptyString fv h = (Ret None, h).
Proof. destruct depth; reflexivity. Qed.

Lemma Base_ParseHard_empty E depth fv h :
  Base.ParseHard E depth EmptyString fv h = (Ret None, h).
Proof. destruct depth; reflexivity. Qed.

(** C9. With the empty text as input [ParseHard] returns nil at once and
    leaves the store as it is, whatever the destination; so does [Parse] on
    a destination whose value can be boxed (as that of every settable
    variable can).  For both revisions. *)
Theorem empty_input_no_effect E depth fv h :
  Strct.ParseHard E depth EmptyString fv h = (Ret None, h)
  /\ Base.ParseHard E depth EmptyString fv h = (Ret None, h)
  /\ (forall a, Interface E fv h = Ret a ->
        Strct.Parse E depth EmptyString fv h = (Ret None, h)
        /\ Base.Parse E depth EmptyString fv h = (Ret None, h)).
Proof.
  split; [apply Strct_ParseHard_empty|].
  split; [apply Base_ParseHard_empty|].
  intros a Ha. unfold Strct.Parse, Base.Parse.
  rewrite (Strct_Parse_with_run _ _ _ _ _ _ Ha), (Base_Parse_with_run _ _ _ _ _ _ Ha).
  rewrite Strct_ParseHard_empty, Base_ParseHard_empty.
  destruct (empty_text _), (empty_text_base _); split; reflexivity.
Qed.

(** ** Durations and other signed integers *)

Lemma eqb_nonempty val : val <> EmptyString -> String.eqb val EmptyString = false.
Proof. intros H. apply String.eqb_neq. exact H. Qed.

(** C7. On a destination of a signed integer kind and a non-empty text,
    [ParseHard] reads the text as a duration literal when the type of the
    destination is named [Duration] in package [time], and stores the
    number of ticks; for every other signed integer type it reads the text
    as an integer of base 0 and of the size of the type.  The text "1h30m"
    puts 5400000000000, ninety minutes in nanoseconds, into a settable
    [time.Duration] variable. *)
Theorem duration_destination E depth val fv h :
  (val <> EmptyString -> signed_kind (Kind E fv) = true ->
   Strct.ParseHard E depth val fv h
   = if is_Duration (type_of fv)
     then set_int_or_fail E fv (time.ParseDuration val) h
     else set_int_or_fail E fv (strconv.ParseInt0 val (Bits E (type_of fv))) h)
  /\ (forall l fl hs,
        typedecl E "time" "Duration" = Some (TBasic reflect.Int64) ->
        flagRO fl = false ->
        store h l (VInt 5400000000000) = Some hs ->
        Strct.ParseHard E depth "1h30m" (Ref (TNamed "time" "Duration") l fl) h
        = (Ret None, hs))
  /\ 5400000000000 = 90 * time.Minute.
Proof.
  assert (forall val fv, val <> EmptyString -> signed_kind (Kind E fv) = true ->
   Strct.ParseHard E depth val fv h
   = if is_Duration (type_of fv)
     then set_int_or_fail E fv (time.ParseDuration val) h
     else set_int_or_fail E fv (strconv.ParseInt0 val (Bits E (type_of fv))) h) as Hgen.
  { clear. intros val fv Hval Hk.
    destruct depth; cbn [Strct.ParseHard]; rewrite (eqb_nonempty _ Hval);
      (destruct (Kind E fv); try discriminate;
       (destruct (is_Duration (type_of fv));
        [ destruct (time.ParseDuration val) as [v|err]
        | destruct (strconv.ParseInt0 val _) as [v|err] ];
        cbn [set_int_or_fail]; unfold bindM, retM; try reflexivity;
        destruct (SetInt E fv v h) as [[[]|a] h']; reflexivity)). }
  split; [apply Hgen|].
  split; [|reflexivity].
  intros l fl hs Hdecl Hro Hst.
  rewrite Hgen.
  - change (is_Duration (type_of (Ref (TNamed "time" "Duration") l fl))) with true.
    cbv iota.
    replace (time.ParseDuration "1h30m") with (@inl Z error 5400000000000)
      by (vm_compute; reflexivity).
    unfold set_int_or_fail, SetInt, assign. cbn [mustBeAssignable type_of].
    rewrite Hro. unfold Bits, kind_of. cbn [underlying]. rewrite Hdecl.
    cbn [kind_of_literal].
    change (wrap_signed 64 5400000000000) with 5400000000000.
    rewrite Hst. reflexivity.
  - discriminate.
  - cbn [Kind]. unfold kind_of. cbn [underlying]. rewrite Hdecl. reflexivity.
Qed.

(** ** Database destinations *)

Lemma sql_DB_not_file : Strct.is_file_type (TPtr sql_DB) = false.
Proof. reflexivity. Qed.

(** C6. On a settable destination of type [*sql.DB], [ParseHard] matches
    the text against [((\w+)\/)?([\w\W\d]+)] and opens the database with
    the second group as driver, [postgres] when that group is empty, and the
    third group as data source name.  The text "mysql/user:pass@host/db"
    opens driver "mysql" with "user:pass@host/db"; the text
    "user:pass@host/db" opens driver "postgres" with the whole text. *)
Theorem database_destination E depth l fl h :
  flagRO fl = false ->
  (forall val m0 m1 m2 m3,
     val <> EmptyString ->
     regexp.FindStringSubmatch dsn_pattern 3 val = Some [m0; m1; m2; m3] ->
     opens_database E l h (if String.eqb m2 EmptyString then "postgres" else m2) m3
       (Strct.ParseHard E depth val (Ref (TPtr sql_DB) l fl) h))
  /\ opens_database E l h "mysql" "user:pass@host/db"
       (Strct.ParseHard E depth "mysql/user:pass@host/db" (Ref (TPtr sql_DB) l fl) h)
  /\ opens_database E l h "postgres" "user:pass@host/db"
       (Strct.ParseHard E depth "user:pass@host/db" (Ref (TPtr sql_DB) l fl) h).
Proof.
  intros Hro.
  assert (forall val m0 m1 m2 m3,
     val <> EmptyString ->
     regexp.FindStringSubmatch dsn_pattern 3 val = Some [m0; m1; m2; m3] ->
     opens_database E l h (if String.eqb m2 EmptyString then "postgres" else m2) m3
       (Strct.ParseHard E depth val (Ref (TPtr sql_DB) l fl) h)) as Hgen.
  { intros val m0 m1 m2 m3 Hval Hm.
    destruct depth; cbn [Strct.ParseHard]; rewrite (eqb_nonempty _ Hval);
      (change (Kind E (Ref (TPtr sql_DB) l fl)) with reflect.Ptr; cbv iota;
       cbn [type_of]; rewrite sql_DB_not_file;
       change (rtype_eqb (TPtr sql_DB) (TPtr sql_DB)) with true; cbv iota;
       rewrite Hm; cbn [Strct.submatch lookup list_lookup];
       unfold bindM at 1, liftO at 1; unfold bindM at 1, liftO at 1;
       set (dvr := if String.eqb m2 EmptyString then "postgres" else m2);
       unfold opens_database, bindM, sql_Open_;
       destruct (sql_Open E dvr m3) as [err|]; [reflexivity|];
       intros hs Hst; cbn [alloc];
       unfold Set_; cbn [mustBeAssignable flag_of flagRO flagStickyRO flagEmbedRO orb];
       rewrite Hro; cbn [value_of type_of];
       change (kind_of E (TPtr sql_DB)) with reflect.Ptr; cbv iota;
       unfold assign; cbn [mustBeAssignable]; rewrite Hro;
       rewrite (store_app _ [VDB dvr m3] _ _ _ Hst); reflexivity). }
  split; [exact Hgen|].
  split.
  - apply (Hgen "mysql/user:pass@host/db" "mysql/user:pass@host/db" "mysql/"
                 "mysql" "user:pass@host/db"); [discriminate|].
    vm_compute. reflexivity.
  - apply (Hgen "user:pass@host/db" "user:pass@host/db" EmptyString
                 EmptyString "user:pass@host/db"); [discriminate|].
    vm_compute. reflexivity.
Qed.

(** ** Code that leaves the old cells of the store alone *)

Ltac unchanged :=
  split; [|split]; auto; try discriminate; try (intros; exact I).

Lemma local_ret {A} n (Q : A -> Prop) x : Q x -> local n Q (retM x).
Proof.
  intros HQ h r h' Hn [= <- <-]. (split; [|split]); auto. intros y [= <-]. exact HQ.
Qed.

Lemma local_abort {A} n (Q : A -> Prop) r : local n Q (abortM r).
Proof. intros h r' h' Hn [= <- <-]. (split; [|split]); auto. discriminate. Qed.

Lemma local_lift {A} n (o : outcome A) : local n any (liftO o).
Proof. intros h r h' Hn [= <- <-]. unchanged. Qed.

Lemma local_read {A} n (f : heap -> outcome A) : local n any (readM f).
Proof. intros h r h' Hn [= <- <-]. unchanged. Qed.

Lemma local_bind {A B} n (Q : A -> Prop) (Q' : B -> Prop) (m : M A) (k : A -> M B) :
  local n Q m -> (forall x, Q x -> local n Q' (k x)) -> local n Q' (bindM m k).
Proof.
  intros Hm Hk h r h' Hn. unfold bindM.
  destruct (m h) as [[x|a] h1] eqn:Hmh.
  - destruct (Hm h _ _ Hn Hmh) as (H1 & H2 & H3).
    intros Hkx. destruct (Hk x (H3 x eq_refl) h1 r h' ltac:(lia) Hkx) as (K1 & K2 & K3).
    (split; [|split]); [lia| |exact K3].
    intros c Hc. rewrite K2 by exact Hc. apply H2. exact Hc.
  - destruct (Hm h _ _ Hn Hmh) as (H1 & H2 & H3).
    intros [= <- <-]. (split; [|split]); auto. discriminate.
Qed.

Lemma local_assign n fv x : based_above n fv -> local n any (assign fv x).
Proof.
  intros Hb h r h' Hn. unfold assign.
  destruct (mustBeAssignable fv) as [l|a] eqn:Hl.
  - assert (n <= base l)%nat as Hbl.
    { destruct fv as [|t v fl|t l' fl]; try discriminate. cbn in Hl, Hb.
      destruct (flagRO fl); [discriminate|]. injection Hl as <-. exact Hb. }
    destruct (store h l x) as [hs|] eqn:Hs.
    + intros [= <- <-]. destruct (store_cells _ _ _ _ Hs) as [Hlen Hcells].
      (split; [|split]); [lia| |intros; exact I].
      intros c Hc. apply Hcells. lia.
    + intros [= <- <-]. unchanged.
  - intros [= <- <-]. unchanged.
Qed.

Lemma local_Set E n fv x : based_above n fv -> local n any (Set_ E fv x).
Proof.
  intros Hb h r h' Hn. unfold Set_.
  destruct (mustBeAssignable fv); [|intros [= <- <-]; unchanged].
  destruct (flagRO (flag_of x)); [intros [= <- <-]; unchanged|].
  destruct (value_of x h) as [vx|]; [|intros [= <- <-]; unchanged].
  destruct (kind_of E (type_of fv)); try (apply local_assign; assumption).
  destruct (kind_of E (type_of x)); apply local_assign; assumption.
Qed.

Lemma local_MakeSlice E n depth typ len :
  local n (based_above n) (MakeSlice E depth typ len).
Proof.
  intros h r h' Hn. unfold MakeSlice.
  destruct (elem_type E typ) as [et|]; [|intros [= <- <-]; unchanged].
  destruct (Zero E depth et) as [z|]; [|intros [= <- <-]; unchanged].
  cbn. intros [= <- <-]. rewrite length_app. cbn.
  (split; [|split]); [lia| |].
  - intros a Ha. apply lookup_app_l. lia.
  - intros x [= <-]. cbn. exact Hn.
Qed.

Lemma local_Index E n slice i :
  based_above n slice -> local n (based_above n) (Index E slice i).
Proof.
  intros Hb h r h' Hn. unfold Index.
  destruct slice as [|t v fl|t l fl];
    try (intros [= <- <-]; unchanged).
  destruct (elem_type E t); [destruct (load h _)|];
    intros [= <- <-]; (split; [|split]); auto; try discriminate.
  intros x [= <-]. exact Hb.
Qed.

Lemma local_open E n name :
  local n (fun r => match r with inl v => flag_of v = flag0 | inr _ => True end)
    (os_Open_ E name).
Proof.
  intros h r h' Hn. unfold os_Open_.
  destruct (os_Open E name).
  - intros [= <- <-]. (split; [|split]); auto. intros x [= <-]. exact I.
  - cbn. intros [= <- <-]. rewrite length_app. cbn.
    (split; [|split]); [lia| |].
    + intros a Ha. apply lookup_app_l. lia.
    + intros x [= <-]. reflexivity.
Qed.

Lemma local_sql_Open E n driver dsn :
  local n (fun r => match r with inl v => flag_of v = flag0 | inr _ => True end)
    (sql_Open_ E driver dsn).
Proof.
  intros h r h' Hn. unfold sql_Open_.
  destruct (sql_Open E driver dsn).
  - intros [= <- <-]. (split; [|split]); auto. intros x [= <-]. exact I.
  - cbn. intros [= <- <-]. rewrite length_app. cbn.
    (split; [|split]); [lia| |].
    + intros a Ha. apply lookup_app_l. lia.
    + intros x [= <-]. reflexivity.
Qed.

Lemma local_range_parts n body parts : forall i,
  (forall i part, local n any (body i part)) ->
  local n any (range_parts body i parts).
Proof.
  induction parts as [|part rest IH]; intros i Hb; cbn [range_parts].
  - apply local_ret. exact I.
  - eapply local_bind; [apply Hb|].
    intros [e|] _; [apply local_ret; exact I | apply IH; exact Hb].
Qed.

Lemma local_slice_part E n parse slice i part :
  based_above n slice ->
  (forall val fv, based_above n fv -> local n any (parse val fv)) ->
  local n any (slice_part E parse slice i part).
Proof.
  intros Hs Hp. unfold slice_part.
  eapply local_bind; [apply local_Index; exact Hs|].
  intros in_ Hin. apply Hp. exact Hin.
Qed.

Lemma Strct_Parse_with_local E n hard val fv :
  (forall val fv, based_above n fv -> local n any (hard val fv)) ->
  based_above n fv -> local n any (Strct.Parse_with E hard val fv).
Proof.
  intros Hh Hb. unfold Strct.Parse_with.
  eapply local_bind; [apply local_read|]. intros a _.
  eapply local_bind; [apply local_read|]. intros text _.
  destruct (empty_text text); [apply Hh; exact Hb | apply local_ret; exact I].
Qed.

Lemma Base_Parse_with_local E n hard val fv :
  (forall val fv, based_above n fv -> local n any (hard val fv)) ->
  based_above n fv -> local n any (Base.Parse_with E hard val fv).
Proof.
  intros Hh Hb. unfold Base.Parse_with.
  eapply local_bind; [apply local_read|]. intros a _.
  eapply local_bind; [apply local_read|]. intros text _.
  destruct (empty_text_base text); cbn [negb];
    [apply Hh; exact Hb | apply local_ret; exact I].
Qed.

(** The cases of [ParseHard] that end in one assignment. *)
Ltac local_scalar :=
  unfold SetBool, SetInt, SetUint, SetFloat, SetString;
  repeat match goal with
         | |- local _ _ (retM _) => apply local_ret; exact I
         | |- local _ _ (abortM _) => apply local_abort
         | |- local _ _ (bindM (assign _ _) _) =>
             eapply local_bind; [apply local_assign; assumption | intros ? _]
         | |- local _ _ (match ?x with _ => _ end) => destruct x
         end.

(** The case of a slice, given the fact for the recursive call. *)
Ltac local_slice parse_lemma Hrec :=
  eapply local_bind; [apply local_MakeSlice|];
  intros slice Hslice;
  eapply local_bind;
  [ apply local_range_parts; intros i part;
    apply local_slice_part; [exact Hslice|];
    intros val' fv' Hfv'; apply parse_lemma; [exact Hrec | exact Hfv']
  | intros [e|] _;
    [ apply local_ret; exact I
    | eapply local_bind; [apply local_Set; assumption | intros ? _; apply local_ret; exact I] ] ].

Lemma Strct_ParseHard_local E n depth :
  forall val fv, based_above n fv -> local n any (Strct.ParseHard E depth val fv).
Proof.
  induction depth as [|d IH]; intros val fv Hb; cbn [Strct.ParseHard];
    (destruct (String.eqb val EmptyString); [apply local_ret; exact I|]).
  - assert (forall val fv, based_above n fv ->
              local n any ((fun (_ : string) (_ : Value) =>
                              @abortM (option error) OutOfFuel) val fv)) as Hrec
      by (intros; apply local_abort).
    destruct (Kind E fv); try (apply local_ret; exact I); try local_scalar.
    + eapply local_bind; [apply local_open|]. intros [file|err] Hfile;
        [|apply local_ret; exact I].
      eapply local_bind; [apply local_Set; assumption|].
      intros ? _. apply local_ret; exact I.
    + eapply local_bind; [apply local_lift|]. intros dvr _.
      eapply local_bind; [apply local_lift|]. intros cs _.
      eapply local_bind; [apply local_sql_Open|]. intros [db|err] Hdb;
        [|apply local_ret; exact I].
      eapply local_bind; [apply local_Set; assumption|].
      intros ? _. apply local_ret; exact I.
    + eapply local_bind; [apply local_open|]. intros [file|err] Hfile;
        [|apply local_ret; exact I].
      eapply local_bind; [apply local_Set; assumption|].
      intros ? _. apply local_ret; exact I.
    + eapply local_bind; [apply local_lift|]. intros dvr _.
      eapply local_bind; [apply local_lift|]. intros cs _.
      eapply local_bind; [apply local_sql_Open|]. intros [db|err] Hdb;
        [|apply local_ret; exact I].
      eapply local_bind; [apply local_Set; assumption|].
      intros ? _. apply local_ret; exact I.
    + local_slice Strct_Parse_with_local Hrec.
  - destruct (Kind E fv); try (apply local_ret; exact I); try local_scalar.
    + eapply local_bind; [apply local_open|]. intros [file|err] Hfile;
        [|apply local_ret; exact I].
      eapply local_bind; [apply local_Set; assumption|].
      intros ? _. apply local_ret; exact I.
    + eapply local_bind; [apply local_lift|]. intros dvr _.
      eapply local_bind; [apply local_lift|]. intros cs _.
      eapply local_bind; [apply local_sql_Open|]. intros [db|err] Hdb;
        [|apply local_ret; exact I].
      eapply local_bind; [apply local_Set; assumption|].
      intros ? _. apply local_ret; exact I.
    + eapply local_bind; [apply local_open|]. intros [file|err] Hfile;
        [|apply local_ret; exact I].
      eapply local_bind; [apply local_Set; assumption|].
      intros ? _. apply local_ret; exact I.
    + eapply local_bind; [apply local_lift|]. intros dvr _.
      eapply local_bind; [apply local_lift|]. intros cs _.
      eapply local_bind; [apply local_sql_Open|]. intros [db|err] Hdb;
        [|apply local_ret; exact I].
      eapply local_bind; [apply local_Set; assumption|].
      intros ? _. apply local_ret; exact I.
    + local_slice Strct_Parse_with_local IH.
Qed.

Lemma Base_ParseHard_local E n depth :
  forall val fv, based_above n fv -> local n any (Base.ParseHard E depth val fv).
Proof.
  induction depth as [|d IH]; intros val fv Hb; cbn [Base.ParseHard];
    (destruct (String.eqb val EmptyString); [apply local_ret; exact I|]).
  - assert (forall val fv, based_above n fv ->
              local n any ((fun (_ : string) (_ : Value) =>
                              @abortM (option error) OutOfFuel) val fv)) as Hrec
      by (intros; apply local_abort).
    destruct (Kind E fv); try (apply local_ret; exact I); try local_scalar.
    local_slice Base_Parse_with_local Hrec.
  - destruct (Kind E fv); try (apply local_ret; exact I); try local_scalar.
    local_slice Base_Parse_with_local IH.
Qed.

(** ** Lists *)

Lemma Strct_ParseHard_slice E depth val fv :
  val <> EmptyString -> Kind E fv = reflect.Slice ->
  Strct.ParseHard E depth val fv
  = list_case E (Strct.Parse_with E (Strct_ParseHard_rec E depth)) depth val fv.
Proof.
  intros Hval Hk.
  destruct depth; cbn [Strct.ParseHard]; rewrite (eqb_nonempty _ Hval), Hk; reflexivity.
Qed.

Lemma Base_ParseHard_slice E depth val fv :
  val <> EmptyString -> Kind E fv = reflect.Slice ->
  Base.ParseHard E depth val fv
  = list_case E (Base.Parse_with E (Base_ParseHard_rec E depth)) depth val fv.
Proof.
  intros Hval Hk.
  destruct depth; cbn [Base.ParseHard]; rewrite (eqb_nonempty _ Hval), Hk; reflexivity.
Qed.

Lemma Strct_ParseHard_rec_local E n depth val fv :
  based_above n fv -> local n any (Strct_ParseHard_rec E depth val fv).
Proof.
  intros Hb. destruct depth; [apply local_abort | apply Strct_ParseHard_local; exact Hb].
Qed.

Lemma Base_ParseHard_rec_local E n depth val fv :
  based_above n fv -> local n any (Base_ParseHard_rec E depth val fv).
Proof.
  intros Hb. destruct depth; [apply local_abort | apply Base_ParseHard_local; exact Hb].
Qed.

(** An error of the loop over the parts is the error of one of the parts. *)
Lemma range_parts_error body parts : forall i h e h1,
  range_parts body i parts h = (Ret (Some e), h1) ->
  exists k part h', parts !! k = Some part
                    /\ body (i + k)%nat part h' = (Ret (Some e), h1).
Proof.
  induction parts as [|part rest IH]; intros i h e h1; cbn [range_parts].
  - discriminate.
  - unfold bindM at 1. destruct (body i part h) as [[[e'|]|a] h'] eqn:Hb.
    + intros [= <- <-]. exists 0%nat, part, h. rewrite Nat.add_0_r. split; [reflexivity|exact Hb].
    + intros Hrest. destruct (IH _ _ _ _ Hrest) as (k & part' & h'' & Hk & Hbody).
      exists (S k), part', h''. split; [exact Hk|].
      replace (i + S k)%nat with (S i + k)%nat by lia. exact Hbody.
    + discriminate.
Qed.

Lemma list_case_error E parse depth val fv h e h1 :
  (forall val fv, based_above (length h) fv -> local (length h) any (parse val fv)) ->
  element_error E parse depth val fv h e h1 ->
  list_case E parse depth val fv h = (Ret (Some e), h1)
  /\ (exists slice k part h',
        strings.Split val ";"%char !! k = Some part
        /\ slice_part E parse slice k part h' = (Ret (Some e), h1))
  /\ (forall l, (base l < length h)%nat -> load h1 l = load h l).
Proof.
  intros Hparse (slice & h0 & Hmk & Hloop).
  split; [|split].
  - unfold list_case, bindM. rewrite Hmk, Hloop. reflexivity.
  - destruct (range_parts_error _ _ _ _ _ _ Hloop) as (k & part & h' & Hk & Hbody).
    exists slice, k, part, h'. split; [exact Hk | exact Hbody].
  - destruct (local_MakeSlice E (length h) (S depth) (type_of fv) _ h _ _
                (Nat.le_refl _) Hmk) as (Hlen0 & Hcells0 & Hslice).
    specialize (Hslice slice eq_refl).
    assert (local (length h) any
              (range_parts (slice_part E parse slice) 0 (strings.Split val ";"%char)))
      as Hl.
    { apply local_range_parts. intros i part. apply local_slice_part; assumption. }
    destruct (Hl h0 _ _ Hlen0 Hloop) as (Hlen1 & Hcells1 & _).
    intros l Hbase. unfold load. rewrite Hcells1, Hcells0 by exact Hbase. reflexivity.
Qed.

Lemma range_parts_coerce_each E parse slice parts : forall i h,
  range_parts (slice_part E parse slice) i parts h
  = coerce_each E parse slice i (map strings.TrimSpace parts) h.
Proof.
  induction parts as [|part rest IH]; intros i h; cbn [range_parts coerce_each map].
  - reflexivity.
  - unfold slice_part, bindM.
    destruct (Index E slice i h) as [[el|a] h0]; [|reflexivity].
    destruct (parse (strings.TrimSpace part) el h0) as [[[e|]|a] h1]; try reflexivity.
    apply IH.
Qed.

Lemma list_case_rule E parse depth val fv h :
  list_case E parse depth val fv h = list_rule E parse depth val fv h.
Proof.
  unfold list_case, list_rule. rewrite length_map. unfold bindM.
  destruct (MakeSlice E (S depth) (type_of fv) _ h) as [[slice|a] h0]; [|reflexivity].
  rewrite range_parts_coerce_each. reflexivity.
Qed.

(** *** Lists of integers *)

Lemma int_element E d h es i text v :
  es !! i = Some (VInt 0) -> int_text text = Some v ->
  (let* element := Index E (Ref int_slice (Loc (length h) []) flag0) i in
   Strct.Parse_with E (Strct.ParseHard E d) text element) (h ++ [VSlice (Some es)])
  = (Ret None, h ++ [VSlice (Some (<[i:=VInt v]> es))]).
Proof.
  intros Hi Hv. unfold bindM at 1, Index. cbn [base path app].
  change (elem_type E int_slice) with (Some (TBasic reflect.Int)). cbv iota.
  rewrite load_fresh. cbn [get_path children]. rewrite Hi.
  change (Flag (flagRO flag0) false) with flag0.
  set (el := Ref (TBasic reflect.Int) (Loc (length h) [i]) flag0).
  assert (Interface E el (h ++ [VSlice (Some es)])
          = Ret (Some (TBasic reflect.Int, VInt 0))) as HI.
  { unfold Interface, el. cbn [flagRO flag0 flagStickyRO flagEmbedRO orb value_of].
    rewrite load_fresh. cbn [get_path children]. rewrite Hi. reflexivity. }
  rewrite (Strct_Parse_with_run _ _ _ _ _ _ HI).
  change (empty_text (fmt.Sprint E (h ++ [VSlice (Some es)])
                        (Some (TBasic reflect.Int, VInt 0)))) with true.
  cbv iota. unfold int_text in Hv.
  destruct d; cbn [Strct.ParseHard];
    (destruct (String.eqb text EmptyString);
     [ injection Hv as <-; rewrite list_insert_id by exact Hi; reflexivity |];
     change (Kind E el) with reflect.Int; cbv iota;
     change (is_Duration (type_of el)) with false; cbv iota;
     change (Bits E (type_of el)) with 64;
     destruct (strconv.ParseInt0 text 64) as [n|err]; [|discriminate];
     injection Hv as <-;
     unfold bindM, SetInt, assign, el; cbn [mustBeAssignable flagRO flag0 flagStickyRO flagEmbedRO orb type_of];
     change (Bits E (TBasic reflect.Int)) with 64;
     rewrite store_fresh; cbn [set_path children]; rewrite Hi; reflexivity).
Qed.

Lemma int_elements E d h : forall texts vs done,
  Forall2 (fun text v => int_text text = Some v) texts vs ->
  coerce_each E (Strct.Parse_with E (Strct.ParseHard E d))
    (Ref int_slice (Loc (length h) []) flag0) (length done) texts
    (h ++ [VSlice (Some (done ++ replicate (length texts) (VInt 0)))])
  = (Ret None, h ++ [VSlice (Some (done ++ map VInt vs))]).
Proof.
  induction texts as [|text rest IH]; intros vs done Hall;
    inversion Hall as [|? v ? vs' Hv Hrest]; subst; cbn [coerce_each length replicate map].
  - reflexivity.
  - pose proof (int_element E d h (done ++ VInt 0 :: replicate (length rest) (VInt 0))
                  (length done) text v
                  (list_lookup_middle _ _ _ _ eq_refl) Hv) as Hel.
    unfold bindM in *.
    destruct (Index E _ (length done) _) as [[el|a] h0]; [|discriminate].
    rewrite Hel.
    rewrite insert_app_r_alt by lia. rewrite Nat.sub_diag. cbn [insert list_insert].
    specialize (IH vs' (done ++ [VInt v]) Hrest).
    rewrite length_app in IH. cbn [length] in IH.
    rewrite Nat.add_1_r in IH. rewrite <- !app_assoc in IH. exact IH.
Qed.

Lemma int_list E d val l fl h vs hs :
  val <> EmptyString -> flagRO fl = false ->
  Forall2 (fun part v => int_text (strings.TrimSpace part) = Some v)
    (strings.Split val ";"%char) vs ->
  store h l (VSlice (Some (map VInt vs))) = Some hs ->
  Strct.ParseHard E (S d) val (Ref int_slice l fl) h
  = (Ret None, hs ++ [VSlice (Some (map VInt vs))]).
Proof.
  intros Hval Hro Hall Hst.
  rewrite Strct_ParseHard_slice by (exact Hval || reflexivity).
  rewrite list_case_rule. unfold list_rule. cbn [type_of Strct_ParseHard_rec].
  unfold bindM at 1, MakeSlice.
  change (elem_type E int_slice) with (Some (TBasic reflect.Int)). cbv iota.
  change (Zero E (S (S d)) (TBasic reflect.Int)) with (Some (VInt 0)). cbv iota.
  cbn [alloc]. unfold bindM at 1.
  assert (Forall2 (fun text v => int_text text = Some v)
            (map strings.TrimSpace (strings.Split val ";"%char)) vs) as Hall'.
  { clear -Hall. induction Hall; cbn [map]; constructor; assumption. }
  pose proof (int_elements E d h _ vs [] Hall') as Hloop.
  cbn [length app] in Hloop. rewrite Hloop.
  unfold bindM, Set_. cbn [mustBeAssignable flag_of]. rewrite Hro.
  cbn [flagRO flag0 flagStickyRO flagEmbedRO orb value_of].
  rewrite load_fresh. cbn [get_path type_of].
  change (kind_of E int_slice) with reflect.Slice. cbv iota.
  unfold assign. cbn [mustBeAssignable]. rewrite Hro.
  rewrite (store_app _ _ _ _ _ Hst). reflexivity.
Qed.

(** C8. On a destination of slice kind and a non-empty text, [ParseHard]
    is the list rule: the text is split on [;], each part is trimmed and
    coerced by [Parse] into its element of a fresh sequence of as many
    zero elements as there are parts, and the sequence is assigned.  On a
    settable [[]int] variable, when every trimmed part spells an integer
    the variable ends up holding exactly these integers; "1;2;3" and
    "1 ; 2 ;3" both leave [1 2 3]. *)
Theorem list_destination E depth val fv h :
  (val <> EmptyString -> Kind E fv = reflect.Slice ->
   Strct.ParseHard E depth val fv h
   = list_rule E (Strct.Parse_with E (Strct_ParseHard_rec E depth)) depth val fv h)
  /\ (forall d l fl vs hs,
        depth = S d -> val <> EmptyString -> flagRO fl = false ->
        Forall2 (fun part v => int_text (strings.TrimSpace part) = Some v)
          (strings.Split val ";"%char) vs ->
        store h l (VSlice (Some (map VInt vs))) = Some hs ->
        Strct.ParseHard E depth val (Ref int_slice l fl) h
        = (Ret None, hs ++ [VSlice (Some (map VInt vs))]))
  /\ (forall d l fl hs,
        depth = S d -> flagRO fl = false ->
        store h l (VSlice (Some [VInt 1; VInt 2; VInt 3])) = Some hs ->
        Strct.ParseHard E depth "1;2;3" (Ref int_slice l fl) h
        = (Ret None, hs ++ [VSlice (Some [VInt 1; VInt 2; VInt 3])])
        /\ Strct.ParseHard E depth "1 ; 2 ;3" (Ref int_slice l fl) h
           = (Ret None, hs ++ [VSlice (Some [VInt 1; VInt 2; VInt 3])])).
Proof.
  split; [|split].
  - intros Hval Hk. rewrite (Strct_ParseHard_slice _ _ _ _ Hval Hk).
    apply list_case_rule.
  - intros d l fl vs hs -> Hval Hro Hall Hst. apply int_list; assumption.
  - intros d l fl hs -> Hro Hst.
    split; apply (int_list E d _ l fl h [1; 2; 3] hs); try assumption;
      try discriminate.
    + change (strings.Split "1;2;3" ";"%char) with ["1"; "2"; "3"].
      repeat constructor.
    + change (strings.Split "1 ; 2 ;3" ";"%char) with ["1 "; " 2 "; "3"].
      repeat constructor.
Qed.

(** *** A part that does not spell an integer *)

(** The loop over the parts ends at the first part that fails, with the
    error of this part. *)
Lemma range_parts_stop body : forall k parts part i h hk e h1,
  parts !! k = Some part ->
  range_parts body i (take k parts) h = (Ret None, hk) ->
  body (i + k)%nat part hk = (Ret (Some e), h1) ->
  range_parts body i parts h = (Ret (Some e), h1).
Proof.
  induction k as [|k IH]; intros [|p rest] part i h hk e h1 Hk; try discriminate Hk;
    cbn [take range_parts].
  - injection Hk as ->. intros [= <-]. rewrite Nat.add_0_r. intros Hbody.
    unfold bindM. rewrite Hbody. reflexivity.
  - unfold bindM at 1 2.
    destruct (body i p h) as [[[e'|]|a] h'] eqn:Hb; try discriminate.
    rewrite Nat.add_succ_r. intros Hbefore Hbody.
    exact (IH rest part (S i) h' hk e h1 Hk Hbefore Hbody).
Qed.

Lemma part_fails_element_error E parse depth val fv h e h1 :
  part_fails E parse depth val fv h e h1 -> element_error E parse depth val fv h e h1.
Proof.
  intros (slice & h0 & k & part & hk & Hmk & Hk & Hbefore & Hbody).
  exists slice, h0. split; [exact Hmk|].
  exact (range_parts_stop _ k _ part 0%nat h0 hk e h1 Hk Hbefore Hbody).
Qed.

Lemma int_element_fails E d h es i text err :
  es !! i = Some (VInt 0) -> text <> EmptyString ->
  strconv.ParseInt0 text 64 = inr err ->
  (let* element := Index E (Ref int_slice (Loc (length h) []) flag0) i in
   Strct.Parse_with E (Strct.ParseHard E d) text element) (h ++ [VSlice (Some es)])
  = (Ret (Some err), h ++ [VSlice (Some es)]).
Proof.
  intros Hi Htext Herr. unfold bindM at 1, Index. cbn [base path app].
  change (elem_type E int_slice) with (Some (TBasic reflect.Int)). cbv iota.
  rewrite load_fresh. cbn [get_path children]. rewrite Hi.
  change (Flag (flagRO flag0) false) with flag0.
  set (el := Ref (TBasic reflect.Int) (Loc (length h) [i]) flag0).
  assert (Interface E el (h ++ [VSlice (Some es)])
          = Ret (Some (TBasic reflect.Int, VInt 0))) as HI.
  { unfold Interface, el. cbn [flagRO flag0 flagStickyRO flagEmbedRO orb value_of].
    rewrite load_fresh. cbn [get_path children]. rewrite Hi. reflexivity. }
  rewrite (Strct_Parse_with_run _ _ _ _ _ _ HI).
  change (empty_text (fmt.Sprint E (h ++ [VSlice (Some es)])
                        (Some (TBasic reflect.Int, VInt 0)))) with true.
  cbv iota.
  destruct d; cbn [Strct.ParseHard]; rewrite (eqb_nonempty _ Htext);
    change (Kind E el) with reflect.Int; cbv iota;
    change (is_Duration (type_of el)) with false; cbv iota;
    change (Bits E (type_of el)) with 64; rewrite Herr; reflexivity.
Qed.

Lemma Base_int_element E d h es i text v :
  es !! i = Some (VInt 0) -> int_text text = Some v ->
  (let* element := Index E (Ref int_slice (Loc (length h) []) flag0) i in
   Base.Parse_with E (Base.ParseHard E d) text element) (h ++ [VSlice (Some es)])
  = (Ret None, h ++ [VSlice (Some (<[i:=VInt v]> es))]).
Proof.
  intros Hi Hv. unfold bindM at 1, Index. cbn [base path app].
  change (elem_type E int_slice) with (Some (TBasic reflect.Int)). cbv iota.
  rewrite load_fresh. cbn [get_path children]. rewrite Hi.
  change (Flag (flagRO flag0) false) with flag0.
  set (el := Ref (TBasic reflect.Int) (Loc (length h) [i]) flag0).
  assert (Interface E el (h ++ [VSlice (Some es)])
          = Ret (Some (TBasic reflect.Int, VInt 0))) as HI.
  { unfold Interface, el. cbn [flagRO flag0 flagStickyRO flagEmbedRO orb value_of].
    rewrite load_fresh. cbn [get_path children]. rewrite Hi. reflexivity. }
  rewrite (Base_Parse_with_run _ _ _ _ _ _ HI).
  change (empty_text_base (fmt.Sprint E (h ++ [VSlice (Some es)])
                             (Some (TBasic reflect.Int, VInt 0)))) with true.
  cbv iota. unfold int_text in Hv.
  destruct d; cbn [Base.ParseHard];
    (destruct (String.eqb text EmptyString);
     [ injection Hv as <-; rewrite list_insert_id by exact Hi; reflexivity |];
     change (Kind E el) with reflect.Int; cbv iota;
     change (is_Duration (type_of el)) with false; cbv iota;
     change (Bits E (type_of el)) with 64;
     destruct (strconv.ParseInt0 text 64) as [n|err]; [|discriminate];
     injection Hv as <-;
     unfold bindM, SetInt, assign, el; cbn [mustBeAssignable flagRO flag0 flagStickyRO flagEmbedRO orb type_of];
     change (Bits E (TBasic reflect.Int)) with 64;
     rewrite store_fresh; cbn [set_path children]; rewrite Hi; reflexivity).
Qed.

Lemma Base_int_element_fails E d h es i text err :
  es !! i = Some (VInt 0) -> text <> EmptyString ->
  strconv.ParseInt0 text 64 = inr err ->
  (let* element := Index E (Ref int_slice (Loc (length h) []) flag0) i in
   Base.Parse_with E (Base.ParseHard E d) text element) (h ++ [VSlice (Some es)])
  = (Ret (Some err), h ++ [VSlice (Some es)]).
Proof.
  intros Hi Htext Herr. unfold bindM at 1, Index. cbn [base path app].
  change (elem_type E int_slice) with (Some (TBasic reflect.Int)). cbv iota.
  rewrite load_fresh. cbn [get_path children]. rewrite Hi.
  change (Flag (flagRO flag0) false) with flag0.
  set (el := Ref (TBasic reflect.Int) (Loc (length h) [i]) flag0).
  assert (Interface E el (h ++ [VSlice (Some es)])
          = Ret (Some (TBasic reflect.Int, VInt 0))) as HI.
  { unfold Interface, el. cbn [flagRO flag0 flagStickyRO flagEmbedRO orb value_of].
    rewrite load_fresh. cbn [get_path children]. rewrite Hi. reflexivity. }
  rewrite (Base_Parse_with_run _ _ _ _ _ _ HI).
  change (empty_text_base (fmt.Sprint E (h ++ [VSlice (Some es)])
                             (Some (TBasic reflect.Int, VInt 0)))) with true.
  cbv iota.
  destruct d; cbn [Base.ParseHard]; rewrite (eqb_nonempty _ Htext);
    change (Kind E el) with reflect.Int; cbv iota;
    change (is_Duration (type_of el)) with false; cbv iota;
    change (Bits E (type_of el)) with 64; rewrite Herr; reflexivity.
Qed.

(** The loop over the texts of an [int] list, whatever code parses the
    elements: the texts before [bad] are stored, [bad] ends the loop, and
    the elements from there on stay zero. *)
Lemma int_elements_stop E parse h bad err rest :
  (forall es i text v,
     es !! i = Some (VInt 0) -> int_text text = Some v ->
     (let* element := Index E (Ref int_slice (Loc (length h) []) flag0) i in
      parse text element) (h ++ [VSlice (Some es)])
     = (Ret None, h ++ [VSlice (Some (<[i:=VInt v]> es))])) ->
  (forall es i,
     es !! i = Some (VInt 0) ->
     (let* element := Index E (Ref int_slice (Loc (length h) []) flag0) i in
      parse bad element) (h ++ [VSlice (Some es)])
     = (Ret (Some err), h ++ [VSlice (Some es)])) ->
  forall goods vs done,
    Forall2 (fun text v => int_text text = Some v) goods vs ->
    coerce_each E parse (Ref int_slice (Loc (length h) []) flag0) (length done)
      (goods ++ bad :: rest)
      (h ++ [VSlice (Some (done ++ replicate (length (goods ++ bad :: rest)) (VInt 0)))])
    = (Ret (Some err),
       h ++ [VSlice (Some (done ++ map VInt vs ++ replicate (S (length rest)) (VInt 0)))]).
Proof.
  intros Hgood Hbad.
  induction goods as [|text goods IH]; intros vs done Hall;
    inversion Hall as [|? v ? vs' Hv Hrest]; subst;
    cbn [app coerce_each length replicate map].
  - pose proof (Hbad (done ++ VInt 0 :: replicate (length rest) (VInt 0)) (length done)
                  (list_lookup_middle _ _ _ _ eq_refl)) as Hel.
    unfold bindM in *.
    destruct (Index E _ (length done) _) as [[el|a] h0]; [|discriminate].
    rewrite Hel. reflexivity.
  - pose proof (Hgood (done ++ VInt 0 :: replicate (length (goods ++ bad :: rest)) (VInt 0))
                  (length done) text v
                  (list_lookup_middle _ _ _ _ eq_refl) Hv) as Hel.
    unfold bindM in *.
    destruct (Index E _ (length done) _) as [[el|a] h0]; [|discriminate].
    rewrite Hel.
    rewrite insert_app_r_alt by lia. rewrite Nat.sub_diag. cbn [insert list_insert].
    specialize (IH vs' (done ++ [VInt v]) Hrest).
    rewrite length_app in IH. cbn [length] in IH.
    rewrite Nat.add_1_r in IH. rewrite <- !app_assoc in IH. exact IH.
Qed.

Lemma int_list_case_stops E parse depth val l fl h goods bad rest vs err :
  (forall es i text v,
     es !! i = Some (VInt 0) -> int_text text = Some v ->
     (let* element := Index E (Ref int_slice (Loc (length h) []) flag0) i in
      parse text element) (h ++ [VSlice (Some es)])
     = (Ret None, h ++ [VSlice (Some (<[i:=VInt v]> es))])) ->
  (forall es i,
     es !! i = Some (VInt 0) ->
     (let* element := Index E (Ref int_slice (Loc (length h) []) flag0) i in
      parse (strings.TrimSpace bad) element) (h ++ [VSlice (Some es)])
     = (Ret (Some err), h ++ [VSlice (Some es)])) ->
  strings.Split val ";"%char = goods ++ bad :: rest ->
  Forall2 (fun part v => int_text (strings.TrimSpace part) = Some v) goods vs ->
  list_case E parse depth val (Ref int_slice l fl) h
  = (Ret (Some err),
     h ++ [VSlice (Some (map VInt vs ++ replicate (S (length rest)) (VInt 0)))]).
Proof.
  intros Hgood Hbad Hsplit Hall.
  rewrite list_case_rule. unfold list_rule. cbn [type_of]. rewrite Hsplit.
  unfold bindM at 1, MakeSlice.
  change (elem_type E int_slice) with (Some (TBasic reflect.Int)). cbv iota.
  change (Zero E (S depth) (TBasic reflect.Int)) with (Some (VInt 0)). cbv iota.
  cbn [alloc]. unfold bindM at 1.
  assert (Forall2 (fun text v => int_text text = Some v)
            (map strings.TrimSpace goods) vs) as Hall'.
  { clear -Hall. induction Hall; cbn [map]; constructor; assumption. }
  rewrite map_app. cbn [map].
  pose proof (int_elements_stop E parse h (strings.TrimSpace bad) err
                (map strings.TrimSpace rest) Hgood Hbad _ vs [] Hall') as Hloop.
  cbn [length app] in Hloop. rewrite length_map in Hloop. rewrite Hloop. reflexivity.
Qed.

(** C10. On a destination of slice kind, when the coercion of a part of
    the text fails, after the parts before it have been coerced,
    [ParseHard] returns the error of that part, and every variable that
    existed before the call, the destination among them, holds the value
    it held: the new sequence is assigned only after the loop.  For both
    revisions.  So on a variable of type [[]int]: when the text has a part
    that is not empty and does not spell an integer, and the parts before
    it do, [ParseHard] of both revisions returns the error of
    [strconv.ParseInt] for this part; the store is as it was, but for the
    new sequence, which holds the integers of the parts before and zeros
    from there on, and which no variable refers to. *)
Theorem list_error_keeps_destination E depth val fv h e h1 :
  val <> EmptyString -> Kind E fv = reflect.Slice ->
  (part_fails E (Strct.Parse_with E (Strct_ParseHard_rec E depth)) depth val fv h e h1 ->
   Strct.ParseHard E depth val fv h = (Ret (Some e), h1)
   /\ (forall l, (base l < length h)%nat -> load h1 l = load h l))
  /\ (part_fails E (Base.Parse_with E (Base_ParseHard_rec E depth)) depth val fv h e h1 ->
      Base.ParseHard E depth val fv h = (Ret (Some e), h1)
      /\ (forall l, (base l < length h)%nat -> load h1 l = load h l))
  /\ (forall d l fl goods bad rest vs,
        depth = S d -> fv = Ref int_slice l fl ->
        strings.Split val ";"%char = goods ++ bad :: rest ->
        Forall2 (fun part v => int_text (strings.TrimSpace part) = Some v) goods vs ->
        strings.TrimSpace bad <> EmptyString ->
        strconv.ParseInt0 (strings.TrimSpace bad) 64 = inr e ->
        let left :=
          h ++ [VSlice (Some (map VInt vs ++ replicate (S (length rest)) (VInt 0)))] in
        Strct.ParseHard E depth val fv h = (Ret (Some e), left)
        /\ Base.ParseHard E depth val fv h = (Ret (Some e), left)).
Proof.
  intros Hval Hk. split; [|split].
  - intros Hfails. apply part_fails_element_error in Hfails.
    rewrite (Strct_ParseHard_slice _ _ _ _ Hval Hk).
    refine ((fun H => conj (proj1 H) (proj2 (proj2 H))) (list_case_error _ _ _ _ _ _ _ _ _ Hfails)).
    intros val' fv' Hb. apply Strct_Parse_with_local; [|exact Hb].
    intros val'' fv'' Hb'. apply Strct_ParseHard_rec_local. exact Hb'.
  - intros Hfails. apply part_fails_element_error in Hfails.
    rewrite (Base_ParseHard_slice _ _ _ _ Hval Hk).
    refine ((fun H => conj (proj1 H) (proj2 (proj2 H))) (list_case_error _ _ _ _ _ _ _ _ _ Hfails)).
    intros val' fv' Hb. apply Base_Parse_with_local; [|exact Hb].
    intros val'' fv'' Hb'. apply Base_ParseHard_rec_local. exact Hb'.
  - intros d l fl goods bad rest vs -> -> Hsplit Hall Hbad He left.
    rewrite (Strct_ParseHard_slice _ _ _ _ Hval Hk), (Base_ParseHard_slice _ _ _ _ Hval Hk).
    cbn [Strct_ParseHard_rec Base_ParseHard_rec].
    split; apply (int_list_case_stops E _ (S d) val l fl h goods bad rest vs e);
      try assumption.
    + intros es i text v. apply int_element.
    + intros es i Hi. apply int_element_fails; assumption.
    + intros es i text v. apply Base_int_element.
    + intros es i Hi. apply Base_int_element_fails; assumption.
Qed.

(** ** The claims at concrete inputs *)

(** A boolean that holds [true] is left alone by [Parse] and set to
    [false] by [ParseHard]; one that holds [false] is set by both. *)
Example Parse_keeps_ParseHard_overrides :
  Strct.Parse examples.env 0 "false" examples.flag_var [VBool true] = (Ret None, [VBool true])
  /\ Strct.ParseHard examples.env 0 "false" examples.flag_var [VBool true]
     = (Ret None, [VBool false])
  /\ Strct.Parse examples.env 0 "true" examples.flag_var [VBool false]
     = (Ret None, [VBool true]).
Proof. repeat split; reflexivity. Qed.

(** In the model as in Go, a zero [time.Duration] prints as [0s], so that
    [Parse] leaves it alone, while [ParseHard] sets it. *)
Example Parse_leaves_zero_duration :
  Strct.Parse examples.env 0 "1h30m" (Ref world.Duration (Loc 0%nat []) flag0) [VInt 0]
  = (Ret None, [VInt 0])
  /\ Strct.ParseHard examples.env 0 "1h30m" (Ref world.Duration (Loc 0%nat []) flag0) [VInt 0]
     = (Ret None, [VInt 5400000000000]).
Proof. split; vm_compute; reflexivity. Qed.


Lemma malformed_root_ErrNoPtr_witness :
  Strct.ScanAll examples.env examples.nothing examples.nothing2 3
    (Some (TBasic reflect.Int, VInt 3)) examples.heap1
  = (Ret (Some (errorString "insert is not a pointer or a struct")), examples.heap1, []).
Proof.
  apply (malformed_root_ErrNoPtr examples.env (Some (TBasic reflect.Int, VInt 3))).
  apply root_not_reference. vm_compute. discriminate.
Defined.

Lemma nested_record_order_witness :
  trace_of
    (Strct.ScanAll_field examples.env examples.nothing examples.nothing2
       (ScanAll_rec examples.env examples.nothing examples.nothing2 2)
       (Ref examples.Outer examples.outer flag0) examples.Outer 1 examples.heap1)
  = [ OnStruct examples.sfInner;
      OnProperty examples.sfX (Ref (TBasic reflect.Int) (Loc 0%nat [1; 0]%nat) flag0);
      OnProperty examples.sfInner (Ref (TNamed "main" "Inner") (Loc 0%nat [1%nat]) flag0) ].
Proof.
  rewrite (nested_record_order examples.env examples.nothing examples.nothing2 2
             examples.Outer examples.outer flag0 1 examples.sfInner examples.heap1
             (Ref (TNamed "main" "Inner") (Loc 0%nat [1%nat]) flag0) eq_refl).
  - vm_compute. reflexivity.
  - apply (direct_record examples.env examples.heap1 (TNamed "main" "Inner")
             (Loc 0%nat [1%nat]) flag0).
    reflexivity.
Defined.

Lemma reference_without_record_visited_once_witness :
  Strct.ScanAll_field examples.env examples.nothing examples.nothing2
    (ScanAll_rec examples.env examples.nothing examples.nothing2 2)
    (Ref examples.Outer examples.outer flag0) examples.Outer 2 examples.heap1
  = (Ret None, examples.heap1,
     [OnProperty examples.sfNext
        (Ref (TPtr (TNamed "main" "Inner")) (Loc 0%nat [2%nat]) flag0)])
  /\ Strct.ScanAll examples.env examples.nothing examples.nothing2 2
       (Some (TPtr examples.Outer, VPtr (Some examples.outer))) examples.heap1
     = (Ret None, examples.heap1,
        [ OnProperty
            (mkStructField "Name" EmptyString (TBasic reflect.String) EmptyString 0 false)
            (Ref (TBasic reflect.String) (Loc 0%nat [0%nat]) flag0);
          OnStruct examples.sfInner;
          OnProperty examples.sfX (Ref (TBasic reflect.Int) (Loc 0%nat [1; 0]%nat) flag0);
          OnProperty examples.sfInner
            (Ref (TNamed "main" "Inner") (Loc 0%nat [1%nat]) flag0);
          OnProperty examples.sfNext
            (Ref (TPtr (TNamed "main" "Inner")) (Loc 0%nat [2%nat]) flag0) ])
  /\ Base.Scan examples.env examples.nothing2 2
       (Some (TPtr examples.Outer, VPtr (Some examples.outer))) examples.heap1
     = (Ret None, examples.heap1,
        [ OnProperty
            (mkStructField "Name" EmptyString (TBasic reflect.String) EmptyString 0 false)
            (Ref (TBasic reflect.String) (Loc 0%nat [0%nat]) flag0);
          OnProperty examples.sfX (Ref (TBasic reflect.Int) (Loc 0%nat [1; 0]%nat) flag0);
          OnProperty examples.sfInner
            (Ref (TNamed "main" "Inner") (Loc 0%nat [1%nat]) flag0);
          OnProperty examples.sfNext
            (Ref (TPtr (TNamed "main" "Inner")) (Loc 0%nat [2%nat]) flag0) ]).
Proof.
  pose proof (reference_without_record_visited_once examples.env examples.nothing
                examples.nothing2
                (ScanAll_rec examples.env examples.nothing examples.nothing2 2)
                examples.Outer examples.outer flag0 2 examples.sfNext
                examples.heap1 eq_refl
                (nil_reference examples.env examples.heap1 (TPtr (TNamed "main" "Inner"))
                   (Loc 0%nat [2%nat]) _ eq_refl eq_refl)) as (Hround & _ & Hscan).
  split; [exact Hround|]. split.
  - rewrite (proj1 (Hscan eq_refl eq_refl 2%nat examples.heap1
                      [ OnProperty
                          (mkStructField "Name" EmptyString (TBasic reflect.String)
                             EmptyString 0 false)
                          (Ref (TBasic reflect.String) (Loc 0%nat [0%nat]) flag0);
                        OnStruct examples.sfInner;
                        OnProperty examples.sfX
                          (Ref (TBasic reflect.Int) (Loc 0%nat [1; 0]%nat) flag0);
                        OnProperty examples.sfInner
                          (Ref (TNamed "main" "Inner") (Loc 0%nat [1%nat]) flag0) ])
               eq_refl).
    reflexivity.
  - rewrite (proj2 (proj2 (Hscan eq_refl eq_refl 2%nat examples.heap1
                             [ OnProperty
                                 (mkStructField "Name" EmptyString (TBasic reflect.String)
                                    EmptyString 0 false)
                                 (Ref (TBasic reflect.String) (Loc 0%nat [0%nat]) flag0);
                               OnProperty examples.sfX
                                 (Ref (TBasic reflect.Int) (Loc 0%nat [1; 0]%nat) flag0);
                               OnProperty examples.sfInner
                                 (Ref (TNamed "main" "Inner") (Loc 0%nat [1%nat]) flag0) ]))
               eq_refl).
    reflexivity.
Defined.

Lemma database_destination_witness :
  Strct.ParseHard examples.env 0 "mysql/user:pass@host/db"
    (Ref (TPtr sql_DB) (Loc 0%nat []) flag0) [VPtr None]
  = (Ret None, [VPtr (Some (Loc 1%nat [])); VDB "mysql" "user:pass@host/db"])
  /\ Strct.ParseHard examples.env 0 "user:pass@host/db"
       (Ref (TPtr sql_DB) (Loc 0%nat []) flag0) [VPtr None]
     = (Ret None, [VPtr (Some (Loc 1%nat [])); VDB "postgres" "user:pass@host/db"]).
Proof.
  pose proof (database_destination examples.env 0 (Loc 0%nat []) flag0 [VPtr None] eq_refl)
    as (_ & Hmysql & Hpostgres).
  split; [exact (Hmysql _ eq_refl) | exact (Hpostgres _ eq_refl)].
Defined.

Lemma duration_destination_witness :
  Strct.ParseHard examples.env 0 "1h30m" (Ref world.Duration (Loc 0%nat []) flag0) [VInt 0]
  = (Ret None, [VInt 5400000000000])
  /\ Strct.ParseHard examples.env 0 "0x10" (Ref (TBasic reflect.Int8) (Loc 0%nat []) flag0) [VInt 0]
     = (Ret None, [VInt 16]).
Proof.
  split.
  - exact (proj1 (proj2 (duration_destination examples.env 0 "1h30m" ZeroValue [VInt 0]))
             (Loc 0%nat []) flag0 [VInt 5400000000000] eq_refl eq_refl eq_refl).
  - rewrite (proj1 (duration_destination examples.env 0 "0x10"
                      (Ref (TBasic reflect.Int8) (Loc 0%nat []) flag0) [VInt 0])).
    + vm_compute. reflexivity.
    + discriminate.
    + reflexivity.
Defined.

Lemma list_destination_witness :
  Strct.ParseHard examples.env 1 "1 ; 2 ;3" examples.ints_var [VSlice None]
  = (Ret None, [VSlice (Some [VInt 1; VInt 2; VInt 3]); VSlice (Some [VInt 1; VInt 2; VInt 3])]).
Proof.
  exact (proj2 (proj2 (proj2 (list_destination examples.env 1 "1;2;3" examples.ints_var
                                [VSlice None]))
                  0%nat (Loc 0%nat []) flag0 _ eq_refl eq_refl eq_refl)).
Defined.

Lemma empty_input_no_effect_witness :
  Strct.Parse examples.env 0 EmptyString examples.flag_var [VBool false]
  = (Ret None, [VBool false]).
Proof.
  exact (proj1 (proj2 (proj2 (empty_input_no_effect examples.env 0 examples.flag_var
                                [VBool false]))
                  (Some (TBasic reflect.Bool, VBool false)) eq_refl)).
Defined.

Lemma list_error_keeps_destination_witness :
  Strct.ParseHard examples.env 1 "1;x;3" examples.ints_var [VSlice (Some [VInt 7])]
  = (Ret (Some (NumError "ParseInt" "x" "invalid syntax")),
     [VSlice (Some [VInt 7]); VSlice (Some [VInt 1; VInt 0; VInt 0])])
  /\ Base.ParseHard examples.env 1 "1;x;3" examples.ints_var [VSlice (Some [VInt 7])]
     = (Ret (Some (NumError "ParseInt" "x" "invalid syntax")),
        [VSlice (Some [VInt 7]); VSlice (Some [VInt 1; VInt 0; VInt 0])]).
Proof.
  split.
  - apply (proj1 (list_error_keeps_destination examples.env 1 "1;x;3" examples.ints_var
                    [VSlice (Some [VInt 7])] _ _ ltac:(discriminate) eq_refl)).
    exists (Ref int_slice (Loc 1%nat []) flag0),
           [VSlice (Some [VInt 7]); VSlice (Some [VInt 0; VInt 0; VInt 0])],
           1%nat, "x", [VSlice (Some [VInt 7]); VSlice (Some [VInt 1; VInt 0; VInt 0])].
    repeat split; vm_compute; reflexivity.
  - apply (proj2 (proj2 (proj2 (list_error_keeps_destination examples.env 1 "1;x;3"
                                  examples.ints_var [VSlice (Some [VInt 7])]
                                  (NumError "ParseInt" "x" "invalid syntax")
                                  [VSlice (Some [VInt 7])] ltac:(discriminate) eq_refl))
                    0%nat (Loc 0%nat []) flag0 ["1"] "x" ["3"] [1]
                    eq_refl eq_refl eq_refl
                    ltac:(repeat constructor)
                    ltac:(discriminate) eq_refl)).
Defined.

(** * Further properties of the code *)

(** ** Code that keeps to a frame *)

Section Framed.
Context (F : frame) (laws : frame_laws F).

Lemma framed_ret {A} (Q : A -> Prop) x : Q x -> framed F Q (retM x).
Proof.
  intros HQ h r h' Hp [= <- <-]. split; [apply (fr_refl F laws)|].
  intros y [= <-]. exact HQ.
Qed.

Lemma framed_abort {A} (Q : A -> Prop) r : framed F Q (abortM r).
Proof. intros h r' h' Hp [= <- <-]. split; [apply (fr_refl F laws)|]. discriminate. Qed.

Lemma framed_lift {A} (o : outcome A) : framed F any (liftO o).
Proof. intros h r h' Hp [= <- <-]. split; [apply (fr_refl F laws)|]. intros; exact I. Qed.

Lemma framed_read {A} (f : heap -> outcome A) : framed F any (readM f).
Proof. intros h r h' Hp [= <- <-]. split; [apply (fr_refl F laws)|]. intros; exact I. Qed.

Lemma framed_bind {A B} (Q : A -> Prop) (Q' : B -> Prop) (m : M A) (k : A -> M B) :
  framed F Q m -> (forall x, Q x -> framed F Q' (k x)) -> framed F Q' (bindM m k).
Proof.
  intros Hm Hk h r h' Hp. unfold bindM.
  destruct (m h) as [[x|a] h1] eqn:Hmh.
  - destruct (Hm h _ _ Hp Hmh) as (H1 & H2).
    intros Hkx.
    destruct (Hk x (H2 x eq_refl) h1 r h' (fr_keep F laws _ _ Hp H1) Hkx) as (K1 & K2).
    split; [eapply (fr_trans F laws); eauto | exact K2].
  - destruct (Hm h _ _ Hp Hmh) as (H1 & H2).
    intros [= <- <-]. split; [exact H1 | discriminate].
Qed.

Lemma framed_assign fv x : fr_dest F fv -> framed F any (assign fv x).
Proof.
  intros Hd h r h' Hp. unfold assign.
  destruct fv as [|t v fl|t l fl]; cbn [mustBeAssignable];
    try (intros [= <- <-]; split; [apply (fr_refl F laws) | discriminate]).
  destruct (flagRO fl) eqn:Hro;
    [intros [= <- <-]; split; [apply (fr_refl F laws) | discriminate]|].
  destruct (store h l x) as [hs|] eqn:Hs; intros [= <- <-].
  - split; [eapply (fr_store F laws); eauto | intros; exact I].
  - split; [apply (fr_refl F laws) | discriminate].
Qed.

Lemma framed_Set E fv x : fr_dest F fv -> framed F any (Set_ E fv x).
Proof.
  intros Hd h r h' Hp. unfold Set_.
  destruct (mustBeAssignable fv);
    [|intros [= <- <-]; split; [apply (fr_refl F laws) | discriminate]].
  destruct (flagRO (flag_of x));
    [intros [= <- <-]; split; [apply (fr_refl F laws) | discriminate]|].
  destruct (value_of x h) as [vx|];
    [|intros [= <- <-]; split; [apply (fr_refl F laws) | discriminate]].
  destruct (kind_of E (type_of fv)); try (apply framed_assign; assumption).
  destruct (kind_of E (type_of x)); apply framed_assign; assumption.
Qed.

Lemma framed_MakeSlice E depth typ len :
  framed F (fr_dest F) (MakeSlice E depth typ len).
Proof.
  intros h r h' Hp. unfold MakeSlice.
  destruct (elem_type E typ) as [et|];
    [|intros [= <- <-]; split; [apply (fr_refl F laws) | discriminate]].
  destruct (Zero E depth et) as [z|];
    [|intros [= <- <-]; split; [apply (fr_refl F laws) | discriminate]].
  cbn. intros [= <- <-]. split; [apply (fr_alloc F laws); exact Hp|].
  intros x [= <-]. apply (fr_fresh F laws). exact Hp.
Qed.

Lemma framed_open E name : framed F any (os_Open_ E name).
Proof.
  intros h r h' Hp. unfold os_Open_.
  destruct (os_Open E name); cbn; intros [= <- <-].
  - split; [apply (fr_refl F laws) | intros; exact I].
  - split; [apply (fr_alloc F laws); exact Hp | intros; exact I].
Qed.

Lemma framed_sql_Open E driver dsn : framed F any (sql_Open_ E driver dsn).
Proof.
  intros h r h' Hp. unfold sql_Open_.
  destruct (sql_Open E driver dsn); cbn; intros [= <- <-].
  - split; [apply (fr_refl F laws) | intros; exact I].
  - split; [apply (fr_alloc F laws); exact Hp | intros; exact I].
Qed.

Lemma framed_range_parts body parts : forall i,
  (forall i part, framed F any (body i part)) ->
  framed F any (range_parts body i parts).
Proof.
  induction parts as [|part rest IH]; intros i Hb; cbn [range_parts].
  - apply framed_ret. exact I.
  - eapply framed_bind; [apply Hb|].
    intros [e|] _; [apply framed_ret; exact I | apply IH; exact Hb].
Qed.

Lemma dest_elements E slice : fr_dest F slice -> elements_dest F E slice.
Proof.
  intros Hd i h in_ h'. unfold Index.
  destruct slice as [|t v fl|t l fl]; try discriminate.
  destruct (elem_type E t); [destruct (load h _)|]; try discriminate.
  intros [= <- <-]. apply (fr_index F laws _ _ _ _ _ Hd).
Qed.

Lemma framed_Index E slice i :
  elements_dest F E slice -> framed F (fr_dest F) (Index E slice i).
Proof.
  intros He h r h' Hp Hi.
  assert (h' = h) as ->.
  { unfold Index in Hi. destruct slice as [|t v fl|t l fl]; try congruence.
    destruct (elem_type E t); [destruct (load h _)|]; congruence. }
  split; [apply (fr_refl F laws)|].
  intros x ->. eapply He. exact Hi.
Qed.

Lemma framed_slice_part E parse slice i part :
  elements_dest F E slice ->
  (forall val fv, fr_dest F fv -> framed F any (parse val fv)) ->
  framed F any (slice_part E parse slice i part).
Proof.
  intros Hs Hp. unfold slice_part.
  eapply framed_bind; [apply framed_Index; exact Hs|].
  intros in_ Hin. apply Hp. exact Hin.
Qed.

Lemma Strct_Parse_with_framed E hard val fv :
  (forall val fv, fr_dest F fv -> framed F any (hard val fv)) ->
  fr_dest F fv -> framed F any (Strct.Parse_with E hard val fv).
Proof.
  intros Hh Hd. unfold Strct.Parse_with.
  eapply framed_bind; [apply framed_read|]. intros a _.
  eapply framed_bind; [apply framed_read|]. intros text _.
  destruct (empty_text text); [apply Hh; exact Hd | apply framed_ret; exact I].
Qed.

Lemma Base_Parse_with_framed E hard val fv :
  (forall val fv, fr_dest F fv -> framed F any (hard val fv)) ->
  fr_dest F fv -> framed F any (Base.Parse_with E hard val fv).
Proof.
  intros Hh Hd. unfold Base.Parse_with.
  eapply framed_bind; [apply framed_read|]. intros a _.
  eapply framed_bind; [apply framed_read|]. intros text _.
  destruct (empty_text_base text); cbn [negb];
    [apply Hh; exact Hd | apply framed_ret; exact I].
Qed.

(** The list case, given the fact for the parsing of an element. *)
Lemma list_case_framed E parse depth val fv :
  (forall val fv, fr_dest F fv -> framed F any (parse val fv)) ->
  fr_dest F fv -> framed F any (list_case E parse depth val fv).
Proof.
  intros Hparse Hd. unfold list_case.
  eapply framed_bind; [apply framed_MakeSlice|].
  intros slice Hslice.
  eapply framed_bind.
  - apply framed_range_parts. intros i part.
    apply framed_slice_part; [apply dest_elements; exact Hslice | exact Hparse].
  - intros [e|] _; [apply framed_ret; exact I|].
    eapply framed_bind; [apply framed_Set; exact Hd|].
    intros ? _. apply framed_ret; exact I.
Qed.

End Framed.

(** The steps of [ParseHard] outside the list case. *)
Ltac framed_step laws :=
  unfold SetBool, SetInt, SetUint, SetFloat, SetString;
  repeat match goal with
         | |- framed _ _ (retM _) => apply (framed_ret _ laws); exact I
         | |- framed _ _ (abortM _) => apply (framed_abort _ laws)
         | |- framed _ _ (bindM (assign _ _) _) =>
             eapply (framed_bind _ laws);
             [apply (framed_assign _ laws); assumption | intros ? _]
         | |- framed _ _ (bindM (Set_ _ _ _) _) =>
             eapply (framed_bind _ laws);
             [apply (framed_Set _ laws); assumption | intros ? _]
         | |- framed _ _ (bindM (liftO _) _) =>
             eapply (framed_bind _ laws); [apply (framed_lift _ laws) | intros ? _]
         | |- framed _ _ (bindM (os_Open_ _ _) _) =>
             eapply (framed_bind _ laws); [apply (framed_open _ laws) | intros [?|?] _]
         | |- framed _ _ (bindM (sql_Open_ _ _ _) _) =>
             eapply (framed_bind _ laws); [apply (framed_sql_Open _ laws) | intros [?|?] _]
         | |- framed _ _ (match ?x with _ => _ end) => destruct x
         | |- framed _ _ (if ?x then _ else _) => destruct x
         end.

Lemma Strct_ParseHard_framed F E depth :
  frame_laws F ->
  forall val fv, fr_dest F fv -> framed F any (Strct.ParseHard E depth val fv).
Proof.
  intros laws.
  induction depth as [|d IH]; intros val fv Hd;
    (destruct (String.eqb val EmptyString) eqn:Hval;
     [ apply String.eqb_eq in Hval; subst val; intros h r h' _;
       rewrite Strct_ParseHard_empty; intros [= <- <-];
       split; [apply (fr_refl F laws) | intros; exact I] |]);
    apply String.eqb_neq in Hval;
    (destruct (reflect.Kind_eqb (Kind E fv) reflect.Slice) eqn:Hk;
     [ apply Kind_eqb_eq in Hk; rewrite (Strct_ParseHard_slice _ _ _ _ Hval Hk);
       apply (list_case_framed _ laws); [|exact Hd];
       intros val' fv' Hd'; apply (Strct_Parse_with_framed _ laws); [|exact Hd'];
       cbn [Strct_ParseHard_rec]
     | cbn [Strct.ParseHard]; rewrite (eqb_nonempty _ Hval);
       destruct (Kind E fv); try discriminate Hk; framed_step laws ]).
  - intros; apply (framed_abort _ laws).
  - exact IH.
Qed.

Lemma Base_ParseHard_framed F E depth :
  frame_laws F ->
  forall val fv, fr_dest F fv -> framed F any (Base.ParseHard E depth val fv).
Proof.
  intros laws.
  induction depth as [|d IH]; intros val fv Hd;
    (destruct (String.eqb val EmptyString) eqn:Hval;
     [ apply String.eqb_eq in Hval; subst val; intros h r h' _;
       rewrite Base_ParseHard_empty; intros [= <- <-];
       split; [apply (fr_refl F laws) | intros; exact I] |]);
    apply String.eqb_neq in Hval;
    (destruct (reflect.Kind_eqb (Kind E fv) reflect.Slice) eqn:Hk;
     [ apply Kind_eqb_eq in Hk; rewrite (Base_ParseHard_slice _ _ _ _ Hval Hk);
       apply (list_case_framed _ laws); [|exact Hd];
       intros val' fv' Hd'; apply (Base_Parse_with_framed _ laws); [|exact Hd'];
       cbn [Base_ParseHard_rec]
     | cbn [Base.ParseHard]; rewrite (eqb_nonempty _ Hval);
       destruct (Kind E fv); try discriminate Hk; framed_step laws ]).
  - intros; apply (framed_abort _ laws).
  - exact IH.
Qed.

(** ** Three frames *)

Lemma set_path_diverge r i j p' q' : i <> j -> forall c x c',
  set_path c (r ++ i :: p') x = Some c' ->
  get_path c' (r ++ j :: q') = get_path c (r ++ j :: q').
Proof.
  intros Hij. induction r as [|k r IH]; intros c x c'; cbn [app set_path get_path].
  - destruct (children c) as [cs|] eqn:Hc; [|discriminate].
    destruct (cs !! i) as [ci|] eqn:Hi; [|discriminate].
    destruct (set_path ci p' x) as [ci'|]; [|discriminate].
    intros [= <-]. rewrite (children_with_children _ _ _ Hc).
    rewrite list_lookup_insert_ne by exact Hij. reflexivity.
  - destruct (children c) as [cs|] eqn:Hc; [|discriminate].
    destruct (cs !! k) as [ck|] eqn:Hk; [|discriminate].
    destruct (set_path ck (r ++ i :: p') x) as [ck'|] eqn:Hs; [|discriminate].
    intros [= <-]. rewrite (children_with_children _ _ _ Hc).
    rewrite list_lookup_insert_eq by (eapply lookup_lt_Some; eauto).
    eapply IH. exact Hs.
Qed.

(** A store leaves the variables that do not overlap its target alone. *)
Lemma store_apart h l x h' l2 :
  store h l x = Some h' -> apart l l2 -> load h' l2 = load h l2.
Proof.
  intros Hst Hap. destruct (Nat.eq_dec (base l2) (base l)) as [Hb|Hb].
  - destruct Hap as [Hne | (r & i & j & p' & q' & Hp & Hq & Hij)]; [congruence|].
    unfold store in Hst. unfold load. rewrite Hb.
    destruct (h !! base l) as [c|] eqn:Hc; [|discriminate].
    destruct (set_path c (path l) x) as [c'|] eqn:Hs; [|discriminate].
    injection Hst as <-.
    rewrite list_lookup_insert_eq by (eapply lookup_lt_Some; eauto).
    rewrite Hp in Hs. rewrite Hq. eapply set_path_diverge; eauto.
  - destruct (store_cells _ _ _ _ Hst) as [_ Hcells].
    unfold load. rewrite Hcells by exact Hb. reflexivity.
Qed.

Lemma apart_inside l l' l2 : inside l l' -> apart l l2 -> apart l' l2.
Proof.
  intros (Hb & ext & Hp) [Hne | (r & i & j & p' & q' & Hpl & Hq & Hij)].
  - left. congruence.
  - right. exists r, i, j, (p' ++ ext), q'.
    rewrite Hp, Hpl, <- app_assoc. auto.
Qed.

Lemma frame_outside_laws l n : frame_laws (frame_outside l n).
Proof.
  constructor; cbn.
  - intros h. split; [lia | reflexivity].
  - intros h1 h2 h3 (L1 & K1) (L2 & K2). split; [lia|].
    intros l2 Hb Hap. rewrite K2, K1 by assumption. reflexivity.
  - intros h h' Hn (L & _). lia.
  - intros h c Hn. rewrite length_app. cbn. split; [lia|].
    intros l2 Hb _. unfold load. rewrite lookup_app_l by lia. reflexivity.
  - intros h t fl Hn. left. exact Hn.
  - intros h t l' fl x h' Hn Hd _ Hst.
    destruct (store_cells _ _ _ _ Hst) as [Hlen Hcells].
    split; [lia|]. intros l2 Hb Hap.
    destruct Hd as [Habove | Hin].
    + unfold load. rewrite Hcells by lia. reflexivity.
    + eapply store_apart; [exact Hst|]. eapply apart_inside; eauto.
  - intros t l' fl t' i [Habove | (Hb & ext & Hp)]; [left; exact Habove|].
    right. split; [exact Hb|]. exists (ext ++ [i]). cbn. rewrite Hp, app_assoc. reflexivity.
Qed.

Lemma frame_readonly_laws n : frame_laws (frame_readonly n).
Proof.
  constructor; cbn.
  - intros h. split; [lia | reflexivity].
  - intros h1 h2 h3 (L1 & K1) (L2 & K2). split; [lia|].
    intros a Ha. rewrite K2, K1 by assumption. reflexivity.
  - intros h h' Hn (L & _). lia.
  - intros h c Hn. rewrite length_app. cbn. split; [lia|].
    intros a Ha. rewrite lookup_app_l by lia. reflexivity.
  - intros h t fl Hn. left. exact Hn.
  - intros h t l fl x h' Hn [Habove | Hro] Hrw Hst; [|congruence].
    destruct (store_cells _ _ _ _ Hst) as [Hlen Hcells].
    split; [lia|]. intros a Ha. apply Hcells. lia.
  - intros t l fl t' i [Habove | Hro]; [left; exact Habove|].
    right. unfold flagRO. cbn. rewrite orb_false_r. exact Hro.
Qed.

Lemma with_children_id c cs : children c = Some cs -> with_children c cs = c.
Proof. destruct c as [| | | | | |[?|]| | | | | |]; cbn; congruence. Qed.

Lemma with_children_twice c cs cs' :
  with_children (with_children c cs) cs' = with_children c cs'.
Proof. destruct c as [| | | | | |[?|]| | | | | |]; reflexivity. Qed.

Lemma same_shape_refl c : same_shape c c.
Proof.
  unfold same_shape. destruct (children c) as [cs|] eqn:Hc; [|reflexivity].
  exists cs. split; [symmetry; apply with_children_id; exact Hc | reflexivity].
Qed.

Lemma same_shape_trans c1 c2 c3 : same_shape c1 c2 -> same_shape c2 c3 -> same_shape c1 c3.
Proof.
  unfold same_shape. destruct (children c1) as [cs|] eqn:Hc.
  - intros (cs2 & -> & L2). rewrite (children_with_children _ _ _ Hc).
    intros (cs3 & -> & L3). exists cs3. rewrite with_children_twice. split; [reflexivity|lia].
  - intros ->. rewrite Hc. trivial.
Qed.

Lemma frame_shape_laws a : frame_laws (frame_shape a).
Proof.
  constructor; cbn.
  - intros h. split; [lia|]. intros c Hc. exists c. split; [exact Hc | apply same_shape_refl].
  - intros h1 h2 h3 (L1 & K1) (L2 & K2). split; [lia|].
    intros c Hc. destruct (K1 c Hc) as (c2 & Hc2 & S2).
    destruct (K2 c2 Hc2) as (c3 & Hc3 & S3).
    exists c3. split; [exact Hc3 | eapply same_shape_trans; eauto].
  - intros h h' Hn (L & _). lia.
  - intros h c Hn. rewrite length_app. cbn. split; [lia|].
    intros c0 Hc0. exists c0. split; [apply lookup_app_l_Some; exact Hc0 | apply same_shape_refl].
  - intros h t fl Hn. left. cbn. lia.
  - intros h t l fl x h' Hn Hd _ Hst.
    destruct (store_cells _ _ _ _ Hst) as [Hlen Hcells].
    split; [lia|]. intros c Hc.
    destruct (Nat.eq_dec (base l) a) as [Hb|Hb].
    + destruct Hd as [Hne | Hp]; [contradiction|].
      unfold store in Hst. rewrite Hb, Hc in Hst.
      destruct (path l) as [|i p]; [contradiction|]. cbn [set_path] in Hst.
      unfold same_shape.
      destruct (children c) as [cs|] eqn:Hcs; [|discriminate].
      destruct (cs !! i) as [ci|]; [|discriminate].
      destruct (set_path ci p x) as [ci'|]; [|discriminate].
      injection Hst as <-. eexists. split.
      * apply list_lookup_insert_eq. eapply lookup_lt_Some; eauto.
      * eexists. split; [reflexivity | apply length_insert].
    + exists c. split; [rewrite Hcells by congruence; exact Hc | apply same_shape_refl].
  - intros t l fl t' i _. right. destruct (path l); discriminate.
Qed.

(** ** What [ParseHard] leaves alone *)

(** X1. Whatever the text, the kind of the destination and the outcome
    (nil, an error or a panic), [ParseHard] and [Parse] (of both revisions)
    write only inside the variable they are given and in cells they
    allocate themselves: the store only grows, and every variable that
    existed before the call and does not overlap the destination (another
    cell, or another field or element of the same cell) holds the value it
    held. *)
Theorem writes_only_inside_destination E depth val t l fl h r h' :
  Strct.ParseHard E depth val (Ref t l fl) h = (r, h')
  \/ Strct.Parse E depth val (Ref t l fl) h = (r, h')
  \/ Base.ParseHard E depth val (Ref t l fl) h = (r, h')
  \/ Base.Parse E depth val (Ref t l fl) h = (r, h') ->
  (length h <= length h')%nat
  /\ forall l2, (base l2 < length h)%nat -> apart l l2 -> load h' l2 = load h l2.
Proof.
  pose proof (frame_outside_laws l (length h)) as laws.
  assert (fr_dest (frame_outside l (length h)) (Ref t l fl)) as Hd.
  { right. split; [reflexivity|]. exists []. rewrite app_nil_r. reflexivity. }
  assert (fr_pre (frame_outside l (length h)) h) as Hp by (cbn; lia).
  intros [H|[H|[H|H]]].
  - exact (proj1 (Strct_ParseHard_framed _ E depth laws val _ Hd h r h' Hp H)).
  - refine (proj1 (Strct_Parse_with_framed _ laws E _ val _ _ Hd h r h' Hp H)).
    apply Strct_ParseHard_framed. exact laws.
  - exact (proj1 (Base_ParseHard_framed _ E depth laws val _ Hd h r h' Hp H)).
  - refine (proj1 (Base_Parse_with_framed _ laws E _ val _ _ Hd h r h' Hp H)).
    apply Base_ParseHard_framed. exact laws.
Qed.

Lemma writes_only_inside_destination_witness :
  load [VStruct [VInt 5; VString "x"]] (Loc 0%nat [1%nat])
  = load frames.pair_heap (Loc 0%nat [1%nat]).
Proof.
  apply (proj2 (writes_only_inside_destination examples.env 0 "5" (TBasic reflect.Int)
                  (Loc 0%nat [0%nat]) flag0 frames.pair_heap (Ret None)
                  [VStruct [VInt 5; VString "x"]] (or_introl eq_refl))).
  - cbn. lia.
  - right. exists [], 0%nat, 1%nat, [], []. repeat split. discriminate.
Defined.

(** X2. Through a destination that is not settable (a [Value] that is not
    addressable, or one obtained from an unexported field) [ParseHard] and
    [Parse] change no variable that existed before the call, whatever the
    text and the outcome. *)
Theorem unsettable_destination_untouched E depth val fv h r h' :
  CanSet fv = false ->
  Strct.ParseHard E depth val fv h = (r, h')
  \/ Strct.Parse E depth val fv h = (r, h')
  \/ Base.ParseHard E depth val fv h = (r, h')
  \/ Base.Parse E depth val fv h = (r, h') ->
  forall a, (a < length h)%nat -> h' !! a = h !! a.
Proof.
  intros Hset.
  pose proof (frame_readonly_laws (length h)) as laws.
  assert (fr_dest (frame_readonly (length h)) fv) as Hd.
  { destruct fv as [|t v fl|t l fl]; cbn; trivial.
    right. cbn in Hset. destruct (flagRO fl); [reflexivity | discriminate]. }
  assert (fr_pre (frame_readonly (length h)) h) as Hp by (cbn; lia).
  intros [H|[H|[H|H]]].
  - exact (proj2 (proj1 (Strct_ParseHard_framed _ E depth laws val _ Hd h r h' Hp H))).
  - refine (proj2 (proj1 (Strct_Parse_with_framed _ laws E _ val _ _ Hd h r h' Hp H))).
    apply Strct_ParseHard_framed. exact laws.
  - exact (proj2 (proj1 (Base_ParseHard_framed _ E depth laws val _ Hd h r h' Hp H))).
  - refine (proj2 (proj1 (Base_Parse_with_framed _ laws E _ val _ _ Hd h r h' Hp H))).
    apply Base_ParseHard_framed. exact laws.
Qed.

Lemma unsettable_destination_untouched_witness :
  snd (Strct.ParseHard examples.env 0 "5" frames.hidden frames.pair_heap) !! 0%nat
  = frames.pair_heap !! 0%nat.
Proof.
  apply (unsettable_destination_untouched examples.env 0 "5" frames.hidden frames.pair_heap
           (fst (Strct.ParseHard examples.env 0 "5" frames.hidden frames.pair_heap))
           _ eq_refl).
  - left. vm_compute. reflexivity.
  - cbn. lia.
Defined.

(** ** The length of a parsed list *)

Lemma length_Split val : length (strings.Split val ";"%char) = S (count_byte ";"%char val).
Proof.
  induction val as [|c s IH]; cbn [strings.Split count_byte]; [reflexivity|].
  destruct (Ascii.eqb c ";"%char).
  - cbn [length]. rewrite IH. reflexivity.
  - destruct (strings.Split s ";"%char) as [|p ps]; cbn [length] in *; lia.
Qed.

Lemma root_elements_dest E t a fl : elements_dest (frame_shape a) E (Ref t (Loc a []) fl).
Proof.
  intros i h in_ h'. unfold Index.
  destruct (elem_type E t); [destruct (load h _)|]; try discriminate.
  intros [= <- <-]. right. discriminate.
Qed.

Lemma list_case_length E parse depth val t l fl h h' :
  (forall val fv, fr_dest (frame_shape (length h)) fv ->
                  framed (frame_shape (length h)) any (parse val fv)) ->
  kind_of E t = reflect.Slice ->
  list_case E parse depth val (Ref t l fl) h = (Ret None, h') ->
  exists es, load h' l = Some (VSlice (Some es))
             /\ length es = length (strings.Split val ";"%char).
Proof.
  intros Hparse Hk. unfold list_case. cbn [type_of].
  set (parts := strings.Split val ";"%char).
  unfold bindM at 1.
  destruct (MakeSlice E (S depth) t (length parts) h) as [[slice|a] h0] eqn:Hmk;
    [|discriminate].
  unfold MakeSlice in Hmk.
  destruct (elem_type E t) as [et|]; [|discriminate].
  destruct (Zero E (S depth) et) as [z|]; [|discriminate].
  cbn [alloc] in Hmk. injection Hmk as <- <-.
  unfold bindM at 1.
  destruct (range_parts _ 0 parts _) as [[[e|]|a] h1] eqn:Hloop; try discriminate.
  pose proof (frame_shape_laws (length h)) as laws.
  assert (framed (frame_shape (length h)) any
            (range_parts (slice_part E parse (Ref t (Loc (length h) []) flag0)) 0 parts))
    as Hfr.
  { apply (framed_range_parts _ laws). intros i part.
    apply (framed_slice_part _ laws); [apply root_elements_dest | exact Hparse]. }
  assert (fr_pre (frame_shape (length h))
            (h ++ [VSlice (Some (replicate (length parts) z))])) as Hpre
    by (cbn; rewrite length_app; cbn; lia).
  destruct (Hfr _ _ _ Hpre Hloop) as ((_ & Hcell) & _).
  destruct (Hcell _ (list_lookup_middle _ _ _ _ eq_refl)) as (c' & Hc' & Hshape).
  unfold same_shape in Hshape. cbn [children] in Hshape.
  destruct Hshape as (es & -> & Hlen). cbn [with_children] in Hc'.
  rewrite length_replicate in Hlen.
  unfold bindM, Set_. cbn [mustBeAssignable flag_of value_of type_of].
  destruct (flagRO fl); [discriminate|].
  cbn [flagRO flag0 flagStickyRO flagEmbedRO orb].
  unfold load at 1. cbn [base path]. rewrite Hc'. cbn [get_path].
  rewrite Hk. unfold assign. cbn [mustBeAssignable].
  destruct (flagRO fl); [discriminate|].
  destruct (store h1 l (VSlice (Some es))) as [hs|] eqn:Hst; [|discriminate].
  intros [= <-]. exists es. split; [eapply load_store; eauto | exact Hlen].
Qed.

(** X3. When [ParseHard] returns nil for a non-empty text and a destination
    of slice kind, the destination holds a slice with one element for each
    part of the text: one more than the text has semicolons.  For both
    revisions. *)
Theorem list_has_one_element_per_part E depth val t l fl h h' :
  val <> EmptyString -> kind_of E t = reflect.Slice ->
  Strct.ParseHard E depth val (Ref t l fl) h = (Ret None, h')
  \/ Base.ParseHard E depth val (Ref t l fl) h = (Ret None, h') ->
  exists es, load h' l = Some (VSlice (Some es))
             /\ length es = S (count_byte ";"%char val).
Proof.
  intros Hval Hk H. rewrite <- length_Split.
  pose proof (frame_shape_laws (length h)) as laws.
  destruct H as [H|H].
  - rewrite (Strct_ParseHard_slice E depth val (Ref t l fl) Hval Hk) in H.
    eapply list_case_length; [|exact Hk|exact H].
    intros val' fv' Hd. apply (Strct_Parse_with_framed _ laws); [|exact Hd].
    intros val'' fv'' Hd'. destruct depth; cbn [Strct_ParseHard_rec];
      [apply (framed_abort _ laws) | apply Strct_ParseHard_framed; assumption].
  - rewrite (Base_ParseHard_slice E depth val (Ref t l fl) Hval Hk) in H.
    eapply list_case_length; [|exact Hk|exact H].
    intros val' fv' Hd. apply (Base_Parse_with_framed _ laws); [|exact Hd].
    intros val'' fv'' Hd'. destruct depth; cbn [Base_ParseHard_rec];
      [apply (framed_abort _ laws) | apply Base_ParseHard_framed; assumption].
Qed.

Lemma list_has_one_element_per_part_witness :
  exists es, load [VSlice (Some [VInt 1; VInt 2; VInt 3]); VSlice (Some [VInt 1; VInt 2; VInt 3])]
               (Loc 0%nat [])
             = Some (VSlice (Some es))
             /\ length es = 3%nat.
Proof.
  apply (list_has_one_element_per_part examples.env 1 "1;2;3" int_slice (Loc 0%nat []) flag0
           [VSlice None]).
  - discriminate.
  - reflexivity.
  - left. vm_compute. reflexivity.
Defined.

(** ** Errors come before any write *)

Lemma then_nil_no_error {A} (m : M A) h (e : error) h' :
  bindM m (fun _ => retM (@None error)) h = (Ret (Some e), h') -> False.
Proof. unfold bindM, retM. destruct (m h) as [[x|a] h1]; discriminate. Qed.

(** The ways a case of [ParseHard] other than the list case ends. *)
Ltac error_before_write H :=
  repeat match type of H with
         | retM _ _ = _ => injection H as _ <-; reflexivity
         | bindM _ (fun _ => retM None) _ = _ =>
             exfalso; exact (then_nil_no_error _ _ _ _ H)
         | bindM (liftO ?o) _ _ = _ =>
             unfold bindM at 1, liftO at 1 in H; destruct o; [|discriminate H]
         | bindM (os_Open_ ?E ?n) _ _ = _ =>
             unfold bindM at 1, os_Open_ at 1 in H; destruct (os_Open E n); cbn [alloc] in H
         | bindM (sql_Open_ ?E ?d ?s) _ _ = _ =>
             unfold bindM at 1, sql_Open_ at 1 in H; destruct (sql_Open E d s); cbn [alloc] in H
         | (match ?x with _ => _ end) _ = _ => destruct x
         | (if ?x then _ else _) _ = _ => destruct x
         end.

Lemma Strct_ParseHard_error_scalar E depth val fv h e h' :
  Kind E fv <> reflect.Slice ->
  Strct.ParseHard E depth val fv h = (Ret (Some e), h') -> h' = h.
Proof.
  intros Hk H.
  destruct depth; cbn [Strct.ParseHard] in H;
    (destruct (String.eqb val EmptyString); [discriminate H|]);
    destruct (Kind E fv); try contradiction; error_before_write H.
Qed.

Lemma Base_ParseHard_error_scalar E depth val fv h e h' :
  Kind E fv <> reflect.Slice ->
  Base.ParseHard E depth val fv h = (Ret (Some e), h') -> h' = h.
Proof.
  intros Hk H.
  destruct depth; cbn [Base.ParseHard] in H;
    (destruct (String.eqb val EmptyString); [discriminate H|]);
    destruct (Kind E fv); try contradiction; error_before_write H.
Qed.

Lemma list_case_failed E parse depth val fv h e h' :
  (forall val fv, based_above (length h) fv -> local (length h) any (parse val fv)) ->
  list_case E parse depth val fv h = (Ret (Some e), h') ->
  forall l, (base l < length h)%nat -> load h' l = load h l.
Proof.
  intros Hparse H. unfold list_case in H. unfold bindM at 1 in H.
  destruct (MakeSlice E (S depth) (type_of fv) _ h) as [[slice|a] h0] eqn:Hmk;
    [|discriminate].
  unfold bindM at 1 in H.
  destruct (range_parts _ 0 _ h0) as [[[e'|]|a] h1] eqn:Hloop.
  - injection H as <- <-.
    apply (list_case_error E parse depth val fv h e' h1 Hparse).
    exists slice, h0. split; assumption.
  - exfalso. exact (then_nil_no_error _ _ _ _ H).
  - discriminate.
Qed.

Lemma Strct_ParseHard_error E depth val fv h e h' :
  Strct.ParseHard E depth val fv h = (Ret (Some e), h') ->
  (Kind E fv <> reflect.Slice -> h' = h)
  /\ forall l, (base l < length h)%nat -> load h' l = load h l.
Proof.
  intros H. split; [intros Hk; eapply Strct_ParseHard_error_scalar; eauto|].
  destruct (reflect.Kind_eqb (Kind E fv) reflect.Slice) eqn:Hk.
  - apply Kind_eqb_eq in Hk.
    destruct (String.eqb val EmptyString) eqn:Hval.
    { apply String.eqb_eq in Hval. subst val.
      rewrite Strct_ParseHard_empty in H. discriminate. }
    apply String.eqb_neq in Hval.
    rewrite (Strct_ParseHard_slice _ _ _ _ Hval Hk) in H.
    eapply list_case_failed; [|exact H].
    intros val' fv' Hb. apply Strct_Parse_with_local; [|exact Hb].
    intros val'' fv'' Hb'. apply Strct_ParseHard_rec_local. exact Hb'.
  - assert (h' = h) as ->; [|reflexivity].
    eapply Strct_ParseHard_error_scalar; [|exact H].
    intros Heq. rewrite Heq in Hk. discriminate.
Qed.

Lemma Base_ParseHard_error E depth val fv h e h' :
  Base.ParseHard E depth val fv h = (Ret (Some e), h') ->
  (Kind E fv <> reflect.Slice -> h' = h)
  /\ forall l, (base l < length h)%nat -> load h' l = load h l.
Proof.
  intros H. split; [intros Hk; eapply Base_ParseHard_error_scalar; eauto|].
  destruct (reflect.Kind_eqb (Kind E fv) reflect.Slice) eqn:Hk.
  - apply Kind_eqb_eq in Hk.
    destruct (String.eqb val EmptyString) eqn:Hval.
    { apply String.eqb_eq in Hval. subst val.
      rewrite Base_ParseHard_empty in H. discriminate. }
    apply String.eqb_neq in Hval.
    rewrite (Base_ParseHard_slice _ _ _ _ Hval Hk) in H.
    eapply list_case_failed; [|exact H].
    intros val' fv' Hb. apply Base_Parse_with_local; [|exact Hb].
    intros val'' fv'' Hb'. apply Base_ParseHard_rec_local. exact Hb'.
  - assert (h' = h) as ->; [|reflexivity].
    eapply Base_ParseHard_error_scalar; [|exact H].
    intros Heq. rewrite Heq in Hk. discriminate.
Qed.

(** X4. When [ParseHard] or [Parse] (of either revision) returns an error,
    whatever the kind of the destination, every variable that existed
    before the call holds the value it held, the destination among them:
    each conversion, and the opening of a file or a database, comes before
    the one assignment.  For a destination that is not a slice the store is
    exactly as it was. *)
Theorem error_leaves_variables E depth val fv h e h' :
  Strct.ParseHard E depth val fv h = (Ret (Some e), h')
  \/ Strct.Parse E depth val fv h = (Ret (Some e), h')
  \/ Base.ParseHard E depth val fv h = (Ret (Some e), h')
  \/ Base.Parse E depth val fv h = (Ret (Some e), h') ->
  (Kind E fv <> reflect.Slice -> h' = h)
  /\ forall l, (base l < length h)%nat -> load h' l = load h l.
Proof.
  intros [H|[H|[H|H]]].
  - eapply Strct_ParseHard_error; eauto.
  - unfold Strct.Parse, Strct.Parse_with, bindM, readM in H.
    destruct (Interface E fv h); [|discriminate].
    destruct (empty_text _); [|discriminate].
    eapply Strct_ParseHard_error; eauto.
  - eapply Base_ParseHard_error; eauto.
  - unfold Base.Parse, Base.Parse_with, bindM, readM in H.
    destruct (Interface E fv h); [|discriminate].
    destruct (empty_text_base _); cbn [negb] in H; [|discriminate].
    eapply Base_ParseHard_error; eauto.
Qed.

Lemma error_leaves_variables_witness :
  snd (Strct.ParseHard examples.env 0 "maybe" examples.flag_var [VBool true]) = [VBool true].
Proof.
  apply (proj1 (error_leaves_variables examples.env 0 "maybe" examples.flag_var [VBool true]
                  (NumError "ParseBool" "maybe" "invalid syntax") _
                  (or_introl eq_refl))).
  discriminate.
Defined.

(** ** Integers are stored as they are spelled *)

Lemma ParseUint_loop_range s0 base0 base cutoff maxVal s : forall n us n' us',
  0 <= n <= maxVal ->
  strconv.ParseUint_loop s0 base0 base cutoff maxVal n us s = inl (n', us') ->
  0 <= n' <= maxVal.
Proof.
  induction s as [|c s IH]; intros n us n' us' Hn; cbn [strconv.ParseUint_loop].
  - intros [= <- <-]. exact Hn.
  - destruct ((byte_of c =? 95) && base0); [apply IH; exact Hn|].
    destruct (if is_digit c then _ else _) as [d|]; [|discriminate].
    destruct (d >=? base); [discriminate|].
    destruct (n >=? cutoff); [discriminate|].
    destruct ((_ <? _) || (_ >? maxVal)) eqn:Hov; [discriminate|].
    apply orb_false_iff in Hov. destruct Hov as [_ Hmax].
    apply IH. split.
    + apply Z.mod_pos_bound. reflexivity.
    + rewrite Z.gtb_ltb in Hmax. apply Z.ltb_ge in Hmax. exact Hmax.
Qed.

Lemma ParseUint0_range s bitSize v :
  0 <= bitSize -> strconv.ParseUint0 s bitSize = inl v -> 0 <= v < 2 ^ bitSize.
Proof.
  intros Hb. unfold strconv.ParseUint0.
  destruct s as [|c0 rest]; [discriminate|].
  destruct (if byte_of c0 =? 48 then _ else _) as [base digits].
  destruct (strconv.ParseUint_loop _ _ _ _ _ _ _ _) as [[n us]|e] eqn:Hloop; [|discriminate].
  assert (0 < 2 ^ bitSize) by (apply Z.pow_pos_nonneg; lia).
  apply ParseUint_loop_range in Hloop; [|lia].
  destruct (us && _); [discriminate|]. intros [= <-]. lia.
Qed.

Lemma ParseInt0_range s bitSize v :
  1 <= bitSize -> strconv.ParseInt0 s bitSize = inl v ->
  - 2 ^ (bitSize - 1) <= v < 2 ^ (bitSize - 1).
Proof.
  intros Hb. unfold strconv.ParseInt0.
  destruct s as [|c rest]; [discriminate|].
  destruct (if byte_of c =? 43 then _ else _) as [neg s].
  assert (0 < 2 ^ (bitSize - 1)) as Hpos by (apply Z.pow_pos_nonneg; lia).
  assert (forall un, 0 <= un ->
            (if negb neg && (un >=? 2 ^ (bitSize - 1))
             then inr (strconv.rangeError "ParseInt" (String c rest))
             else if neg && (un >? 2 ^ (bitSize - 1))
             then inr (strconv.rangeError "ParseInt" (String c rest))
             else inl (if neg then - un else un)) = inl v ->
            - 2 ^ (bitSize - 1) <= v < 2 ^ (bitSize - 1)) as Hcheck.
  { intros un Hun. destruct neg; cbn [negb andb].
    - destruct (un >? _) eqn:Hc; [discriminate|]. intros [= <-].
      rewrite Z.gtb_ltb in Hc. apply Z.ltb_ge in Hc. lia.
    - destruct (un >=? _) eqn:Hc; [discriminate|]. intros [= <-].
      rewrite Z.geb_leb in Hc. apply Z.leb_gt in Hc. lia. }
  destruct (strconv.ParseUint0 s bitSize) as [un|e] eqn:Hu.
  - apply Hcheck. apply ParseUint0_range in Hu; lia.
  - destruct (strconv.is_range_error e); [|discriminate].
    apply Hcheck. assert (0 < 2 ^ bitSize) by (apply Z.pow_pos_nonneg; lia). lia.
Qed.

Lemma wrap_signed_id bits v :
  1 <= bits -> - 2 ^ (bits - 1) <= v < 2 ^ (bits - 1) -> wrap_signed bits v = v.
Proof.
  intros Hb Hv. unfold wrap_signed.
  replace (2 ^ bits) with (2 * 2 ^ (bits - 1)).
  - rewrite Z.mod_small by lia. lia.
  - rewrite <- Z.pow_succ_r by lia. f_equal. lia.
Qed.

Lemma wrap_unsigned_id bits v : 0 <= v < 2 ^ bits -> wrap_unsigned bits v = v.
Proof. intros Hv. unfold wrap_unsigned. apply Z.mod_small. exact Hv. Qed.

Lemma ParseDuration_loop_range orig fuel : forall d s r,
  0 <= d <= 2 ^ 63 ->
  time.ParseDuration_loop fuel orig d s = inl r -> 0 <= r <= 2 ^ 63.
Proof.
  induction fuel as [|fuel IH]; intros d s r Hd; destruct s as [|c s'];
    cbn [time.ParseDuration_loop]; try discriminate; try (intros [= <-]; exact Hd).
  destruct (negb _); [discriminate|].
  destruct (time.leadingInt 0 (String c s')) as [[v s1]|]; [|discriminate].
  destruct (match s1 with EmptyString => _ | String _ _ => _ end) as [[[f scale] s2] post].
  destruct (negb _ && negb post); [discriminate|].
  destruct (time.span_unit s2) as [u s3].
  destruct u as [|cu u']; [discriminate|].
  destruct (time.unitMap _) as [unit|]; [|discriminate].
  destruct (v >? _); [discriminate|].
  destruct ((f >? 0) && _); [discriminate|].
  destruct (_ >? 2 ^ 63) eqn:Hov; [discriminate|].
  apply IH. split.
  - apply Z.mod_pos_bound. reflexivity.
  - rewrite Z.gtb_ltb in Hov. apply Z.ltb_ge in Hov. exact Hov.
Qed.

Lemma ParseDuration_range s v :
  time.ParseDuration s = inl v -> - 2 ^ 63 <= v < 2 ^ 63.
Proof.
  unfold time.ParseDuration.
  destruct (match s with EmptyString => _ | String _ _ => _ end) as [neg s0].
  destruct (String.eqb s0 "0"); [intros [= <-]; split; [|reflexivity]; discriminate|].
  destruct s0 as [|c0 s0']; [discriminate|].
  destruct (time.ParseDuration_loop _ _ _ _) as [d|e] eqn:Hloop; [|discriminate].
  apply ParseDuration_loop_range in Hloop; [|split; [reflexivity | discriminate]].
  destruct neg.
  - intros [= <-]. lia.
  - destruct (d >? 2 ^ 63 - 1) eqn:Hc; [discriminate|]. intros [= <-].
    rewrite Z.gtb_ltb in Hc. apply Z.ltb_ge in Hc. lia.
Qed.

Lemma Bits_signed E t : signed_kind (kind_of E t) = true -> 8 <= Bits E t <= 64.
Proof. unfold Bits. destruct (kind_of E t); cbn; try discriminate; lia. Qed.

Lemma Bits_unsigned E t : unsigned_kind (kind_of E t) = true -> 8 <= Bits E t <= 64.
Proof. unfold Bits. destruct (kind_of E t); cbn; try discriminate; lia. Qed.

(** One assignment, then [return nil]. *)
Lemma assign_then_nil t l fl x h h' :
  bindM (assign (Ref t l fl) x) (fun _ => retM (@None error)) h = (Ret None, h') ->
  load h' l = Some x.
Proof.
  unfold bindM, assign. cbn [mustBeAssignable].
  destruct (flagRO fl); [discriminate|].
  destruct (store h l x) as [hs|] eqn:Hst; [|discriminate].
  intros [= <-]. eapply load_store; eauto.
Qed.

Lemma Strct_ParseHard_integer E depth val t l fl h h' :
  val <> EmptyString ->
  Strct.ParseHard E depth val (Ref t l fl) h = (Ret None, h') ->
  (signed_kind (kind_of E t) = true ->
   exists v, (if is_Duration t then time.ParseDuration val
              else strconv.ParseInt0 val (Bits E t)) = inl v
             /\ load h' l = Some (VInt (wrap_signed (Bits E t) v)))
  /\ (unsigned_kind (kind_of E t) = true ->
      exists v, strconv.ParseUint0 val (Bits E t) = inl v
                /\ load h' l = Some (VUint (wrap_unsigned (Bits E t) v))).
Proof.
  intros Hval H.
  destruct depth; cbn [Strct.ParseHard Kind type_of] in H;
    rewrite (eqb_nonempty _ Hval) in H;
    (split; intros Hk; destruct (kind_of E t); try discriminate Hk;
     unfold SetInt, SetUint in H; cbn [type_of] in H;
     repeat match type of H with
            | (match ?x with _ => _ end) _ = _ => destruct x eqn:?; try discriminate H
            | (if ?x then _ else _) _ = _ => destruct x eqn:?
            end;
     eexists; (split; [reflexivity | eapply assign_then_nil; exact H])).
Qed.

Lemma Base_ParseHard_integer E depth val t l fl h h' :
  val <> EmptyString ->
  Base.ParseHard E depth val (Ref t l fl) h = (Ret None, h') ->
  (signed_kind (kind_of E t) = true ->
   exists v, (if is_Duration t then time.ParseDuration val
              else strconv.ParseInt0 val (Bits E t)) = inl v
             /\ load h' l = Some (VInt (wrap_signed (Bits E t) v)))
  /\ (unsigned_kind (kind_of E t) = true ->
      exists v, strconv.ParseUint0 val (Bits E t) = inl v
                /\ load h' l = Some (VUint (wrap_unsigned (Bits E t) v))).
Proof.
  intros Hval H.
  destruct depth; cbn [Base.ParseHard Kind type_of] in H;
    rewrite (eqb_nonempty _ Hval) in H;
    (split; intros Hk; destruct (kind_of E t); try discriminate Hk;
     unfold SetInt, SetUint in H; cbn [type_of] in H;
     repeat match type of H with
            | (match ?x with _ => _ end) _ = _ => destruct x eqn:?; try discriminate H
            | (if ?x then _ else _) _ = _ => destruct x eqn:?
            end;
     eexists; (split; [reflexivity | eapply assign_then_nil; exact H])).
Qed.

(** X5. When [ParseHard] (of either revision) returns nil for a non-empty
    text and a destination of an integer kind, the destination holds
    exactly the number that the text spells: [strconv.ParseInt] and
    [strconv.ParseUint] are asked for the size of the destination's type
    and [time.ParseDuration] yields a 64-bit number, so the conversion to
    the destination's size in [SetInt] and [SetUint] never cuts a number
    down; a text that does not fit is an error.  ([time.Duration] is a
    64-bit type.) *)
Theorem integers_stored_as_spelled E depth val t l fl h h' :
  val <> EmptyString ->
  Strct.ParseHard E depth val (Ref t l fl) h = (Ret None, h')
  \/ Base.ParseHard E depth val (Ref t l fl) h = (Ret None, h') ->
  (signed_kind (kind_of E t) = true -> is_Duration t = false ->
   exists v, strconv.ParseInt0 val (Bits E t) = inl v /\ load h' l = Some (VInt v)
             /\ - 2 ^ (Bits E t - 1) <= v < 2 ^ (Bits E t - 1))
  /\ (signed_kind (kind_of E t) = true -> is_Duration t = true -> Bits E t = 64 ->
      exists v, time.ParseDuration val = inl v /\ load h' l = Some (VInt v))
  /\ (unsigned_kind (kind_of E t) = true ->
      exists v, strconv.ParseUint0 val (Bits E t) = inl v /\ load h' l = Some (VUint v)
                /\ 0 <= v < 2 ^ Bits E t).
Proof.
  intros Hval H.
  assert ((signed_kind (kind_of E t) = true ->
           exists v, (if is_Duration t then time.ParseDuration val
                      else strconv.ParseInt0 val (Bits E t)) = inl v
                     /\ load h' l = Some (VInt (wrap_signed (Bits E t) v)))
          /\ (unsigned_kind (kind_of E t) = true ->
              exists v, strconv.ParseUint0 val (Bits E t) = inl v
                        /\ load h' l = Some (VUint (wrap_unsigned (Bits E t) v))))
    as [Hs Hu].
  { destruct H as [H|H];
      [eapply Strct_ParseHard_integer | eapply Base_ParseHard_integer]; eauto. }
  split; [|split].
  - intros Hk Hd. destruct (Hs Hk) as (v & Hv & Hl). rewrite Hd in Hv.
    pose proof (Bits_signed E t Hk) as Hb.
    pose proof (ParseInt0_range val (Bits E t) v ltac:(lia) Hv) as Hr.
    rewrite wrap_signed_id in Hl by (lia || exact Hr). eauto.
  - intros Hk Hd Hb. destruct (Hs Hk) as (v & Hv & Hl). rewrite Hd in Hv.
    pose proof (ParseDuration_range _ _ Hv) as Hr.
    rewrite Hb in Hl. rewrite wrap_signed_id in Hl by (lia || exact Hr). eauto.
  - intros Hk. destruct (Hu Hk) as (v & Hv & Hl).
    pose proof (Bits_unsigned E t Hk) as Hb.
    pose proof (ParseUint0_range val (Bits E t) v ltac:(lia) Hv) as Hr.
    rewrite wrap_unsigned_id in Hl by exact Hr. eauto.
Qed.

Lemma integers_stored_as_spelled_witness :
  exists v, strconv.ParseInt0 "-128" (Bits examples.env (TBasic reflect.Int8)) = inl v
            /\ load [VInt (-128)] (Loc 0%nat []) = Some (VInt v)
            /\ - 2 ^ (Bits examples.env (TBasic reflect.Int8) - 1) <= v
               < 2 ^ (Bits examples.env (TBasic reflect.Int8) - 1).
Proof.
  apply (proj1 (integers_stored_as_spelled examples.env 0 "-128" (TBasic reflect.Int8)
                  (Loc 0%nat []) flag0 [VInt 0] [VInt (-128)]
                  ltac:(discriminate) (or_introl eq_refl))); reflexivity.
Defined.

(** ** The driver and the data source name of a database *)

Lemma run_Plus_Class p s cs k :
  regexp.run (regexp.Plus (regexp.Class p)) s cs k
  = match s with
    | String c s' => if p c then star p k s' cs else None
    | EmptyString => None
    end.
Proof.
  cbn [regexp.run].
  destruct s as [|c s']; [reflexivity|].
  destruct (p c); [|reflexivity].
  assert (String.length s' <= String.length (String c s'))%nat as Hlen by (cbn; lia).
  revert Hlen. generalize (String.length (String c s')) as fuel.
  intros fuel. revert s' cs.
  induction fuel as [|fuel IH]; intros s1 cs1 Hlen.
  - destruct s1; [reflexivity | cbn in Hlen; lia].
  - destruct s1 as [|c1 s2]; cbn [star].
    + reflexivity.
    + destruct (p c1); [|reflexivity].
      cbn [String.length]. rewrite (proj2 (Nat.ltb_lt _ _)) by lia.
      rewrite IH by (cbn in Hlen; lia). reflexivity.
Qed.

Lemma star_all p k s cs :
  (forall c, p c = true) -> (forall s cs, k s cs <> None) ->
  star p k s cs = k EmptyString cs.
Proof.
  intros Hp Hk. induction s as [|c s IH]; cbn [star]; [reflexivity|].
  rewrite Hp, IH. destruct (k EmptyString cs) eqn:H; [reflexivity|].
  exfalso. exact (Hk _ _ H).
Qed.

Lemma star_greedy p k s cs :
  (forall c s' cs, p c = true -> k (String c s') cs = None) ->
  star p k s cs = k (snd (span p s)) cs.
Proof.
  intros Hk. induction s as [|c s IH]; cbn [star span]; [reflexivity|].
  destruct (p c) eqn:Hc; [|reflexivity].
  destruct (span p s) as [w r]. cbn [snd] in *.
  rewrite IH. destruct (k r cs); [reflexivity|]. apply Hk. exact Hc.
Qed.

Lemma take_all s : regexp.take_string (String.length s) s = s.
Proof. induction s as [|c s IH]; cbn; [reflexivity|]. rewrite IH. reflexivity. Qed.

Lemma span_length p s :
  String.length s = (String.length (fst (span p s)) + String.length (snd (span p s)))%nat.
Proof.
  induction s as [|c s IH]; cbn [span]; [reflexivity|].
  destruct (p c); [|reflexivity].
  destruct (span p s) as [w r]. cbn in *. lia.
Qed.

Lemma take_span p s :
  regexp.take_string (String.length s - String.length (snd (span p s))) s = fst (span p s).
Proof.
  rewrite (span_length p s) at 1. rewrite Nat.add_sub.
  induction s as [|c s IH]; cbn [span]; [reflexivity|].
  destruct (p c); [|reflexivity].
  destruct (span p s) as [w r]. cbn in *. rewrite IH. reflexivity.
Qed.

Lemma any_byte c : regexp.word c || negb (regexp.word c) || is_digit c = true.
Proof. destruct (regexp.word c); reflexivity. Qed.

Lemma word_not_slash c : regexp.word c = true -> regexp.is_byte 47 c = false.
Proof.
  unfold regexp.word, regexp.is_byte. intros H.
  destruct (byte_of c =? 47)%Z eqn:Hc; [|reflexivity].
  apply Z.eqb_eq in Hc. rewrite Hc in H. discriminate.
Qed.

Lemma run_Group n a s cs k :
  regexp.run (regexp.Group n a) s cs k
  = regexp.run a s cs (fun s' cs' =>
      k s' ((n, regexp.take_string (String.length s - String.length s') s) :: cs')).
Proof. reflexivity. Qed.

Lemma run_Class p s cs k :
  regexp.run (regexp.Class p) s cs k
  = match s with
    | String c s' => if p c then k s' cs else None
    | EmptyString => None
    end.
Proof. reflexivity. Qed.

Lemma run_Cat a b s cs k :
  regexp.run (regexp.Cat a b) s cs k
  = regexp.run a s cs (fun s' cs' => regexp.run b s' cs' k).
Proof. reflexivity. Qed.

Lemma run_Quest a s cs k :
  regexp.run (regexp.Quest a) s cs k
  = match regexp.run a s cs k with
    | Some res => Some res
    | None => k s cs
    end.
Proof. reflexivity. Qed.

(** The third group on its own: everything that is left, when something is. *)
Lemma run_rest val s cs :
  regexp.run
    (regexp.Group 3
       (regexp.Plus
          (regexp.Class (fun c => regexp.word c || negb (regexp.word c) || is_digit c))))
    s cs
    (fun s' cs' => Some ((0%nat, regexp.take_string (String.length val - String.length s') val) :: cs'))
  = match s with
    | EmptyString => None
    | String _ _ => Some ((0%nat, val) :: (3%nat, s) :: cs)
    end.
Proof.
  rewrite run_Group, run_Plus_Class.
  destruct s as [|c s']; [reflexivity|].
  rewrite any_byte, star_all by (apply any_byte || discriminate).
  cbn [String.length]. rewrite !Nat.sub_0_r, take_all.
  change (S (String.length s')) with (String.length (String c s')).
  rewrite take_all. reflexivity.
Qed.

(** The first group: a run of word characters, as long as possible, then a
    slash, then something. *)
Lemma run_driver val :
  regexp.run
    (regexp.Group 1
       (regexp.Cat (regexp.Group 2 (regexp.Plus (regexp.Class regexp.word)))
                   (regexp.Class (regexp.is_byte 47))))
    val []
    (fun s' cs' =>
       regexp.run
         (regexp.Group 3
            (regexp.Plus
               (regexp.Class (fun c => regexp.word c || negb (regexp.word c) || is_digit c))))
         s' cs'
         (fun s' cs' => Some ((0%nat, regexp.take_string (String.length val - String.length s') val) :: cs')))
  = match span regexp.word val with
    | (String c w, String c1 (String c2 r)) =>
        if regexp.is_byte 47 c1
        then Some [ (0%nat, val); (3%nat, String c2 r);
                    (1%nat, regexp.take_string (String.length val - String.length (String c2 r)) val);
                    (2%nat, String c w) ]
        else None
    | _ => None
    end.
Proof.
  rewrite run_Group, run_Cat, run_Group, run_Plus_Class.
  destruct val as [|c v]; [reflexivity|].
  cbn [span]. destruct (regexp.word c) eqn:Hc; [|reflexivity].
  rewrite star_greedy.
  2:{ intros c' s' cs Hw. rewrite run_Class, (word_not_slash _ Hw). reflexivity. }
  pose proof (take_span regexp.word (String c v)) as Htake.
  cbn [span] in Htake. rewrite Hc in Htake.
  destruct (span regexp.word v) as [w rest]. cbn [fst snd] in *.
  rewrite run_Class.
  destruct rest as [|c1 r]; [reflexivity|].
  destruct (regexp.is_byte 47 c1); [|destruct r; reflexivity].
  rewrite run_rest, Htake. destruct r; reflexivity.
Qed.

Lemma dsn_submatches val :
  val <> EmptyString ->
  exists m0 m1,
    regexp.FindStringSubmatch dsn_pattern 3 val
    = Some [m0; m1; fst (dsn_parts val); snd (dsn_parts val)].
Proof.
  intros Hval. unfold regexp.FindStringSubmatch.
  assert (exists m1,
            regexp.run (regexp.Group 0 dsn_pattern) val [] (fun _ cs => Some cs)
            = Some (if String.eqb (fst (dsn_parts val)) EmptyString
                    then [(0%nat, val); (3%nat, val)]
                    else [(0%nat, val); (3%nat, snd (dsn_parts val)); (1%nat, m1);
                          (2%nat, fst (dsn_parts val))])) as (m1 & Hrun).
  { unfold dsn_pattern. rewrite run_Group, run_Cat, run_Quest, run_driver, run_rest.
    unfold dsn_parts.
    destruct (span regexp.word val) as [[|c w] [|c1 [|c2 r]]];
      try (exists EmptyString; destruct val; [contradiction | reflexivity]).
    destruct (regexp.is_byte 47 c1).
    - eexists. reflexivity.
    - exists EmptyString. destruct val; [contradiction | reflexivity]. }
  assert (regexp.search dsn_pattern val
          = Some (if String.eqb (fst (dsn_parts val)) EmptyString
                  then [(0%nat, val); (3%nat, val)]
                  else [(0%nat, val); (3%nat, snd (dsn_parts val)); (1%nat, m1);
                        (2%nat, fst (dsn_parts val))])) as ->.
  { destruct val; cbn [regexp.search]; rewrite Hrun; reflexivity. }
  destruct (String.eqb (fst (dsn_parts val)) EmptyString) eqn:He.
  - apply String.eqb_eq in He.
    assert (snd (dsn_parts val) = val) as Hs.
    { revert He. unfold dsn_parts.
      destruct (span regexp.word val) as [[|c w] [|c1 [|c2 r]]]; try reflexivity.
      destruct (regexp.is_byte 47 c1); [discriminate | reflexivity]. }
    rewrite He, Hs. exists val, EmptyString. reflexivity.
  - exists val, m1. reflexivity.
Qed.

Lemma Strct_ParseHard_database E depth val l fl h m0 m1 m2 m3 :
  val <> EmptyString -> flagRO fl = false ->
  regexp.FindStringSubmatch dsn_pattern 3 val = Some [m0; m1; m2; m3] ->
  opens_database E l h (if String.eqb m2 EmptyString then "postgres" else m2) m3
    (Strct.ParseHard E depth val (Ref (TPtr sql_DB) l fl) h).
Proof.
  intros Hval Hro Hm.
  destruct depth; cbn [Strct.ParseHard]; rewrite (eqb_nonempty _ Hval);
    (change (Kind E (Ref (TPtr sql_DB) l fl)) with reflect.Ptr; cbv iota;
     cbn [type_of]; rewrite sql_DB_not_file;
     change (rtype_eqb (TPtr sql_DB) (TPtr sql_DB)) with true; cbv iota;
     rewrite Hm; cbn [Strct.submatch lookup list_lookup];
     unfold bindM at 1, liftO at 1; unfold bindM at 1, liftO at 1;
     set (dvr := if String.eqb m2 EmptyString then "postgres" else m2);
     unfold opens_database, bindM, sql_Open_;
     destruct (sql_Open E dvr m3) as [err|]; [reflexivity|];
     intros hs Hst; cbn [alloc];
     unfold Set_; cbn [mustBeAssignable flag_of flagRO flagStickyRO flagEmbedRO orb];
     rewrite Hro; cbn [value_of type_of];
     change (kind_of E (TPtr sql_DB)) with reflect.Ptr; cbv iota;
     unfold assign; cbn [mustBeAssignable]; rewrite Hro;
     rewrite (store_app _ [VDB dvr m3] _ _ _ Hst); reflexivity).
Qed.

(** X6. On every non-empty text the pattern of [ParseHard] matches, so
    that [m[2]] and [m[3]] exist and [ParseHard] never panics on them.  The
    driver [m[2]] is the leading run of word characters when a slash and at
    least one more byte follow that run, and the data source name [m[3]]
    is then what follows the slash; in every other case (no slash after
    the leading word, nothing after the slash, a text that starts with
    another byte) the driver is empty, so that [postgres] is used, and the
    data source name is the whole text.  On a settable [*sql.DB]
    destination [ParseHard] opens that driver with that name. *)
Theorem database_driver_and_source E depth val l fl h :
  val <> EmptyString -> flagRO fl = false ->
  (exists m0 m1,
     regexp.FindStringSubmatch dsn_pattern 3 val
     = Some [m0; m1; fst (dsn_parts val); snd (dsn_parts val)])
  /\ opens_database E l h
       (if String.eqb (fst (dsn_parts val)) EmptyString then "postgres"
        else fst (dsn_parts val))
       (snd (dsn_parts val))
       (Strct.ParseHard E depth val (Ref (TPtr sql_DB) l fl) h).
Proof.
  intros Hval Hro.
  destruct (dsn_submatches val Hval) as (m0 & m1 & Hm).
  split; [eauto|].
  eapply Strct_ParseHard_database; eauto.
Qed.

Lemma database_driver_and_source_witness :
  Strct.ParseHard examples.env 0 "my-sql/db" (Ref (TPtr sql_DB) (Loc 0%nat []) flag0) [VPtr None]
  = (Ret None, [VPtr (Some (Loc 1%nat [])); VDB "postgres" "my-sql/db"]).
Proof.
  exact (proj2 (database_driver_and_source examples.env 0 "my-sql/db" (Loc 0%nat []) flag0
                  [VPtr None] ltac:(discriminate) eq_refl) _ eq_refl).
Defined.

(** ** Files *)

(** X7. On a settable destination of one of the file types ([*os.File],
    [io.Reader], [io.Writer], [io.ReadWriter], [io.ReadCloser],
    [io.WriteCloser], [io.ReadWriteCloser]) and a non-empty text,
    [ParseHard] opens the file of that name for reading, the text taken as
    it is: when [os.Open] fails its error is returned and the store is as
    it was; else the destination points to the new [os.File], boxed with
    the type [*os.File] when the destination is of interface type. *)
Theorem file_destination E depth val t l fl h :
  val <> EmptyString -> flagRO fl = false ->
  kind_of E t = reflect.Interface \/ kind_of E t = reflect.Ptr ->
  Strct.is_file_type t = true ->
  opens_file E t l h val (Strct.ParseHard E depth val (Ref t l fl) h).
Proof.
  intros Hval Hro Hk Hfile.
  destruct depth; cbn [Strct.ParseHard Kind type_of]; rewrite (eqb_nonempty _ Hval);
    (destruct Hk as [Hk|Hk]; rewrite Hk; cbv iota; rewrite Hfile;
     unfold opens_file, bindM, os_Open_; rewrite Hk;
     (destruct (os_Open E val) as [err|]; [reflexivity|]);
     intros hs Hst; cbn [alloc];
     unfold Set_; cbn [mustBeAssignable flag_of flagRO flagStickyRO flagEmbedRO orb];
     rewrite Hro; cbn [value_of type_of]; rewrite Hk;
     change (kind_of E (TPtr os_File)) with reflect.Ptr; cbv iota;
     unfold assign; cbn [mustBeAssignable]; rewrite Hro;
     rewrite (store_app _ [VFile val] _ _ _ Hst); reflexivity).
Qed.

Lemma file_destination_witness :
  Strct.ParseHard test.env 0 "./base.go" (Ref io_Reader (Loc 0%nat []) flag0) [VIface None]
  = (Ret None, [VIface (Some (TPtr os_File, VPtr (Some (Loc 1%nat [])))); VFile "./base.go"])
  /\ Strct.ParseHard test.env 0 "./none" (Ref (TPtr os_File) (Loc 0%nat []) flag0) [VPtr None]
     = (Ret (Some (PathError "open" "./none" "no such file or directory")), [VPtr None]).
Proof.
  split.
  - exact (file_destination test.env 0 "./base.go" io_Reader (Loc 0%nat []) flag0 [VIface None]
             ltac:(discriminate) eq_refl (or_introl eq_refl) eq_refl _ eq_refl).
  - exact (file_destination test.env 0 "./none" (TPtr os_File) (Loc 0%nat []) flag0 [VPtr None]
             ltac:(discriminate) eq_refl (or_intror eq_refl) eq_refl).
Defined.

(** ** Destinations that are passed over, and destinations that panic *)

(** X8. A destination of a kind that [ParseHard] has no case for (a
    struct, an array, a map, a channel, a function, a complex number, a
    [uintptr], an unsafe pointer, the zero [Value]) is passed over: nil is
    returned and the store is as it was, whatever the text, also when the
    destination is not settable.  So for a pointer or an interface in
    src/base.go, and in the latest revision for one whose type is neither a
    file type nor [*sql.DB]. *)
Theorem unsupported_destination_passed_over E depth val fv h :
  parsed_kind (Kind E fv) = false ->
  Base.ParseHard E depth val fv h = (Ret None, h)
  /\ ((Kind E fv = reflect.Interface \/ Kind E fv = reflect.Ptr ->
       Strct.is_file_type (type_of fv) = false
       /\ rtype_eqb (type_of fv) (TPtr sql_DB) = false) ->
      Strct.ParseHard E depth val fv h = (Ret None, h)).
Proof.
  intros Hk. split.
  - destruct depth; cbn [Base.ParseHard];
      (destruct (String.eqb val EmptyString); [reflexivity|]);
      destruct (Kind E fv); try discriminate Hk; reflexivity.
  - intros Hother.
    destruct depth; cbn [Strct.ParseHard];
      (destruct (String.eqb val EmptyString); [reflexivity|]);
      destruct (Kind E fv); try discriminate Hk; try reflexivity;
      (destruct Hother as [-> ->]; [auto | reflexivity]).
Qed.

Lemma unsupported_destination_passed_over_witness :
  Base.ParseHard examples.env 0 "x" (Ref examples.Outer examples.outer flag0) examples.heap1
  = (Ret None, examples.heap1).
Proof.
  exact (proj1 (unsupported_destination_passed_over examples.env 0 "x"
                  (Ref examples.Outer examples.outer flag0) examples.heap1 eq_refl)).
Defined.

(** X9. [Parse] (of either revision) asks for [fv.Interface()] before it
    looks at the text: on a [Value] obtained from an unexported field it
    panics, whatever the text, the empty text too, and leaves the store as
    it was.  (The scanner never hands such a [Value] to its callback.) *)
Theorem Parse_panics_on_unexported E depth val t l fl h :
  flagRO fl = true ->
  Strct.Parse E depth val (Ref t l fl) h
  = (Abort (GoPanic "reflect.Value.Interface: cannot return value obtained from unexported field or method"), h)
  /\ Base.Parse E depth val (Ref t l fl) h
     = (Abort (GoPanic "reflect.Value.Interface: cannot return value obtained from unexported field or method"), h).
Proof.
  intros Hro.
  unfold Strct.Parse, Strct.Parse_with, Base.Parse, Base.Parse_with, bindM, readM, Interface.
  rewrite Hro. split; reflexivity.
Qed.

Lemma Parse_panics_on_unexported_witness :
  Strct.Parse examples.env 0 EmptyString frames.hidden frames.pair_heap
  = (Abort (GoPanic "reflect.Value.Interface: cannot return value obtained from unexported field or method"),
     frames.pair_heap).
Proof.
  exact (proj1 (Parse_panics_on_unexported examples.env 0 EmptyString (TBasic reflect.Int)
                  (Loc 0%nat [0%nat]) (Flag true false) frames.pair_heap eq_refl)).
Defined.

(** ** The scanner writes through its callbacks only *)

Section Keeps.
Context (I : heap -> Prop).

Lemma keepsT_ret {A} (a : A) : keepsT I (retT a).
Proof. intros h Hh. exact Hh. Qed.

Lemma keepsT_abort {A} r : keepsT I (@abortT A r).
Proof. intros h Hh. exact Hh. Qed.

Lemma keepsT_lift {A} (o : outcome A) : keepsT I (liftT o).
Proof. intros h Hh. exact Hh. Qed.

Lemma keepsT_read {A} (f : heap -> outcome A) : keepsT I (readT f).
Proof. intros h Hh. exact Hh. Qed.

Lemma keepsT_call {A} ev (m : M A) : keeps I m -> keepsT I (call ev m).
Proof.
  intros Hm h Hh. specialize (Hm h Hh). unfold call, heap_of.
  destruct (m h) as [r h']. exact Hm.
Qed.

Lemma keepsT_bind {A B} (m : T A) (k : A -> T B) :
  keepsT I m -> (forall a, keepsT I (k a)) -> keepsT I (bindT m k).
Proof.
  intros Hm Hk h Hh. specialize (Hm h Hh). unfold bindT, heap_of in *.
  destruct (m h) as [[[a|r] h1] t1]; cbn in *; [|exact Hm].
  specialize (Hk a h1 Hm). unfold heap_of in Hk.
  destruct (k a h1) as [[r2 h2] t2]. exact Hk.
Qed.

Lemma keepsT_for_range body n from :
  (forall i, keepsT I (body i)) -> keepsT I (for_range body n from).
Proof.
  intros Hb. revert from. induction n as [|n IH]; intros from; cbn [for_range].
  - apply keepsT_ret.
  - apply keepsT_bind; [apply Hb|].
    intros [e|]; [apply keepsT_ret | apply IH].
Qed.

Context (E : Env) (onStruct : StructField -> M (option error))
        (onProperty : StructField -> Value -> M (option error)).
Context (HonStruct : forall sf, keeps I (onStruct sf))
        (HonProperty : forall sf v, keeps I (onProperty sf v)).

Lemma Strct_after_switch_keeps sf f : keepsT I (Strct.after_switch onProperty sf f).
Proof.
  unfold Strct.after_switch.
  destruct (negb (CanSet f)); [apply keepsT_ret | apply keepsT_call; apply HonProperty].
Qed.

Lemma Strct_case_Struct_keeps rec sf f :
  (forall obj, keepsT I (rec obj)) ->
  keepsT I (Strct.case_Struct E onStruct onProperty rec sf f).
Proof.
  intros Hrec. unfold Strct.case_Struct.
  apply keepsT_bind; [apply keepsT_lift|]. intros a.
  destruct (negb (CanInterface a)); [apply keepsT_ret|].
  apply keepsT_bind; [apply keepsT_call; apply HonStruct|].
  intros [e|]; [apply keepsT_ret|].
  apply keepsT_bind; [apply keepsT_read|]. intros obj.
  apply keepsT_bind; [apply Hrec|].
  intros [e|]; [apply keepsT_ret | apply Strct_after_switch_keeps].
Qed.

Lemma Strct_ScanAll_field_keeps rec rv t i :
  (forall obj, keepsT I (rec obj)) ->
  keepsT I (Strct.ScanAll_field E onStruct onProperty rec rv t i).
Proof.
  intros Hrec. unfold Strct.ScanAll_field.
  apply keepsT_bind; [apply keepsT_lift|]. intros f.
  apply keepsT_bind; [apply keepsT_lift|]. intros sf.
  destruct (Kind E f);
    try apply Strct_after_switch_keeps;
    try (apply Strct_case_Struct_keeps; exact Hrec).
  apply keepsT_bind; [apply keepsT_read|]. intros e.
  destruct (negb (is_Struct (Kind E e)));
    [apply Strct_after_switch_keeps | apply Strct_case_Struct_keeps; exact Hrec].
Qed.

Lemma Strct_ScanAll_keeps depth :
  forall obj, keepsT I (Strct.ScanAll E onStruct onProperty depth obj).
Proof.
  induction depth as [|d IH]; intros obj; rewrite ScanAll_unfold; cbv zeta;
    (destruct (negb (is_Ptr (Kind E (ValueOf obj)))); [apply keepsT_ret|];
     apply keepsT_bind; [apply keepsT_read|]; intros [|]; [apply keepsT_ret|];
     apply keepsT_bind; [apply keepsT_read|]; intros rv;
     destruct (negb (is_Struct (Kind E rv))); [apply keepsT_ret|];
     apply keepsT_bind; [apply keepsT_lift|]; intros t;
     apply keepsT_for_range; intros i;
     apply Strct_ScanAll_field_keeps; cbn [ScanAll_rec]).
  - intros obj'. apply keepsT_abort.
  - exact IH.
Qed.

End Keeps.

(** ** [Scan] of the two revisions *)

Lemma properties_app t1 t2 : properties (t1 ++ t2) = properties t1 ++ properties t2.
Proof. unfold properties. apply List.filter_app. Qed.

Lemma silent_but_for_onStruct {A} (m : T A) :
  (forall h, trace_of (m h) = []) -> but_for_onStruct m m.
Proof.
  intros Hm h. specialize (Hm h). unfold result_of, heap_of, trace_of in *.
  destruct (m h) as [[r h1] t1]. cbn in *. subst t1. reflexivity.
Qed.

Lemma bind_but_for_onStruct {A B} (m m' : T A) (k k' : A -> T B) :
  but_for_onStruct m m' -> (forall a, but_for_onStruct (k a) (k' a)) ->
  but_for_onStruct (bindT m k) (bindT m' k').
Proof.
  intros Hm Hk h. unfold bindT. rewrite (Hm h).
  unfold result_of, heap_of, trace_of.
  destruct (m h) as [[[a|r] h1] t1]; cbn [fst snd]; [|reflexivity].
  rewrite (Hk a h1). unfold result_of, heap_of, trace_of.
  destruct (k a h1) as [[r2 h2] t2]. cbn [fst snd].
  rewrite properties_app. reflexivity.
Qed.

Lemma call_but_for_onStruct {A} sf v (m : M A) :
  but_for_onStruct (call (OnProperty sf v) m) (call (OnProperty sf v) m).
Proof.
  intros h. unfold call, result_of, heap_of, trace_of.
  destruct (m h) as [r h1]. reflexivity.
Qed.

(** The hook of [Scan] returns nil and leaves no other mark than its call. *)
Lemma hook_but_for_onStruct {B} sf (k : option error -> T B) (k' : T B) :
  but_for_onStruct (k None) k' ->
  but_for_onStruct (bindT (call (OnStruct sf) (retM None)) k) k'.
Proof.
  intros Hk h. rewrite (Hk h). unfold bindT, call, retM, result_of, heap_of, trace_of.
  destruct (k None h) as [[r2 h2] t2]. reflexivity.
Qed.

Lemma for_range_but_for_onStruct body body' n : forall from,
  (forall i, but_for_onStruct (body i) (body' i)) ->
  but_for_onStruct (for_range body n from) (for_range body' n from).
Proof.
  induction n as [|n IH]; intros from Hb; cbn [for_range].
  - apply silent_but_for_onStruct. reflexivity.
  - apply bind_but_for_onStruct; [apply Hb|].
    intros [e|]; [apply silent_but_for_onStruct; reflexivity | apply IH; exact Hb].
Qed.

Lemma after_switch_but_for_onStruct onProperty sf f :
  but_for_onStruct (Strct.after_switch onProperty sf f) (Base.after_switch onProperty sf f).
Proof.
  unfold Strct.after_switch, Base.after_switch.
  destruct (negb (CanSet f));
    [apply silent_but_for_onStruct; reflexivity | apply call_but_for_onStruct].
Qed.

Lemma case_Struct_but_for_onStruct E onProperty rec rec' sf f :
  (forall obj, but_for_onStruct (rec obj) (rec' obj)) ->
  but_for_onStruct
    (Strct.case_Struct E (fun _ => retM None) onProperty rec sf f)
    (Base.case_Struct E onProperty rec' sf f).
Proof.
  intros Hrec. unfold Strct.case_Struct, Base.case_Struct.
  apply bind_but_for_onStruct; [apply silent_but_for_onStruct; reflexivity|].
  intros a. destruct (negb (CanInterface a));
    [apply silent_but_for_onStruct; reflexivity|].
  apply hook_but_for_onStruct.
  apply bind_but_for_onStruct; [apply silent_but_for_onStruct; reflexivity|].
  intros obj. apply bind_but_for_onStruct; [apply Hrec|].
  intros [e|]; [apply silent_but_for_onStruct; reflexivity|].
  apply after_switch_but_for_onStruct.
Qed.

Lemma field_but_for_onStruct E onProperty rec rec' rv t i :
  (forall obj, but_for_onStruct (rec obj) (rec' obj)) ->
  but_for_onStruct
    (Strct.ScanAll_field E (fun _ => retM None) onProperty rec rv t i)
    (Base.Scan_field E onProperty rec' rv t i).
Proof.
  intros Hrec. unfold Strct.ScanAll_field, Base.Scan_field.
  apply bind_but_for_onStruct; [apply silent_but_for_onStruct; reflexivity|]. intros f.
  apply bind_but_for_onStruct; [apply silent_but_for_onStruct; reflexivity|]. intros sf.
  destruct (Kind E f);
    try apply after_switch_but_for_onStruct;
    try (apply case_Struct_but_for_onStruct; exact Hrec).
  apply bind_but_for_onStruct; [apply silent_but_for_onStruct; reflexivity|]. intros e.
  destruct (negb (is_Struct (Kind E e)));
    [apply after_switch_but_for_onStruct | apply case_Struct_but_for_onStruct; exact Hrec].
Qed.

Lemma Scan_but_for_onStruct E onProperty depth :
  forall obj,
    but_for_onStruct (Strct.Scan E onProperty depth obj) (Base.Scan E onProperty depth obj).
Proof.
  unfold Strct.Scan.
  induction depth as [|d IH]; intros obj; rewrite ScanAll_unfold, Base_Scan_unfold; cbv zeta;
    (destruct (negb (is_Ptr (Kind E (ValueOf obj))));
     [apply silent_but_for_onStruct; reflexivity|];
     apply bind_but_for_onStruct; [apply silent_but_for_onStruct; reflexivity|];
     intros [|]; [apply silent_but_for_onStruct; reflexivity|];
     apply bind_but_for_onStruct; [apply silent_but_for_onStruct; reflexivity|];
     intros rv;
     destruct (negb (is_Struct (Kind E rv)));
     [apply silent_but_for_onStruct; reflexivity|];
     apply bind_but_for_onStruct; [apply silent_but_for_onStruct; reflexivity|];
     intros t;
     apply for_range_but_for_onStruct; intros i;
     apply field_but_for_onStruct; cbn [ScanAll_rec Scan_rec]).
  - intros obj'. apply silent_but_for_onStruct. reflexivity.
  - exact IH.
Qed.

(** X10. [Scan] of the latest revision, which is [ScanAll] with a hook that
    returns nil, does what [Scan] of src/base.go does: on every root, to
    every depth and whatever the callback does, the two return the same
    result and leave the same store, and the calls of the callback are the
    same, in the same order, with the same arguments; the only difference
    is the calls of the hook in between. *)
Theorem Scan_revisions_agree E onProperty depth obj h :
  Base.Scan E onProperty depth obj h
  = (result_of (Strct.Scan E onProperty depth obj h),
     heap_of (Strct.Scan E onProperty depth obj h),
     properties (trace_of (Strct.Scan E onProperty depth obj h))).
Proof. apply Scan_but_for_onStruct. Qed.

Lemma Base_Scan_heap E onProperty depth obj h :
  heap_of (Base.Scan E onProperty depth obj h) = heap_of (Strct.Scan E onProperty depth obj h).
Proof. rewrite (Scan_but_for_onStruct E onProperty depth obj h). reflexivity. Qed.

(** X11. The scanner itself writes nothing: every property of the store
    that each call of the callbacks keeps holds after [ScanAll] and [Scan]
    (of both revisions) when it held before, whatever the outcome.  With
    callbacks that leave the store as it is, the store after the scan is
    the store before. *)
Theorem scan_writes_through_callbacks_only E (I : heap -> Prop) onStruct onProperty
    depth obj h :
  (forall sf, keeps I (onStruct sf)) -> (forall sf v, keeps I (onProperty sf v)) ->
  I h ->
  I (heap_of (Strct.ScanAll E onStruct onProperty depth obj h))
  /\ I (heap_of (Strct.Scan E onProperty depth obj h))
  /\ I (heap_of (Base.Scan E onProperty depth obj h)).
Proof.
  intros HS HP Hh.
  assert (I (heap_of (Strct.Scan E onProperty depth obj h))) as Hscan.
  { apply (Strct_ScanAll_keeps I E (fun _ => retM None) onProperty); auto.
    intros sf h0 Hh0. exact Hh0. }
  split; [|split].
  - apply (Strct_ScanAll_keeps I E onStruct onProperty); auto.
  - exact Hscan.
  - rewrite Base_Scan_heap. exact Hscan.
Qed.

Lemma scan_writes_through_callbacks_only_witness :
  heap_of (Strct.ScanAll examples.env examples.nothing examples.nothing2 2
             (Some (TPtr examples.Outer, VPtr (Some examples.outer))) examples.heap1)
  = examples.heap1.
Proof.
  apply (proj1 (scan_writes_through_callbacks_only examples.env
                  (fun h => h = examples.heap1) examples.nothing examples.nothing2 2
                  (Some (TPtr examples.Outer, VPtr (Some examples.outer))) examples.heap1
                  (fun sf h H => H) (fun sf v h H => H) eq_refl)).
Defined.

(** ** A call that does not return nil ends the scan *)

Lemma properties_last before sf v :
  properties (before ++ [OnProperty sf v]) = properties before ++ [OnProperty sf v].
Proof. apply properties_app. Qed.

Section Ends.
Context (E : Env) (onStruct : StructField -> M (option error))
        (onProperty : StructField -> Value -> M (option error)).

Lemma replay_app t1 : forall h t2,
  replay onStruct onProperty h (t1 ++ t2)
  = match replay onStruct onProperty h t1 with
    | Some h' => replay onStruct onProperty h' t2
    | None => None
    end.
Proof.
  induction t1 as [|ev t1 IH]; intros h t2; cbn [app replay]; [reflexivity|].
  destruct (answer onStruct onProperty ev h) as [[[e|]|a] h']; try reflexivity.
  apply IH.
Qed.

Lemma ends_ret_nil : ends_by_callback onStruct onProperty (retT None).
Proof. intros h r h1 tr [= <- <- <-]. right. split; [reflexivity | discriminate]. Qed.

Lemma ends_abort a : ends_by_callback onStruct onProperty (abortT a).
Proof. intros h r h1 tr [= <- <- <-]. right. split; [reflexivity | discriminate]. Qed.

Lemma ends_call ev :
  ends_by_callback onStruct onProperty (call ev (answer onStruct onProperty ev)).
Proof.
  intros h r h1 tr. unfold call.
  destruct (answer onStruct onProperty ev h) as [r' h'] eqn:Ha.
  intros [= <- <- <-].
  destruct r' as [[e|]|a].
  - left. exists [], ev, h. repeat split; [exact Ha | discriminate].
  - right. cbn [replay]. rewrite Ha. split; [reflexivity | discriminate].
  - left. exists [], ev, h. repeat split; [exact Ha | discriminate].
Qed.

Lemma ends_bind_lift {A} (o : outcome A) k :
  (forall a, o = Ret a -> ends_by_callback onStruct onProperty (k a)) ->
  ends_by_callback onStruct onProperty (bindT (liftT o) k).
Proof.
  intros Hk h r h1 tr. unfold bindT, liftT.
  destruct o as [a|a]; [|apply ends_abort].
  destruct (k a h) as [[r2 h2] t2] eqn:Hka. intros [= <- <- <-].
  exact (Hk a eq_refl _ _ _ _ Hka).
Qed.

Lemma ends_bind_read {A} (f : heap -> outcome A) k :
  (forall h a, f h = Ret a -> ends_by_callback onStruct onProperty (k a)) ->
  ends_by_callback onStruct onProperty (bindT (readT f) k).
Proof.
  intros Hk h r h1 tr. unfold bindT, readT.
  destruct (f h) as [a|a] eqn:Hf; [|apply ends_abort].
  destruct (k a h) as [[r2 h2] t2] eqn:Hka. intros [= <- <- <-].
  exact (Hk h a Hf _ _ _ _ Hka).
Qed.

(** [if err := m; err != nil { return err }; k]. *)
Lemma ends_seq m k :
  ends_by_callback onStruct onProperty m -> ends_by_callback onStruct onProperty k ->
  ends_by_callback onStruct onProperty
    (bindT m (fun err => match err with Some e => retT (Some e) | None => k end)).
Proof.
  intros Hm Hk h r h1 tr. unfold bindT.
  destruct (m h) as [[[[e'|]|a] h'] t1] eqn:Hmh.
  - cbn. intros [= <- <- <-]. rewrite app_nil_r. exact (Hm _ _ _ _ Hmh).
  - destruct (Hm _ _ _ _ Hmh) as [(before & ev & h0 & _ & _ & _ & Hr) | [Hall _]];
      [contradiction Hr; reflexivity|].
    destruct (k h') as [[r2 h2] t2] eqn:Hkh. intros [= <- <- <-].
    destruct (Hk _ _ _ _ Hkh) as [(before & ev & h0 & -> & Hbefore & Hev & Hr) | [Hrest Hr]].
    + left. exists (t1 ++ before), ev, h0. rewrite app_assoc.
      repeat split; [|exact Hev|exact Hr].
      rewrite replay_app, Hall. exact Hbefore.
    + right. split; [|exact Hr]. rewrite replay_app, Hall. exact Hrest.
  - intros [= <- <- <-]. exact (Hm _ _ _ _ Hmh).
Qed.

Lemma ends_for_range body n : forall from,
  (forall i, ends_by_callback onStruct onProperty (body i)) ->
  ends_by_callback onStruct onProperty (for_range body n from).
Proof.
  induction n as [|n IH]; intros from Hb; cbn [for_range].
  - apply ends_ret_nil.
  - apply ends_seq; [apply Hb | apply IH; exact Hb].
Qed.

Lemma Strct_after_switch_ends sf f :
  ends_by_callback onStruct onProperty (Strct.after_switch onProperty sf f).
Proof.
  unfold Strct.after_switch.
  destruct (negb (CanSet f)); [apply ends_ret_nil | apply (ends_call (OnProperty sf f))].
Qed.

Lemma Strct_case_Struct_ends rec sf t l fl :
  kind_of E t = reflect.Struct ->
  (forall t l, kind_of E t = reflect.Struct ->
               ends_by_callback onStruct onProperty (rec (Some (TPtr t, VPtr (Some l))))) ->
  ends_by_callback onStruct onProperty
    (Strct.case_Struct E onStruct onProperty rec sf (Ref t l fl)).
Proof.
  intros Hk Hrec. unfold Strct.case_Struct. cbn [Addr].
  apply ends_bind_lift. intros a [= <-]. cbn [CanInterface].
  destruct (flagRO fl) eqn:Hro; cbn [negb]; [apply ends_ret_nil|].
  apply ends_seq; [apply (ends_call (OnStruct sf))|].
  apply ends_bind_read. intros h obj Hobj.
  rewrite Interface_pointer in Hobj by exact Hro. injection Hobj as <-.
  apply ends_seq; [apply Hrec; exact Hk | apply Strct_after_switch_ends].
Qed.

Lemma Strct_ScanAll_field_ends rec t l fl i :
  (forall t l, kind_of E t = reflect.Struct ->
               ends_by_callback onStruct onProperty (rec (Some (TPtr t, VPtr (Some l))))) ->
  ends_by_callback onStruct onProperty
    (Strct.ScanAll_field E onStruct onProperty rec (Ref t l fl) t i).
Proof.
  intros Hrec. unfold Strct.ScanAll_field.
  apply ends_bind_lift. intros f Hf.
  apply ends_bind_lift. intros sf Hsf.
  apply Field_Ref in Hf. destruct Hf as (sf' & Hsf' & ->).
  cbn [Kind].
  destruct (kind_of E (sfType sf')) eqn:Hk;
    try apply Strct_after_switch_ends;
    try (apply Strct_case_Struct_ends; [exact Hk | exact Hrec]).
  apply ends_bind_read. intros h e He.
  destruct (is_Struct (Kind E e)) eqn:Hs; cbn [negb];
    [|apply Strct_after_switch_ends].
  destruct (Elem_Ptr E (Ref (sfType sf') (Loc (base l) (path l ++ [i])) (field_flag fl sf'))
              h e Hk He) as [-> | (t' & l' & ->)]; [discriminate|].
  apply Strct_case_Struct_ends; [|exact Hrec].
  apply Kind_eqb_eq in Hs. exact Hs.
Qed.

Lemma Strct_ScanAll_rounds_ends depth : forall t l n from,
  ends_by_callback onStruct onProperty
    (ScanAll_rounds E onStruct onProperty depth t l n from).
Proof.
  induction depth as [|d IH]; intros t l n from; unfold ScanAll_rounds;
    apply ends_for_range; intros i; apply Strct_ScanAll_field_ends;
    intros t' l' Hk; cbn [ScanAll_rec].
  - apply ends_abort.
  - intros h r h1 tr. rewrite Strct_ScanAll_record by exact Hk. apply IH.
Qed.

(** At the root, the scan may also end with [ErrNoPtr], before any call. *)
Lemma Strct_ScanAll_ends depth obj h r h1 tr :
  Strct.ScanAll E onStruct onProperty depth obj h = (r, h1, tr) ->
  (r = Ret (Some ErrNoPtr) /\ h1 = h /\ tr = []) \/ ended onStruct onProperty h r h1 tr.
Proof.
  rewrite ScanAll_unfold. cbv zeta.
  destruct (is_Ptr (Kind E (ValueOf obj))) eqn:Hp; cbn [negb];
    [|intros [= <- <- <-]; left; auto].
  unfold bindT at 1, readT at 1.
  destruct (IsNil (ValueOf obj) h) as [[|]|a] eqn:Hnil;
    [intros [= <- <- <-]; left; auto | | intros H; right; exact (ends_abort a _ _ _ _ H)].
  unfold bindT at 1, readT at 1.
  destruct (Elem E (ValueOf obj) h) as [rv|a] eqn:Hrv;
    [|intros H; right; exact (ends_abort a _ _ _ _ H)].
  destruct (is_Struct (Kind E rv)) eqn:Hs; cbn [negb];
    [|intros [= <- <- <-]; left; auto].
  destruct (root_struct _ _ _ _ Hp Hrv Hs) as (t & l & ->).
  cbn [Type_]. rewrite bindT_lift_ret.
  destruct (for_range _ _ _ h) as [[r' h'] tr'] eqn:Hloop. cbn [app].
  intros [= <- <- <-]. right.
  exact (Strct_ScanAll_rounds_ends depth t l _ _ _ _ _ _ Hloop).
Qed.

End Ends.

(** The hook of [Scan] returns nil: the calls of [onProperty] alone tell
    how the scan ended. *)
Lemma replay_properties onStruct onProperty tr : forall h,
  replay (fun _ => retM None) onProperty h tr
  = replay onStruct onProperty h (properties tr).
Proof.
  induction tr as [|[sf|sf v] tr IH]; intros h; cbn [properties List.filter is_property replay answer].
  - reflexivity.
  - apply IH.
  - destruct (onProperty sf v h) as [[[e|]|a] h']; try reflexivity. apply IH.
Qed.

Lemma ended_properties onStruct onProperty h r h1 tr :
  ended (fun _ => retM None) onProperty h r h1 tr ->
  ended onStruct onProperty h r h1 (properties tr).
Proof.
  intros [(before & ev & h0 & -> & Hbefore & Hev & Hr) | [Hall Hr]].
  - left. destruct ev as [sf|sf v].
    + cbn in Hev. injection Hev as <- _. contradiction Hr. reflexivity.
    + exists (properties before), (OnProperty sf v), h0.
      rewrite properties_last, <- replay_properties. auto.
  - right. rewrite <- replay_properties. auto.
Qed.

(** X12. A call of a callback that does not return nil ends the scan at
    once, also from inside a nested record, and what it returned is what
    the scan returns.  In every run of [ScanAll] or [Scan] (of either
    revision), either the root is not a reference to a record, no callback
    is called, the store is as it was and the error is [ErrNoPtr]; or the
    last call did not return nil, all calls before it did, each run in the
    store that the one before left, and the scan gives what the last call
    gave, an error as it is, and leaves the store as that call left it; or
    every call returned nil and the scan gives no error.  So when the scan
    returns an error other than by a malformed root, the error is the one
    that the last call returned.  And on a pointer to a record, when the
    rounds on the fields before the field [i] have returned nil and the
    round on the field [i] does not, the scan ends with this round: it
    gives what the round gave, and no call is made after it. *)
Theorem error_is_the_last_calls E onStruct onProperty depth obj h e h1 tr :
  (forall r,
     Strct.ScanAll E onStruct onProperty depth obj h = (r, h1, tr) ->
     (r = Ret (Some ErrNoPtr) /\ h1 = h /\ tr = [])
     \/ ended onStruct onProperty h r h1 tr)
  /\ (forall r,
        Strct.Scan E onProperty depth obj h = (r, h1, tr)
        \/ Base.Scan E onProperty depth obj h = (r, h1, tr) ->
        (r = Ret (Some ErrNoPtr) /\ h1 = h /\ tr = [])
        \/ ended (fun _ => retM None) onProperty h r h1 tr)
  /\ (Strct.ScanAll E onStruct onProperty depth obj h = (Ret (Some e), h1, tr) ->
      (e = ErrNoPtr /\ h1 = h /\ tr = []) \/ stopped_by onStruct onProperty e h1 tr)
  /\ (Strct.Scan E onProperty depth obj h = (Ret (Some e), h1, tr)
      \/ Base.Scan E onProperty depth obj h = (Ret (Some e), h1, tr) ->
      (e = ErrNoPtr /\ h1 = h /\ tr = [])
      \/ exists before sf v h0,
           tr = before ++ [OnProperty sf v]
           /\ onProperty sf v h0 = (Ret (Some e), h1))
  /\ (forall t l i hi before calls r,
        obj = Some (TPtr t, VPtr (Some l)) -> kind_of E t = reflect.Struct ->
        (i < length (struct_fields E t))%nat -> r <> Ret None ->
        (ScanAll_rounds E onStruct onProperty depth t l i 0 h = (Ret None, hi, before) ->
         Strct.ScanAll_field E onStruct onProperty (ScanAll_rec E onStruct onProperty depth)
           (Ref t l flag0) t i hi = (r, h1, calls) ->
         Strct.ScanAll E onStruct onProperty depth obj h = (r, h1, before ++ calls))
        /\ (ScanAll_rounds E (fun _ => retM None) onProperty depth t l i 0 h
            = (Ret None, hi, before) ->
            Strct.ScanAll_field E (fun _ => retM None) onProperty
              (ScanAll_rec E (fun _ => retM None) onProperty depth)
              (Ref t l flag0) t i hi = (r, h1, calls) ->
            Strct.Scan E onProperty depth obj h = (r, h1, before ++ calls))
        /\ (Scan_rounds E onProperty depth t l i 0 h = (Ret None, hi, before) ->
            Base.Scan_field E onProperty (Scan_rec E onProperty depth)
              (Ref t l flag0) t i hi = (r, h1, calls) ->
            Base.Scan E onProperty depth obj h = (r, h1, before ++ calls))).
Proof.
  assert (forall r,
            Strct.Scan E onProperty depth obj h = (r, h1, tr)
            \/ Base.Scan E onProperty depth obj h = (r, h1, tr) ->
            (r = Ret (Some ErrNoPtr) /\ h1 = h /\ tr = [])
            \/ ended (fun _ => retM None) onProperty h r h1 tr) as Hscan.
  { intros r [H|H]; [exact (Strct_ScanAll_ends E _ onProperty depth obj h r h1 tr H)|].
    rewrite Scan_but_for_onStruct in H.
    destruct (Strct.Scan E onProperty depth obj h) as [[r' h'] tr'] eqn:Hs.
    cbn in H. injection H as -> -> <-.
    destruct (Strct_ScanAll_ends E _ onProperty depth obj h r h1 tr' Hs)
      as [(-> & -> & ->) | Hend]; [left; auto|].
    right. apply ended_properties. exact Hend. }
  split; [intros r; apply Strct_ScanAll_ends|].
  split; [exact Hscan|].
  split; [|split].
  - intros H.
    destruct (Strct_ScanAll_ends E onStruct onProperty depth obj h _ h1 tr H)
      as [([= ->] & -> & ->) | [(before & ev & h0 & -> & _ & Hev & _) | [_ Hr]]].
    + left. auto.
    + right. exists before, ev, h0. auto.
    + contradiction (Hr e). reflexivity.
  - intros H.
    destruct (Hscan (Ret (Some e)) H)
      as [([= ->] & -> & ->) | [(before & ev & h0 & -> & _ & Hev & _) | [_ Hr]]].
    + left. auto.
    + right. destruct ev as [sf|sf v]; [discriminate Hev|].
      exists before, sf, v, h0. auto.
    + contradiction (Hr e). reflexivity.
  - intros t l i hi before calls r -> Hk Hi Hr.
    unfold Strct.Scan.
    rewrite !Strct_ScanAll_record, Base_Scan_record by exact Hk.
    unfold ScanAll_rounds, Scan_rounds.
    split; [|split]; intros Hbefore Hround;
      rewrite (loop_reaches_round _ _ _ _ _ _ Hi Hbefore), Hround;
      (destruct r as [[e'|]|a]; [reflexivity | contradiction Hr; reflexivity | reflexivity]).
Qed.

Lemma error_is_the_last_calls_witness :
  ended examples.nothing scans.refuse_Port scans.flat_heap
    (Ret (Some (errorString "no port"))) scans.flat_heap
    [ OnProperty (mkStructField "Name" EmptyString (TBasic reflect.String) EmptyString 0 false)
        (Ref (TBasic reflect.String) (Loc 0%nat [0%nat]) flag0);
      OnProperty (mkStructField "Port" EmptyString (TBasic reflect.Int) EmptyString 2 false)
        (Ref (TBasic reflect.Int) (Loc 0%nat [2%nat]) flag0) ]
  /\ Strct.ScanAll examples.env examples.nothing scans.refuse_Port 0 scans.flat_obj
       scans.flat_heap
     = (Ret (Some (errorString "no port")), scans.flat_heap,
        [ OnProperty (mkStructField "Name" EmptyString (TBasic reflect.String) EmptyString 0 false)
        (Ref (TBasic reflect.String) (Loc 0%nat [0%nat]) flag0);
          OnProperty (mkStructField "Port" EmptyString (TBasic reflect.Int) EmptyString 2 false)
        (Ref (TBasic reflect.Int) (Loc 0%nat [2%nat]) flag0) ]).
Proof.
  pose proof (error_is_the_last_calls examples.env examples.nothing scans.refuse_Port 0
                scans.flat_obj scans.flat_heap (errorString "no port") scans.flat_heap
                [ OnProperty (mkStructField "Name" EmptyString (TBasic reflect.String) EmptyString 0 false)
        (Ref (TBasic reflect.String) (Loc 0%nat [0%nat]) flag0);
                  OnProperty (mkStructField "Port" EmptyString (TBasic reflect.Int) EmptyString 2 false)
        (Ref (TBasic reflect.Int) (Loc 0%nat [2%nat]) flag0) ])
    as (Hend & _ & _ & _ & Hround).
  split.
  - destruct (Hend (Ret (Some (errorString "no port"))) eq_refl) as [(_ & _ & H) | H].
    + discriminate H.
    + exact H.
  - exact (proj1 (Hround scans.Flat (Loc 0%nat []) 2%nat scans.flat_heap
                    [ OnProperty (mkStructField "Name" EmptyString (TBasic reflect.String) EmptyString 0 false)
        (Ref (TBasic reflect.String) (Loc 0%nat [0%nat]) flag0) ]
                    [ OnProperty (mkStructField "Port" EmptyString (TBasic reflect.Int) EmptyString 2 false)
        (Ref (TBasic reflect.Int) (Loc 0%nat [2%nat]) flag0) ]
                    (Ret (Some (errorString "no port"))) eq_refl eq_refl
                    ltac:(cbn; lia) ltac:(discriminate))
             eq_refl eq_refl).
Defined.

(** ** A record of plain fields *)

Lemma CanSet_field_value l i sf : CanSet (field_value l flag0 i sf) = IsExported sf.
Proof. cbn [field_value CanSet]. rewrite flagRO_field_flag. apply negb_involutive. Qed.

Lemma Strct_plain_round E onStruct onProperty rec t l i sf h :
  struct_fields E t !! i = Some sf -> plain_kind (kind_of E (sfType sf)) = true ->
  Strct.ScanAll_field E onStruct onProperty rec (Ref t l flag0) t i h
  = Strct.after_switch onProperty sf (field_value l flag0 i sf) h.
Proof.
  intros Hsf Hplain.
  destruct (field_round_start E t l flag0 i sf Hsf) as [HF HM].
  unfold Strct.ScanAll_field. rewrite HF, HM, !bindT_lift_ret.
  cbn [field_value Kind]. unfold plain_kind, is_Ptr, is_Struct in Hplain.
  destruct (kind_of E (sfType sf)); try discriminate Hplain; reflexivity.
Qed.

Lemma Base_plain_round E onProperty rec t l i sf h :
  struct_fields E t !! i = Some sf -> plain_kind (kind_of E (sfType sf)) = true ->
  Base.Scan_field E onProperty rec (Ref t l flag0) t i h
  = Strct.after_switch onProperty sf (field_value l flag0 i sf) h.
Proof.
  intros Hsf Hplain.
  destruct (field_round_start E t l flag0 i sf Hsf) as [HF HM].
  unfold Base.Scan_field. rewrite HF, HM, !bindT_lift_ret.
  cbn [field_value Kind]. unfold plain_kind, is_Ptr, is_Struct in Hplain.
  destruct (kind_of E (sfType sf)); try discriminate Hplain; reflexivity.
Qed.

(** The loop over plain fields, whatever code the rounds come from. *)
Lemma plain_loop E onProperty body t l :
  (forall i sf h,
     struct_fields E t !! i = Some sf -> plain_kind (kind_of E (sfType sf)) = true ->
     body i h = Strct.after_switch onProperty sf (field_value l flag0 i sf) h) ->
  forall rest done,
    struct_fields E t = done ++ rest ->
    Forall (fun sf => plain_kind (kind_of E (sfType sf)) = true) rest ->
    forall h r h' tr,
      for_range body (length rest) (length done) h = (r, h', tr) ->
      (exists more, offered l (length done) rest = tr ++ more)
      /\ (r = Ret None -> tr = offered l (length done) rest)
      /\ ((forall sf v h0, exists h1, onProperty sf v h0 = (Ret None, h1)) -> r = Ret None).
Proof.
  intros Hbody.
  induction rest as [|sf rest IH]; intros done Hfs Hplain h r h' tr;
    cbn [for_range length offered].
  - intros [= <- <- <-]. split; [exists []; reflexivity|]. split; reflexivity.
  - inversion Hplain as [|? ? Hsf Hrest]; subst.
    assert (struct_fields E t !! length done = Some sf) as Hi
      by (rewrite Hfs; apply list_lookup_middle; reflexivity).
    assert (struct_fields E t = (done ++ [sf]) ++ rest) as Hfs'
      by (rewrite <- app_assoc; exact Hfs).
    assert (length (done ++ [sf]) = S (length done)) as Hlen
      by (rewrite length_app; cbn; lia).
    specialize (IH (done ++ [sf]) Hfs' Hrest). rewrite Hlen in IH.
    unfold bindT at 1. rewrite (Hbody _ _ _ Hi Hsf).
    unfold Strct.after_switch. rewrite CanSet_field_value.
    destruct (IsExported sf); cbn [negb].
    + unfold call.
      destruct (onProperty sf (field_value l flag0 (length done) sf) h)
        as [[[e|]|a] h1] eqn:Hcall.
      * cbn. intros [= <- <- <-].
        split; [eexists; reflexivity|]. split; [discriminate|].
        intros Hnil. destruct (Hnil sf (field_value l flag0 (length done) sf) h) as [h2 H2].
        congruence.
      * destruct (for_range body (length rest) (S (length done)) h1) as [[r2 h2] t2] eqn:Hloop.
        intros [= <- <- <-].
        destruct (IH _ _ _ _ Hloop) as ((more & Hmore) & Hall & Hnil).
        split; [exists more; cbn; rewrite Hmore; reflexivity|].
        split; [intros Hr; cbn; rewrite <- (Hall Hr); reflexivity | exact Hnil].
      * intros [= <- <- <-].
        split; [eexists; reflexivity|]. split; [discriminate|].
        intros Hnil. destruct (Hnil sf (field_value l flag0 (length done) sf) h) as [h2 H2].
        congruence.
    + unfold retT at 1.
      destruct (for_range body (length rest) (S (length done)) h) as [[r2 h2] t2] eqn:Hloop.
      intros [= <- <- <-].
      destruct (IH _ _ _ _ Hloop) as ((more & Hmore) & Hall & Hnil).
      split; [exists more; exact Hmore|].
      split; [intros Hr; exact (Hall Hr) | exact Hnil].
Qed.

(** The loop over plain fields goes from call to call, and ends with the
    first call that does not return nil. *)
Lemma plain_loop_ends E onStruct onProperty body t l :
  (forall i sf h,
     struct_fields E t !! i = Some sf -> plain_kind (kind_of E (sfType sf)) = true ->
     body i h = Strct.after_switch onProperty sf (field_value l flag0 i sf) h) ->
  forall rest done,
    struct_fields E t = done ++ rest ->
    Forall (fun sf => plain_kind (kind_of E (sfType sf)) = true) rest ->
    forall h r h' tr,
      for_range body (length rest) (length done) h = (r, h', tr) ->
      (r = Ret None /\ tr = offered l (length done) rest
       /\ replay onStruct onProperty h tr = Some h')
      \/ (exists before ev more h0,
            offered l (length done) rest = before ++ ev :: more
            /\ tr = before ++ [ev]
            /\ replay onStruct onProperty h before = Some h0
            /\ answer onStruct onProperty ev h0 = (r, h')
            /\ r <> Ret None).
Proof.
  intros Hbody.
  induction rest as [|sf rest IH]; intros done Hfs Hplain h r h' tr;
    cbn [for_range length offered].
  - intros [= <- <- <-]. left. auto.
  - inversion Hplain as [|? ? Hsf Hrest]; subst.
    assert (struct_fields E t !! length done = Some sf) as Hi
      by (rewrite Hfs; apply list_lookup_middle; reflexivity).
    assert (struct_fields E t = (done ++ [sf]) ++ rest) as Hfs'
      by (rewrite <- app_assoc; exact Hfs).
    assert (length (done ++ [sf]) = S (length done)) as Hlen
      by (rewrite length_app; cbn; lia).
    specialize (IH (done ++ [sf]) Hfs' Hrest). rewrite Hlen in IH.
    unfold bindT at 1. rewrite (Hbody _ _ _ Hi Hsf).
    unfold Strct.after_switch. rewrite CanSet_field_value.
    destruct (IsExported sf); cbn [negb app].
    + unfold call.
      destruct (onProperty sf (field_value l flag0 (length done) sf) h)
        as [[[e|]|a] h1] eqn:Hcall.
      * cbn. intros [= <- <- <-]. right.
        exists [], (OnProperty sf (field_value l flag0 (length done) sf)),
               (offered l (S (length done)) rest), h.
        repeat split; [exact Hcall | discriminate].
      * destruct (for_range body (length rest) (S (length done)) h1) as [[r2 h2] t2] eqn:Hloop.
        intros [= <- <- <-].
        destruct (IH _ _ _ _ Hloop)
          as [(-> & -> & Hall) | (before & ev & more & h0 & Hoff & -> & Hbefore & Hev & Hr)].
        -- left. repeat split. cbn [app replay answer]. rewrite Hcall. exact Hall.
        -- right.
           exists (OnProperty sf (field_value l flag0 (length done) sf) :: before),
                  ev, more, h0.
           rewrite Hoff. repeat split; [|exact Hev|exact Hr].
           cbn [replay answer]. rewrite Hcall. exact Hbefore.
      * intros [= <- <- <-]. right.
        exists [], (OnProperty sf (field_value l flag0 (length done) sf)),
               (offered l (S (length done)) rest), h.
        repeat split; [exact Hcall | discriminate].
    + unfold retT at 1.
      destruct (for_range body (length rest) (S (length done)) h) as [[r2 h2] t2] eqn:Hloop.
      intros [= <- <- <-]. exact (IH _ _ _ _ Hloop).
Qed.

(** X13. On a pointer to a record none of whose fields is a struct or a
    pointer, [ScanAll] and [Scan] (of either revision) never call
    [onStruct] and never recurse, so that any depth will do: they call
    [onProperty] for the exported fields, in the order of their
    declaration, each once, with the field's metadata and the field itself
    as a settable [Value], and stop at the first call that does not return
    nil.  The calls made are a front part of the calls for all exported
    fields, all of them when nil is returned; and nil is returned when
    every call returns nil.  Either every call for an exported field is
    made and returns nil, each in the store that the one before left, and
    the scan returns nil; or the scan ends with the first of these calls
    that does not return nil: the calls after it are not made, and the
    scan gives what this call gave and leaves the store as it left it. *)
Theorem plain_record_in_declaration_order E onStruct onProperty depth t l h r h' tr :
  kind_of E t = reflect.Struct ->
  Forall (fun sf => plain_kind (kind_of E (sfType sf)) = true) (struct_fields E t) ->
  Strct.ScanAll E onStruct onProperty depth (Some (TPtr t, VPtr (Some l))) h = (r, h', tr)
  \/ Strct.Scan E onProperty depth (Some (TPtr t, VPtr (Some l))) h = (r, h', tr)
  \/ Base.Scan E onProperty depth (Some (TPtr t, VPtr (Some l))) h = (r, h', tr) ->
  (exists more, offered l 0 (struct_fields E t) = tr ++ more)
  /\ (r = Ret None -> tr = offered l 0 (struct_fields E t))
  /\ ((forall sf v h0, exists h1, onProperty sf v h0 = (Ret None, h1)) -> r = Ret None)
  /\ ((r = Ret None /\ tr = offered l 0 (struct_fields E t)
       /\ replay onStruct onProperty h tr = Some h')
      \/ (exists before ev more h0,
            offered l 0 (struct_fields E t) = before ++ ev :: more
            /\ tr = before ++ [ev]
            /\ replay onStruct onProperty h before = Some h0
            /\ answer onStruct onProperty ev h0 = (r, h')
            /\ r <> Ret None)).
Proof.
  intros Hk Hplain H.
  unfold Strct.Scan in H.
  rewrite !Strct_ScanAll_record, Base_Scan_record in H by exact Hk.
  unfold ScanAll_rounds, Scan_rounds in H.
  assert (forall A B C D : Prop, (A /\ B /\ C) -> D -> A /\ B /\ C /\ D) as Hjoin
    by tauto.
  destruct H as [H|[H|H]];
    (apply Hjoin;
     [ eapply (plain_loop E onProperty _ t l) with (done := []);
       [ | reflexivity | exact Hplain | exact H ]
     | eapply (plain_loop_ends E onStruct onProperty _ t l) with (done := []);
       [ | reflexivity | exact Hplain | exact H ] ]);
    intros i sf h0 Hi Hsf;
    (apply Strct_plain_round || apply Base_plain_round); assumption.
Qed.

Lemma plain_record_in_declaration_order_witness :
  map (fun ev => match ev with OnProperty sf _ | OnStruct sf => sfName sf end)
    (trace_of (Strct.ScanAll examples.env examples.nothing examples.nothing2 0
                 scans.flat_obj scans.flat_heap))
  = ["Name"; "Port"].
Proof.
  rewrite (proj1 (proj2 (plain_record_in_declaration_order examples.env examples.nothing
                           examples.nothing2 0 scans.Flat (Loc 0%nat []) scans.flat_heap
                           (Ret None) scans.flat_heap
                           (trace_of (Strct.ScanAll examples.env examples.nothing
                                        examples.nothing2 0 scans.flat_obj scans.flat_heap))
                           eq_refl
                           ltac:(repeat constructor)
                           (or_introl eq_refl))) eq_refl).
  reflexivity.
Defined.

(** ** List elements whose zero value does not print as an empty text *)

Lemma zero_element_skipped E (parse : string -> Value -> M (option error))
    (guard : string -> bool) t et z a n i part h0 :
  elem_type E t = Some et -> kind_of E et <> reflect.Interface ->
  h0 !! a = Some (VSlice (Some (replicate n z))) -> (i < n)%nat ->
  (forall h', guard (fmt.Sprint E h' (Some (et, z))) = false) ->
  (forall val fv h, Interface E fv h = Ret (Some (et, z)) -> parse val fv h = (Ret None, h)) ->
  slice_part E parse (Ref t (Loc a []) flag0) i part h0 = (Ret None, h0).
Proof.
  intros Het Hk Hcell Hi Hguard Hparse.
  unfold slice_part, bindM, Index. cbn [base path app]. rewrite Het.
  assert (load h0 (Loc a [i]) = Some z) as Hload.
  { unfold load. cbn [base path]. rewrite Hcell. cbn [get_path children].
    rewrite lookup_replicate_2 by exact Hi. reflexivity. }
  rewrite Hload. apply Hparse.
  unfold Interface. cbn [flagRO flag0 flagStickyRO flagEmbedRO orb value_of].
  rewrite Hload. destruct (kind_of E et); try reflexivity. contradiction.
Qed.

Lemma zero_elements_skipped E parse t et z a n h0 :
  elem_type E t = Some et ->
  h0 !! a = Some (VSlice (Some (replicate n z))) ->
  (forall i part, (i < n)%nat ->
     slice_part E parse (Ref t (Loc a []) flag0) i part h0 = (Ret None, h0)) ->
  forall parts i, (i + length parts <= n)%nat ->
    range_parts (slice_part E parse (Ref t (Loc a []) flag0)) i parts h0 = (Ret None, h0).
Proof.
  intros Het Hcell Hpart.
  induction parts as [|part rest IH]; intros i Hi; cbn [range_parts length] in *.
  - reflexivity.
  - unfold bindM at 1. rewrite Hpart by lia. apply IH. lia.
Qed.

Lemma list_case_zero E parse t et z l fl depth val h hs :
  flagRO fl = false -> kind_of E t = reflect.Slice ->
  elem_type E t = Some et -> Zero E (S depth) et = Some z ->
  let zeros := VSlice (Some (replicate (length (strings.Split val ";"%char)) z)) in
  store h l zeros = Some hs ->
  (forall i part, (i < length (strings.Split val ";"%char))%nat ->
     slice_part E parse (Ref t (Loc (length h) []) flag0) i part (h ++ [zeros])
     = (Ret None, h ++ [zeros])) ->
  list_case E parse depth val (Ref t l fl) h = (Ret None, hs ++ [zeros]).
Proof.
  intros Hro Hk Het Hz zeros Hst Hpart.
  unfold list_case. cbn [type_of]. unfold bindM at 1, MakeSlice.
  rewrite Het, Hz. cbn [alloc]. fold zeros.
  unfold bindM at 1.
  rewrite (zero_elements_skipped E parse t et z (length h) _ (h ++ [zeros]) Het
             (list_lookup_middle _ _ _ _ eq_refl) Hpart) by (cbn; lia).
  unfold bindM, Set_. cbn [mustBeAssignable flag_of]. rewrite Hro.
  cbn [flagRO flag0 flagStickyRO flagEmbedRO orb value_of].
  rewrite load_fresh. cbn [get_path type_of]. rewrite Hk.
  unfold assign. cbn [mustBeAssignable]. rewrite Hro.
  rewrite (store_app _ _ _ _ _ Hst). reflexivity.
Qed.

(** X14. [ParseHard] coerces the parts of a list with [Parse], and [Parse]
    looks at its destination first: when the zero value of the element
    type prints as something else than the empty texts of [Parse] (as
    [0s], the zero [time.Duration], does), no part is coerced at all.  The
    destination then receives as many zero elements as the text has parts
    and nil is returned, whatever the parts are, also when they are
    malformed.  For both revisions, each with its own empty texts. *)
Theorem list_of_unprintable_zeros E depth val t et z l fl h hs :
  val <> EmptyString -> flagRO fl = false ->
  kind_of E t = reflect.Slice -> elem_type E t = Some et ->
  Zero E (S depth) et = Some z -> kind_of E et <> reflect.Interface ->
  let zeros := VSlice (Some (replicate (S (count_byte ";"%char val)) z)) in
  store h l zeros = Some hs ->
  ((forall h', empty_text (fmt.Sprint E h' (Some (et, z))) = false) ->
   Strct.ParseHard E depth val (Ref t l fl) h = (Ret None, hs ++ [zeros]))
  /\ ((forall h', empty_text_base (fmt.Sprint E h' (Some (et, z))) = false) ->
      Base.ParseHard E depth val (Ref t l fl) h = (Ret None, hs ++ [zeros])).
Proof.
  intros Hval Hro Hk Het Hz Hki zeros Hst. subst zeros.
  rewrite <- length_Split in *.
  split; intros Hguard.
  - rewrite (Strct_ParseHard_slice E depth val (Ref t l fl) Hval Hk).
    apply (list_case_zero E _ t et z); try assumption.
    intros i part Hi.
    apply (zero_element_skipped E _ empty_text t et z (length h) _ i part _ Het Hki
             (list_lookup_middle _ _ _ _ eq_refl) Hi Hguard).
    intros val' fv' h' Ha.
    rewrite (Strct_Parse_with_run _ _ _ _ _ _ Ha), Hguard. reflexivity.
  - rewrite (Base_ParseHard_slice E depth val (Ref t l fl) Hval Hk).
    apply (list_case_zero E _ t et z); try assumption.
    intros i part Hi.
    apply (zero_element_skipped E _ empty_text_base t et z (length h) _ i part _ Het Hki
             (list_lookup_middle _ _ _ _ eq_refl) Hi Hguard).
    intros val' fv' h' Ha.
    rewrite (Base_Parse_with_run _ _ _ _ _ _ Ha), Hguard. reflexivity.
Qed.

Lemma list_of_unprintable_zeros_witness :
  Strct.ParseHard examples.env 1 "1s;oops" lists.durations_var [VSlice None]
  = (Ret None, [VSlice (Some [VInt 0; VInt 0]); VSlice (Some [VInt 0; VInt 0])]).
Proof.
  apply (proj1 (list_of_unprintable_zeros examples.env 1 "1s;oops" lists.durations
                  world.Duration (VInt 0) (Loc 0%nat []) flag0 [VSlice None]
                  [VSlice (Some [VInt 0; VInt 0])]
                  ltac:(discriminate) eq_refl eq_refl eq_refl eq_refl ltac:(discriminate)
                  eq_refl)).
  intros h'. reflexivity.
Defined.

(** ** The oldest revision *)

(** X15. The three revisions coerce alike where they have the same cases:
    [Parse] of the oldest revision is [ParseHard] of src/base.go on every
    destination that is not a slice (it has no guard and overwrites
    whatever the destination holds), and [ParseHard] of the latest revision
    is [ParseHard] of src/base.go on every destination that is not a slice,
    a pointer or an interface.  On a slice the revisions differ in the
    coercion of the elements, which the oldest revision does with its
    unguarded [Parse]: there a list of durations is parsed, where
    [ParseHard] leaves zeros. *)
Theorem oldest_Parse_is_ParseHard E depth val fv h :
  (Kind E fv <> reflect.Slice ->
   Oldest.Parse E depth val fv h = Base.ParseHard E depth val fv h)
  /\ (Kind E fv <> reflect.Slice -> Kind E fv <> reflect.Interface ->
      Kind E fv <> reflect.Ptr ->
      Strct.ParseHard E depth val fv h = Base.ParseHard E depth val fv h)
  /\ Oldest.Parse examples.env 1 "1s;2s" lists.durations_var [VSlice None]
     = (Ret None, [ VSlice (Some [VInt 1000000000; VInt 2000000000]);
                    VSlice (Some [VInt 1000000000; VInt 2000000000]) ])
  /\ Base.ParseHard examples.env 1 "1s;2s" lists.durations_var [VSlice None]
     = (Ret None, [VSlice (Some [VInt 0; VInt 0]); VSlice (Some [VInt 0; VInt 0])]).
Proof.
  split; [|split; [|split; vm_compute; reflexivity]].
  - intros Hk.
    destruct depth; cbn [Oldest.Parse Base.ParseHard];
      (destruct (String.eqb val EmptyString); [reflexivity|]);
      destruct (Kind E fv); try contradiction; reflexivity.
  - intros Hk Hi Hp.
    destruct depth; cbn [Strct.ParseHard Base.ParseHard];
      (destruct (String.eqb val EmptyString); [reflexivity|]);
      destruct (Kind E fv); try contradiction; reflexivity.
Qed.

Lemma oldest_Parse_is_ParseHard_witness :
  Oldest.Parse examples.env 0 "true" examples.flag_var [VBool false]
  = Base.ParseHard examples.env 0 "true" examples.flag_var [VBool false].
Proof.
  apply (proj1 (oldest_Parse_is_ParseHard examples.env 0 "true" examples.flag_var
                  [VBool false])).
  discriminate.
Defined.

(** ** Lists of strings *)

Lemma Strct_string_element E d h es i text :
  es !! i = Some (VString EmptyString) ->
  (let* element := Index E (Ref texts.string_slice (Loc (length h) []) flag0) i in
   Strct.Parse_with E (Strct.ParseHard E d) text element) (h ++ [VSlice (Some es)])
  = (Ret None, h ++ [VSlice (Some (<[i:=VString text]> es))]).
Proof.
  intros Hi. unfold bindM at 1, Index. cbn [base path app].
  change (elem_type E texts.string_slice) with (Some (TBasic reflect.String)). cbv iota.
  rewrite load_fresh. cbn [get_path children]. rewrite Hi.
  change (Flag (flagRO flag0) false) with flag0.
  set (el := Ref (TBasic reflect.String) (Loc (length h) [i]) flag0).
  assert (Interface E el (h ++ [VSlice (Some es)])
          = Ret (Some (TBasic reflect.String, VString EmptyString))) as HI.
  { unfold Interface, el. cbn [flagRO flag0 flagStickyRO flagEmbedRO orb value_of].
    rewrite load_fresh. cbn [get_path children]. rewrite Hi. reflexivity. }
  rewrite (Strct_Parse_with_run _ _ _ _ _ _ HI).
  change (empty_text (fmt.Sprint E (h ++ [VSlice (Some es)])
                        (Some (TBasic reflect.String, VString EmptyString)))) with true.
  cbv iota.
  destruct d; cbn [Strct.ParseHard];
    (destruct (String.eqb text EmptyString) eqn:Ht;
     [ apply String.eqb_eq in Ht; subst text;
       rewrite list_insert_id by exact Hi; reflexivity |];
     change (Kind E el) with reflect.String; cbv iota;
     unfold bindM, SetString, assign, el;
     cbn [mustBeAssignable flagRO flag0 flagStickyRO flagEmbedRO orb];
     rewrite store_fresh; cbn [set_path children]; rewrite Hi; reflexivity).
Qed.

Lemma Base_string_element E d h es i text :
  es !! i = Some (VString EmptyString) ->
  (let* element := Index E (Ref texts.string_slice (Loc (length h) []) flag0) i in
   Base.Parse_with E (Base.ParseHard E d) text element) (h ++ [VSlice (Some es)])
  = (Ret None, h ++ [VSlice (Some (<[i:=VString text]> es))]).
Proof.
  intros Hi. unfold bindM at 1, Index. cbn [base path app].
  change (elem_type E texts.string_slice) with (Some (TBasic reflect.String)). cbv iota.
  rewrite load_fresh. cbn [get_path children]. rewrite Hi.
  change (Flag (flagRO flag0) false) with flag0.
  set (el := Ref (TBasic reflect.String) (Loc (length h) [i]) flag0).
  assert (Interface E el (h ++ [VSlice (Some es)])
          = Ret (Some (TBasic reflect.String, VString EmptyString))) as HI.
  { unfold Interface, el. cbn [flagRO flag0 flagStickyRO flagEmbedRO orb value_of].
    rewrite load_fresh. cbn [get_path children]. rewrite Hi. reflexivity. }
  rewrite (Base_Parse_with_run _ _ _ _ _ _ HI).
  change (empty_text_base (fmt.Sprint E (h ++ [VSlice (Some es)])
                             (Some (TBasic reflect.String, VString EmptyString)))) with true.
  cbv iota.
  destruct d; cbn [Base.ParseHard];
    (destruct (String.eqb text EmptyString) eqn:Ht;
     [ apply String.eqb_eq in Ht; subst text;
       rewrite list_insert_id by exact Hi; reflexivity |];
     change (Kind E el) with reflect.String; cbv iota;
     unfold bindM, SetString, assign, el;
     cbn [mustBeAssignable flagRO flag0 flagStickyRO flagEmbedRO orb];
     rewrite store_fresh; cbn [set_path children]; rewrite Hi; reflexivity).
Qed.

(** The loop over the parts, given what the coercion of one part does. *)
Lemma string_elements E parse h :
  (forall es i text,
     es !! i = Some (VString EmptyString) ->
     (let* element := Index E (Ref texts.string_slice (Loc (length h) []) flag0) i in
      parse text element) (h ++ [VSlice (Some es)])
     = (Ret None, h ++ [VSlice (Some (<[i:=VString text]> es))])) ->
  forall all done,
    coerce_each E parse (Ref texts.string_slice (Loc (length h) []) flag0) (length done) all
      (h ++ [VSlice (Some (done ++ replicate (length all) (VString EmptyString)))])
    = (Ret None, h ++ [VSlice (Some (done ++ map VString all))]).
Proof.
  intros Hel.
  induction all as [|text rest IH]; intros done; cbn [coerce_each length replicate map].
  - reflexivity.
  - pose proof (Hel (done ++ VString EmptyString :: replicate (length rest) (VString EmptyString))
                  (length done) text (list_lookup_middle _ _ _ _ eq_refl)) as Hstep.
    unfold bindM in *.
    destruct (Index E _ (length done) _) as [[el|a] h0]; [|discriminate].
    rewrite Hstep.
    rewrite insert_app_r_alt by lia. rewrite Nat.sub_diag. cbn [insert list_insert].
    specialize (IH (done ++ [VString text])).
    rewrite length_app in IH. cbn [length] in IH.
    rewrite Nat.add_1_r in IH. rewrite <- !app_assoc in IH. exact IH.
Qed.

Lemma string_list_rule E parse depth val l fl h hs :
  flagRO fl = false ->
  (forall es i text,
     es !! i = Some (VString EmptyString) ->
     (let* element := Index E (Ref texts.string_slice (Loc (length h) []) flag0) i in
      parse text element) (h ++ [VSlice (Some es)])
     = (Ret None, h ++ [VSlice (Some (<[i:=VString text]> es))])) ->
  let trimmed := VSlice (Some (map VString (map strings.TrimSpace (strings.Split val ";"%char)))) in
  store h l trimmed = Some hs ->
  list_rule E parse depth val (Ref texts.string_slice l fl) h = (Ret None, hs ++ [trimmed]).
Proof.
  intros Hro Hel trimmed Hst. unfold list_rule. cbn [type_of].
  unfold bindM at 1, MakeSlice.
  change (elem_type E texts.string_slice) with (Some (TBasic reflect.String)). cbv iota.
  change (Zero E (S depth) (TBasic reflect.String)) with (Some (VString EmptyString)).
  cbv iota. cbn [alloc]. unfold bindM at 1.
  pose proof (string_elements E parse h Hel
                (map strings.TrimSpace (strings.Split val ";"%char)) []) as Hloop.
  cbn [length app] in Hloop. rewrite Hloop. fold trimmed.
  unfold bindM, Set_. cbn [mustBeAssignable flag_of]. rewrite Hro.
  cbn [flagRO flag0 flagStickyRO flagEmbedRO orb value_of].
  rewrite load_fresh. cbn [get_path type_of].
  change (kind_of E texts.string_slice) with reflect.Slice. cbv iota.
  unfold assign. cbn [mustBeAssignable]. rewrite Hro.
  rewrite (store_app _ _ _ _ _ Hst). reflexivity.
Qed.

(** X16. On a settable [[]string] variable and a non-empty text
    [ParseHard] (of either revision, with room for one nested call) never
    fails: the variable ends up holding the parts of the text between the
    semicolons, each with its leading and trailing white space removed,
    the empty parts too, in a fresh slice.  A single string destination,
    by contrast, receives the text as it is. *)
Theorem string_list_holds_trimmed_parts E d val l fl h :
  val <> EmptyString -> flagRO fl = false ->
  (forall hs,
     store h l (VSlice (Some (map VString (map strings.TrimSpace (strings.Split val ";"%char)))))
     = Some hs ->
     Strct.ParseHard E (S d) val (Ref texts.string_slice l fl) h
     = (Ret None,
        hs ++ [VSlice (Some (map VString (map strings.TrimSpace (strings.Split val ";"%char))))])
     /\ Base.ParseHard E (S d) val (Ref texts.string_slice l fl) h
        = (Ret None,
           hs ++ [VSlice (Some (map VString (map strings.TrimSpace (strings.Split val ";"%char))))]))
  /\ (forall depth hs,
        store h l (VString val) = Some hs ->
        Strct.ParseHard E depth val (Ref (TBasic reflect.String) l fl) h = (Ret None, hs)
        /\ Base.ParseHard E depth val (Ref (TBasic reflect.String) l fl) h = (Ret None, hs)).
Proof.
  intros Hval Hro. split.
  - intros hs Hst. split.
    + rewrite Strct_ParseHard_slice by (exact Hval || reflexivity).
      rewrite list_case_rule. cbn [Strct_ParseHard_rec].
      apply string_list_rule; [exact Hro | | exact Hst].
      intros es i text Hi. apply Strct_string_element. exact Hi.
    + rewrite Base_ParseHard_slice by (exact Hval || reflexivity).
      rewrite list_case_rule. cbn [Base_ParseHard_rec].
      apply string_list_rule; [exact Hro | | exact Hst].
      intros es i text Hi. apply Base_string_element. exact Hi.
  - intros depth hs Hst.
    split; destruct depth; cbn [Strct.ParseHard Base.ParseHard];
      rewrite (eqb_nonempty _ Hval);
      change (Kind E (Ref (TBasic reflect.String) l fl)) with reflect.String; cbv iota;
      unfold bindM, SetString, assign; cbn [mustBeAssignable]; rewrite Hro, Hst;
      reflexivity.
Qed.

Lemma string_list_holds_trimmed_parts_witness :
  Strct.ParseHard examples.env 1 " a ; b;;c " texts.strings_var [VSlice None]
  = (Ret None, [ VSlice (Some [VString "a"; VString "b"; VString EmptyString; VString "c"]);
                 VSlice (Some [VString "a"; VString "b"; VString EmptyString; VString "c"]) ])
  /\ Strct.ParseHard examples.env 0 " a ; b;;c " texts.text_var [VString EmptyString]
     = (Ret None, [VString " a ; b;;c "]).
Proof.
  pose proof (string_list_holds_trimmed_parts examples.env 0 " a ; b;;c " (Loc 0%nat []) flag0
                [VSlice None] ltac:(discriminate) eq_refl) as [Hlist _].
  pose proof (string_list_holds_trimmed_parts examples.env 0 " a ; b;;c " (Loc 0%nat []) flag0
                [VString EmptyString] ltac:(discriminate) eq_refl) as [_ Htext].
  split.
  - exact (proj1 (Hlist [VSlice (Some [VString "a"; VString "b"; VString EmptyString; VString "c"])]
                    eq_refl)).
  - exact (proj1 (Htext 0%nat [VString " a ; b;;c "] eq_refl)).
Defined.

(** ** The guard of [Parse] reads the text of the value *)

(** X17. The guard of [Parse] looks at how the value prints, not at what
    it is: a settable variable of type [string] that holds the text
    [false], [0], [[]] or [<nil>] counts as unset and is overwritten as the
    empty string is, and every other text is kept.  In src/base.go the text
    [<nil>] is kept too. *)
Theorem string_guard_reads_the_text E depth val l fl h s :
  flagRO fl = false -> load h l = Some (VString s) ->
  Strct.Parse E depth val (Ref (TBasic reflect.String) l fl) h
  = (if empty_text s then Strct.ParseHard E depth val (Ref (TBasic reflect.String) l fl) h
     else (Ret None, h))
  /\ Base.Parse E depth val (Ref (TBasic reflect.String) l fl) h
     = (if empty_text_base s
        then Base.ParseHard E depth val (Ref (TBasic reflect.String) l fl) h
        else (Ret None, h)).
Proof.
  intros Hro Hl.
  assert (Interface E (Ref (TBasic reflect.String) l fl) h
          = Ret (Some (TBasic reflect.String, VString s))) as HI.
  { unfold Interface. rewrite Hro. cbn [value_of]. rewrite Hl. reflexivity. }
  unfold Strct.Parse, Base.Parse.
  rewrite (Strct_Parse_with_run _ _ _ _ _ _ HI), (Base_Parse_with_run _ _ _ _ _ _ HI).
  split; reflexivity.
Qed.

Lemma string_guard_reads_the_text_witness :
  Strct.Parse examples.env 0 "eight" texts.text_var [VString "0"] = (Ret None, [VString "eight"])
  /\ Base.Parse examples.env 0 "eight" texts.text_var [VString "<nil>"]
     = (Ret None, [VString "<nil>"]).
Proof.
  pose proof (string_guard_reads_the_text examples.env 0 "eight" (Loc 0%nat []) flag0
                [VString "0"] "0" eq_refl eq_refl) as [H0 _].
  pose proof (string_guard_reads_the_text examples.env 0 "eight" (Loc 0%nat []) flag0
                [VString "<nil>"] "<nil>" eq_refl eq_refl) as [_ Hnil].
  split; [exact H0 | exact Hnil].
Defined.

(** ** Booleans and floating-point numbers *)

Lemma ParseBool_spec val :
  (In val true_texts -> strconv.ParseBool val = inl true)
  /\ (In val false_texts -> strconv.ParseBool val = inl false)
  /\ (~ In val true_texts -> ~ In val false_texts ->
      strconv.ParseBool val = inr (NumError "ParseBool" val "invalid syntax")).
Proof.
  unfold true_texts, false_texts. cbn [In]. split; [|split].
  - intros [<-|[<-|[<-|[<-|[<-|[<-|[]]]]]]]; reflexivity.
  - intros [<-|[<-|[<-|[<-|[<-|[<-|[]]]]]]]; reflexivity.
  - intros Ht Hf. unfold strconv.ParseBool.
    repeat match goal with
           | |- context [String.eqb val ?s] =>
               destruct (String.eqb_spec val s);
               [subst val; exfalso; ((apply Ht; tauto) || (apply Hf; tauto))|]
           end.
    reflexivity.
Qed.

(** X18. On a settable destination of kind bool and a non-empty text,
    [ParseHard] (of either revision) stores true for the texts [1], [t],
    [T], [true], [TRUE] and [True], false for [0], [f], [F], [false],
    [FALSE] and [False], and for every other text returns the syntax error
    of [strconv.ParseBool] and leaves the store as it was.  On a
    destination of a floating-point kind it stores what
    [strconv.ParseFloat] yields for the size of the destination, 32 bits
    for [float32]. *)
Theorem bool_and_float_destinations E depth val t l fl h :
  val <> EmptyString -> flagRO fl = false ->
  (kind_of E t = reflect.Bool ->
   (forall b hs, In val (if b : bool then true_texts else false_texts) ->
                 store h l (VBool b) = Some hs ->
                 Strct.ParseHard E depth val (Ref t l fl) h = (Ret None, hs)
                 /\ Base.ParseHard E depth val (Ref t l fl) h = (Ret None, hs))
   /\ (~ In val true_texts -> ~ In val false_texts ->
       Strct.ParseHard E depth val (Ref t l fl) h
       = (Ret (Some (NumError "ParseBool" val "invalid syntax")), h)
       /\ Base.ParseHard E depth val (Ref t l fl) h
          = (Ret (Some (NumError "ParseBool" val "invalid syntax")), h)))
  /\ (kind_of E t = reflect.Float32 \/ kind_of E t = reflect.Float64 ->
      forall bits, bits = (if reflect.Kind_eqb (kind_of E t) reflect.Float32 then 32 else 64) ->
      (forall err, strconv_ParseFloat E val bits = inr err ->
                   Strct.ParseHard E depth val (Ref t l fl) h = (Ret (Some err), h)
                   /\ Base.ParseHard E depth val (Ref t l fl) h = (Ret (Some err), h))
      /\ (forall v hs, strconv_ParseFloat E val bits = inl v ->
                       store h l (VFloat v) = Some hs ->
                       Strct.ParseHard E depth val (Ref t l fl) h = (Ret None, hs)
                       /\ Base.ParseHard E depth val (Ref t l fl) h = (Ret None, hs))).
Proof.
  intros Hval Hro.
  destruct (ParseBool_spec val) as (Htrue & Hfalse & Hother).
  split.
  - intros Hk. split.
    + intros b hs Hin Hst.
      assert (strconv.ParseBool val = inl b) as Hb
        by (destruct b; [apply Htrue | apply Hfalse]; exact Hin).
      split; destruct depth; cbn [Strct.ParseHard Base.ParseHard Kind];
        rewrite (eqb_nonempty _ Hval), Hk, Hb;
        unfold bindM, SetBool, assign; cbn [mustBeAssignable]; rewrite Hro, Hst;
        reflexivity.
    + intros Ht Hf. specialize (Hother Ht Hf).
      split; destruct depth; cbn [Strct.ParseHard Base.ParseHard Kind];
        rewrite (eqb_nonempty _ Hval), Hk, Hother; reflexivity.
  - intros Hk bits ->.
    assert (Bits E t = if reflect.Kind_eqb (kind_of E t) reflect.Float32 then 32 else 64)
      as Hbits by (unfold Bits; destruct Hk as [-> | ->]; reflexivity).
    rewrite <- Hbits. split.
    + intros err Herr.
      split; destruct depth; cbn [Strct.ParseHard Base.ParseHard Kind type_of];
        rewrite (eqb_nonempty _ Hval);
        (destruct Hk as [Hk|Hk]; rewrite Hk; cbv iota; rewrite Herr; reflexivity).
    + intros v hs Hv Hst.
      split; destruct depth; cbn [Strct.ParseHard Base.ParseHard Kind type_of];
        rewrite (eqb_nonempty _ Hval);
        (destruct Hk as [Hk|Hk]; rewrite Hk; cbv iota; rewrite Hv;
         unfold bindM, SetFloat, assign; cbn [mustBeAssignable]; rewrite Hro, Hst;
         reflexivity).
Qed.

Lemma bool_and_float_destinations_witness :
  Strct.ParseHard examples.env 0 "T" examples.flag_var [VBool false] = (Ret None, [VBool true])
  /\ Strct.ParseHard examples.env 0 "yes" examples.flag_var [VBool false]
     = (Ret (Some (NumError "ParseBool" "yes" "invalid syntax")), [VBool false]).
Proof.
  split.
  - exact (proj1 (proj1 (proj1 (bool_and_float_destinations examples.env 0 "T"
                                  (TBasic reflect.Bool) (Loc 0%nat []) flag0 [VBool false]
                                  ltac:(discriminate) eq_refl) eq_refl)
                    true [VBool true] ltac:(cbn; tauto) eq_refl)).
  - refine (proj1 (proj2 (proj1 (bool_and_float_destinations examples.env 0 "yes"
                                   (TBasic reflect.Bool) (Loc 0%nat []) flag0 [VBool false]
                                   ltac:(discriminate) eq_refl) eq_refl) _ _)).
    + cbn. intros [H|[H|[H|[H|[H|[H|[]]]]]]]; discriminate H.
    + cbn. intros [H|[H|[H|[H|[H|[H|[]]]]]]]; discriminate H.
Defined.

(** ** Destinations on which [ParseHard] does not panic *)

Lemma set_path_exists p : forall c x0 x,
  get_path c p = Some x0 -> exists c', set_path c p x = Some c'.
Proof.
  induction p as [|i p IH]; intros c x0 x; cbn [get_path set_path].
  - eauto.
  - destruct (children c) as [cs|]; [|discriminate].
    destruct (cs !! i) as [ci|]; [|discriminate].
    intros Hg. destruct (IH ci x0 x Hg) as [ci' ->]. eauto.
Qed.

Lemma store_exists h l x0 x : load h l = Some x0 -> exists hs, store h l x = Some hs.
Proof.
  unfold load, store. destruct (h !! base l) as [c|]; [|discriminate].
  intros Hg. destruct (set_path_exists _ _ _ x Hg) as [c' ->]. eauto.
Qed.

(** An assignment to a settable variable that exists, then [return nil]. *)
Lemma assign_returns t l fl x0 x h :
  flagRO fl = false -> load h l = Some x0 ->
  exists h', bindM (assign (Ref t l fl) x) (fun _ => retM (@None error)) h = (Ret None, h').
Proof.
  intros Hro Hl. unfold bindM, assign. cbn [mustBeAssignable]. rewrite Hro.
  destruct (store_exists h l x0 x Hl) as [hs ->]. eauto.
Qed.

Lemma Set_returns E t l fl x0 tx x h :
  flagRO fl = false -> load h l = Some x0 ->
  exists h', bindM (Set_ E (Ref t l fl) (Imm tx x flag0)) (fun _ => retM (@None error)) h
             = (Ret None, h').
Proof.
  intros Hro Hl. unfold bindM at 1, Set_. cbn [mustBeAssignable flag_of]. rewrite Hro.
  cbn [flagRO flag0 flagStickyRO flagEmbedRO orb value_of type_of].
  assert (forall y, exists h',
            (let '(r, h1) := assign (Ref t l fl) y h in
             match r with
             | Ret _ => retM (@None error) h1
             | Abort a => (Abort a, h1)
             end) = (Ret None, h')) as Hassign.
  { intros y. unfold assign. cbn [mustBeAssignable]. rewrite Hro.
    destruct (store_exists h l x0 y Hl) as [hs ->]. eauto. }
  destruct (kind_of E t); try apply Hassign.
  destruct (kind_of E tx); apply Hassign.
Qed.

Ltac returns_step Hro Hl :=
  unfold SetBool, SetInt, SetUint, SetFloat, SetString;
  repeat match goal with
         | |- exists r h', retM ?x _ = (Ret r, h') => eexists; eexists; reflexivity
         | |- exists r h', bindM (assign _ _) _ _ = (Ret r, h') =>
             exists None; eapply assign_returns; [exact Hro | exact Hl]
         | |- exists r h', (match ?x with _ => _ end) _ = (Ret r, h') => destruct x
         | |- exists r h', (if ?x then _ else _) _ = (Ret r, h') => destruct x
         end.

Lemma open_then_Set_returns E t l fl x0 name h :
  flagRO fl = false -> load h l = Some x0 ->
  exists r h',
    (let* r := os_Open_ E name in
     match r with
     | inr err => retM (Some err)
     | inl file => let* _ := Set_ E (Ref t l fl) file in retM None
     end) h = (Ret r, h').
Proof.
  intros Hro Hl. unfold bindM at 1, os_Open_.
  destruct (os_Open E name) as [err|]; [eexists; eexists; reflexivity|].
  cbn [alloc]. exists None.
  eapply Set_returns; [exact Hro | apply load_app; exact Hl].
Qed.

Lemma sql_Open_then_Set_returns E t l fl x0 driver dsn h :
  flagRO fl = false -> load h l = Some x0 ->
  exists r h',
    (let* r := sql_Open_ E driver dsn in
     match r with
     | inr err => retM (Some err)
     | inl db => let* _ := Set_ E (Ref t l fl) db in retM None
     end) h = (Ret r, h').
Proof.
  intros Hro Hl. unfold bindM at 1, sql_Open_.
  destruct (sql_Open E driver dsn) as [err|]; [eexists; eexists; reflexivity|].
  cbn [alloc]. exists None.
  eapply Set_returns; [exact Hro | apply load_app; exact Hl].
Qed.

(** X19. On a settable destination that exists in the store and is not a
    slice, [ParseHard] (of either revision) does not panic, whatever the
    text: it returns nil or an error.  In particular the match of the
    database pattern, whose result is indexed without a check, is never
    nil.  So does [Parse], when the destination holds an interface value
    if it is of interface type. *)
Theorem settable_destination_no_panic E depth val t l fl x0 h :
  flagRO fl = false -> load h l = Some x0 -> kind_of E t <> reflect.Slice ->
  (exists r h', Strct.ParseHard E depth val (Ref t l fl) h = (Ret r, h'))
  /\ (exists r h', Base.ParseHard E depth val (Ref t l fl) h = (Ret r, h'))
  /\ ((kind_of E t = reflect.Interface -> exists d, x0 = VIface d) ->
      (exists r h', Strct.Parse E depth val (Ref t l fl) h = (Ret r, h'))
      /\ (exists r h', Base.Parse E depth val (Ref t l fl) h = (Ret r, h'))).
Proof.
  intros Hro Hl Hk.
  assert (exists r h', Strct.ParseHard E depth val (Ref t l fl) h = (Ret r, h')) as HS.
  { destruct (String.eqb val EmptyString) eqn:Hval.
    { apply String.eqb_eq in Hval. subst val. rewrite Strct_ParseHard_empty. eauto. }
    destruct depth; cbn [Strct.ParseHard Kind type_of]; rewrite Hval;
      (destruct (kind_of E t); try contradiction; returns_step Hro Hl;
       try (eapply open_then_Set_returns; eassumption);
       apply String.eqb_neq in Hval;
       destruct (dsn_submatches val Hval) as (m0 & m1 & ->);
       cbn [Strct.submatch lookup list_lookup];
       unfold bindM at 1, liftO at 1; unfold bindM at 1, liftO at 1;
       eapply sql_Open_then_Set_returns; eassumption). }
  assert (exists r h', Base.ParseHard E depth val (Ref t l fl) h = (Ret r, h')) as HB.
  { destruct (String.eqb val EmptyString) eqn:Hval.
    { apply String.eqb_eq in Hval. subst val. rewrite Base_ParseHard_empty. eauto. }
    destruct depth; cbn [Base.ParseHard Kind type_of]; rewrite Hval;
      (destruct (kind_of E t); try contradiction; returns_step Hro Hl). }
  split; [exact HS|]. split; [exact HB|].
  intros Hi.
  destruct (settable_boxable E t l fl h x0) as [a Ha];
    [cbn; rewrite Hro; reflexivity | exact Hl | exact Hi |].
  unfold Strct.Parse, Base.Parse.
  rewrite (Strct_Parse_with_run _ _ _ _ _ _ Ha), (Base_Parse_with_run _ _ _ _ _ _ Ha).
  split.
  - destruct (empty_text _); [exact HS | eauto].
  - destruct (empty_text_base _); [exact HB | eauto].
Qed.

Lemma settable_destination_no_panic_witness :
  exists r h',
    Strct.ParseHard examples.env 0 "/" (Ref (TPtr sql_DB) (Loc 0%nat []) flag0) [VPtr None]
    = (Ret r, h').
Proof.
  apply (proj1 (settable_destination_no_panic examples.env 0 "/" (TPtr sql_DB)
                  (Loc 0%nat []) flag0 (VPtr None) [VPtr None] eq_refl eq_refl
                  ltac:(discriminate))).
Defined.

(** ** References and the guard of [Parse] *)

Lemma reference_not_simple E t : kind_of E t = reflect.Ptr -> fmt.simple_type t = false.
Proof.
  destruct t as [k|p nm|e|e|len e|fs|ms|k zt]; try reflexivity.
  - unfold kind_of. cbn. intros ->. reflexivity.
  - unfold kind_of. cbn. discriminate.
Qed.

Lemma Sprint_nil_reference E h t :
  kind_of E t = reflect.Ptr -> fmt_method E t (VPtr None) h = None ->
  fmt.Sprint E h (Some (t, VPtr None)) = "<nil>".
Proof.
  intros Hk Hm. unfold fmt.Sprint.
  rewrite (reference_not_simple E t Hk), Hm. reflexivity.
Qed.

Lemma Sprint_reference E h t l' :
  kind_of E t = reflect.Ptr -> fmt_method E t (VPtr (Some l')) h = None ->
  exists s, fmt.Sprint E h (Some (t, VPtr (Some l'))) = "&" +++ s
            \/ fmt.Sprint E h (Some (t, VPtr (Some l'))) = "0x" +++ s.
Proof.
  intros Hk Hm. unfold fmt.Sprint.
  rewrite (reference_not_simple E t Hk), Hm.
  destruct (elem_type E t) as [e|].
  - destruct (kind_of E e); destruct (load h l');
      (eexists; (left; reflexivity) || (right; reflexivity)).
  - eexists. right. reflexivity.
Qed.

(** X21. How [Parse] treats references.  A settable variable of interface
    type that holds nil, and a settable nil pointer, print as [<nil>]: the
    latest revision takes them for unset and goes on to [ParseHard], while
    src/base.go, whose guard does not know [<nil>], leaves them alone.  A
    pointer that is not nil prints as an address or as [&] and what it
    points to, so that [Parse] (of either revision) returns nil and leaves
    the store as it was, also when the pointer sits in a variable of
    interface type: a file or a database that a destination already holds
    is never opened a second time.  (For pointer types without a method
    that [fmt] would call.) *)
Theorem references_and_the_guard E depth val t l fl h :
  flagRO fl = false ->
  (kind_of E t = reflect.Interface -> load h l = Some (VIface None) ->
   Strct.Parse E depth val (Ref t l fl) h = Strct.ParseHard E depth val (Ref t l fl) h
   /\ Base.Parse E depth val (Ref t l fl) h = (Ret None, h))
  /\ (forall t' l',
        kind_of E t = reflect.Interface ->
        load h l = Some (VIface (Some (t', VPtr (Some l')))) ->
        kind_of E t' = reflect.Ptr -> fmt_method E t' (VPtr (Some l')) h = None ->
        Strct.Parse E depth val (Ref t l fl) h = (Ret None, h)
        /\ Base.Parse E depth val (Ref t l fl) h = (Ret None, h))
  /\ (kind_of E t = reflect.Ptr -> (forall x, fmt_method E t x h = None) ->
      (load h l = Some (VPtr None) ->
       Strct.Parse E depth val (Ref t l fl) h = Strct.ParseHard E depth val (Ref t l fl) h
       /\ Base.Parse E depth val (Ref t l fl) h = (Ret None, h))
      /\ (forall l', load h l = Some (VPtr (Some l')) ->
            Strct.Parse E depth val (Ref t l fl) h = (Ret None, h)
            /\ Base.Parse E depth val (Ref t l fl) h = (Ret None, h))).
Proof.
  intros Hro. unfold Strct.Parse, Base.Parse. split; [|split].
  - intros Hk Hl.
    assert (Interface E (Ref t l fl) h = Ret None) as HI.
    { unfold Interface. rewrite Hro. cbn [value_of]. rewrite Hl, Hk. reflexivity. }
    rewrite (Strct_Parse_with_run _ _ _ _ _ _ HI), (Base_Parse_with_run _ _ _ _ _ _ HI).
    split; reflexivity.
  - intros t' l' Hk Hl Hk' Hm.
    assert (Interface E (Ref t l fl) h = Ret (Some (t', VPtr (Some l')))) as HI.
    { unfold Interface. rewrite Hro. cbn [value_of]. rewrite Hl, Hk. reflexivity. }
    rewrite (Strct_Parse_with_run _ _ _ _ _ _ HI), (Base_Parse_with_run _ _ _ _ _ _ HI).
    destruct (Sprint_reference E h t' l' Hk' Hm) as [s [-> | ->]]; split; reflexivity.
  - intros Hk Hm.
    assert (forall x, load h l = Some x ->
              Interface E (Ref t l fl) h = Ret (Some (t, x))) as HI.
    { intros x Hl. unfold Interface. rewrite Hro. cbn [value_of]. rewrite Hl, Hk.
      reflexivity. }
    split.
    + intros Hl.
      rewrite (Strct_Parse_with_run _ _ _ _ _ _ (HI _ Hl)),
              (Base_Parse_with_run _ _ _ _ _ _ (HI _ Hl)).
      rewrite (Sprint_nil_reference E h t Hk (Hm _)). split; reflexivity.
    + intros l' Hl.
      rewrite (Strct_Parse_with_run _ _ _ _ _ _ (HI _ Hl)),
              (Base_Parse_with_run _ _ _ _ _ _ (HI _ Hl)).
      destruct (Sprint_reference E h t l' Hk (Hm _)) as [s [-> | ->]];
        split; reflexivity.
Qed.

Lemma references_and_the_guard_witness :
  Strct.Parse test.env 0 "./base.go" (Ref io_Reader (Loc 0%nat []) flag0) [VIface None]
  = Strct.ParseHard test.env 0 "./base.go" (Ref io_Reader (Loc 0%nat []) flag0) [VIface None]
  /\ Strct.Parse test.env 0 "./base.go" (Ref (TPtr os_File) (Loc 0%nat []) flag0)
       [VPtr (Some (Loc 1%nat [])); VFile "./other.go"]
     = (Ret None, [VPtr (Some (Loc 1%nat [])); VFile "./other.go"]).
Proof.
  split.
  - exact (proj1 (proj1 (references_and_the_guard test.env 0 "./base.go" io_Reader
                           (Loc 0%nat []) flag0 [VIface None] eq_refl) eq_refl eq_refl)).
  - exact (proj1 (proj2 (proj2 (proj2 (references_and_the_guard test.env 0 "./base.go"
                                          (TPtr os_File) (Loc 0%nat []) flag0
                                          [VPtr (Some (Loc 1%nat [])); VFile "./other.go"]
                                          eq_refl))
                           eq_refl (fun x => eq_refl))
                    (Loc 1%nat []) eq_refl)).
Defined.
